(** * Portfolio front-end script: a shallow embedding of [script.js]

    The widgets of the page are independent of one another; each one is
    embedded in a module of its own, next to the properties proved of it.
    DOM nodes are records holding the attributes the script reads and writes;
    a missing element is [None]. Integer quantities (indices, lengths, layout
    offsets) are [Z]. JavaScript numbers are rationals: exact where they are
    only stored and compared (scroll offsets), and with every arithmetic
    result rounded by a function that the model leaves open, within the
    relative error of binary64 where a property needs it (the counters, the
    swipe, the cursor loop, the preloader); the counter, the swipe and the
    cursor loop are also run on the kernel's binary64 numbers. Timers are
    handles in a finite set. A listener that throws ends in [TypeError]. *)

From Stdlib Require Import ZArith QArith Qabs Qround Lqa Lia Bool.
From Stdlib Require PrimFloat SpecFloat FloatOps.
From stdpp Require Import base list strings gmap.

Local Open Scope Z_scope.

(** ** Comparisons of JavaScript numbers, on rationals *)

(** [x < y] as a boolean test. *)
Definition Qltb (x y : Q) : bool := negb (Qle_bool y x).

Lemma Qltb_lt (x y : Q) : Qltb x y = true <-> (x < y)%Q.
Proof.
  unfold Qltb. rewrite negb_true_iff. split.
  - intros H. apply Qnot_le_lt. intros Hle.
    apply Qle_bool_iff in Hle. congruence.
  - intros H. destruct (Qle_bool y x) eqn:E; [|reflexivity].
    apply Qle_bool_iff in E. exfalso. exact (Qlt_not_le _ _ H E).
Qed.

Lemma Qltb_ge (x y : Q) : Qltb x y = false <-> (y <= x)%Q.
Proof.
  unfold Qltb. rewrite negb_false_iff. apply Qle_bool_iff.
Qed.

(** ** Rounded arithmetic

    A binary64 operation returns the exact result rounded to the nearest
    number of the format, which away from overflow and underflow is within
    a relative error of [u = 2^-53] of it. *)

Definition u : Q := 1 # 9007199254740992.

(** [rnd] rounds within that error. *)
Definition rounds (rnd : Q -> Q) : Prop :=
  forall x : Q, (Qabs (rnd x - x) <= u * Qabs x)%Q.

Lemma rounds_within (rnd : Q -> Q) (x E : Q) :
  rounds rnd -> (Qabs x <= E)%Q ->
  (x - u * E <= rnd x /\ rnd x <= x + u * E)%Q.
Proof.
  intros Hr Hx. pose proof (Hr x) as H.
  apply Qabs_Qle_condition in H.
  assert (Hu : (u * Qabs x <= u * E)%Q).
  { apply Qmult_le_l; [reflexivity|exact Hx]. }
  split; lra.
Qed.

Lemma rounds_nonneg (rnd : Q -> Q) (x : Q) :
  rounds rnd -> (0 <= x)%Q -> (x - u * x <= rnd x /\ rnd x <= x + u * x)%Q.
Proof.
  intros Hr Hx. apply rounds_within; [exact Hr|].
  rewrite (Qabs_pos x Hx). apply Qle_refl.
Qed.

Lemma rounds_nonpos (rnd : Q -> Q) (x : Q) :
  rounds rnd -> (x <= 0)%Q -> (x + u * x <= rnd x /\ rnd x <= x - u * x)%Q.
Proof.
  intros Hr Hx.
  destruct (rounds_within rnd x (- x) Hr) as [H1 H2].
  - rewrite (Qabs_neg x Hx). apply Qle_refl.
  - split; lra.
Qed.

(** Exact arithmetic, on reduced fractions. *)
Lemma rounds_Qred : rounds Qred.
Proof.
  intros x. rewrite Qred_correct.
  assert (E : (x - x == 0)%Q) by ring. rewrite E.
  change (Qabs 0) with 0%Q.
  apply Qmult_le_0_compat; [unfold u; lra|apply Qabs_nonneg].
Qed.

(** Arithmetic that rounds every result towards zero by the largest
    relative error allowed. *)
Definition chop (x : Q) : Q := (x * (1 - u))%Q.

Lemma rounds_chop : rounds chop.
Proof.
  intros x. unfold chop.
  assert (E : (x * (1 - u) - x == - (u * x))%Q) by ring.
  rewrite E, Qabs_opp, Qabs_Qmult.
  rewrite (Qabs_pos u) by (unfold u; lra). apply Qle_refl.
Qed.

(** ** Navigation highlighting: [updateActiveNavLink] *)

Module NavHighlight.

(** A [section[id]] element, with the layout values the routine reads. *)
Record section := {
  sectionId : string;
  offsetTop : Z;
  offsetHeight : Z
}.

(** A [.nav-link] element: its [href] attribute (absent: [None]) and
    whether its class list holds ['active']. *)
Record navLink := {
  href : option string;
  active : bool
}.

(** [scrollY > sectionTop && scrollY <= sectionTop + sectionHeight] *)
Definition in_bounds (scrollY : Q) (s : section) : bool :=
  let sectionHeight := offsetHeight s in
  let sectionTop := offsetTop s - 100 in
  Qltb (inject_Z sectionTop) scrollY
  && Qle_bool scrollY (inject_Z (sectionTop + sectionHeight)).

(** [link.getAttribute('href') === `#${sectionId}`] *)
Definition href_matches (sectionId : string) (l : navLink) : bool :=
  match href l with
  | Some h => bool_decide (h = String.append "#" sectionId)
  | None => false
  end.

(** [link.classList.toggle('active', cond)] *)
Definition toggle_active (cond : bool) (l : navLink) : navLink :=
  {| href := href l; active := cond |}.

(** The inner [DOM.navLinks.forEach]. *)
Definition highlight (sectionId : string) (links : list navLink) : list navLink :=
  map (fun l => toggle_active (href_matches sectionId l) l) links.

(** The outer [sections.forEach]: the links are updated in place, section
    after section. *)
Definition updateActiveNavLink (scrollY : Q) (sections : list section)
    (links : list navLink) : list navLink :=
  fold_left
    (fun links s => if in_bounds scrollY s
                    then highlight (sectionId s) links
                    else links)
    sections links.

(** The links that carry ['active']. *)
Definition active_links (links : list navLink) : list navLink :=
  filter (fun l => active l = true) links.

(** The last section, in iteration order, whose bounds contain [scrollY]. *)
Definition last_match (scrollY : Q) (sections : list section) : option section :=
  List.find (in_bounds scrollY) (rev sections).

(** *** Properties *)

Lemma href_toggle_active (b : bool) (l : navLink) :
  href (toggle_active b l) = href l.
Proof. reflexivity. Qed.

Lemma href_matches_toggle_active (sid : string) (b : bool) (l : navLink) :
  href_matches sid (toggle_active b l) = href_matches sid l.
Proof. reflexivity. Qed.

(** A later pass over the links overwrites an earlier one. *)
Lemma highlight_highlight (sid sid' : string) (links : list navLink) :
  highlight sid (highlight sid' links) = highlight sid links.
Proof.
  unfold highlight. rewrite map_map. apply map_ext. intros l.
  rewrite href_matches_toggle_active. reflexivity.
Qed.

Lemma updateActiveNavLink_snoc (scrollY : Q) (secs : list section)
    (s : section) (links : list navLink) :
  updateActiveNavLink scrollY (secs ++ [s]) links =
  let links' := updateActiveNavLink scrollY secs links in
  if in_bounds scrollY s then highlight (sectionId s) links' else links'.
Proof. unfold updateActiveNavLink. rewrite fold_left_app. reflexivity. Qed.

Lemma last_match_snoc (scrollY : Q) (secs : list section) (s : section) :
  last_match scrollY (secs ++ [s]) =
  if in_bounds scrollY s then Some s else last_match scrollY secs.
Proof. unfold last_match. rewrite rev_unit. reflexivity. Qed.

(** The whole pass amounts to one [highlight], for the last section that
    contains the offset, and to nothing when there is none. *)
Lemma updateActiveNavLink_eq (scrollY : Q) (secs : list section)
    (links : list navLink) :
  updateActiveNavLink scrollY secs links =
  match last_match scrollY secs with
  | Some s => highlight (sectionId s) links
  | None => links
  end.
Proof.
  induction secs as [|s secs IH] using rev_ind; [reflexivity|].
  rewrite updateActiveNavLink_snoc, last_match_snoc. cbv zeta.
  destruct (in_bounds scrollY s); [|exact IH].
  rewrite IH. destruct (last_match scrollY secs); [|reflexivity].
  apply highlight_highlight.
Qed.

Lemma last_match_in_bounds (scrollY : Q) (secs : list section) (s : section) :
  last_match scrollY secs = Some s -> In s secs /\ in_bounds scrollY s = true.
Proof.
  unfold last_match. intros H. apply find_some in H as [Hin Hb].
  split; [|exact Hb]. apply in_rev. exact Hin.
Qed.

Lemma last_match_None (scrollY : Q) (secs : list section) :
  last_match scrollY secs = None <->
  forall s, In s secs -> in_bounds scrollY s = false.
Proof.
  unfold last_match. split.
  - intros H s Hin. apply (find_none _ _ H). apply in_rev in Hin. exact Hin.
  - intros H. destruct (List.find _ _) as [s|] eqn:E; [|reflexivity].
    apply find_some in E as [Hin Hb]. apply in_rev in Hin.
    rewrite (H s Hin) in Hb. discriminate.
Qed.

Lemma href_matches_spec (sid : string) (l : navLink) :
  href_matches sid l = true <-> href l = Some (String.append "#" sid).
Proof.
  unfold href_matches. destruct (href l) as [h|].
  - rewrite bool_decide_eq_true. split; congruence.
  - split; discriminate.
Qed.

Lemma active_highlight (sid : string) (links : list navLink) (l : navLink) :
  In l (highlight sid links) ->
  active l = true <-> href l = Some (String.append "#" sid).
Proof.
  unfold highlight. intros H. apply in_map_iff in H as (l0 & <- & _).
  cbn. apply href_matches_spec.
Qed.

Lemma active_links_highlight_nil (sid : string) (links : list navLink) :
  String.append "#" sid ∉ omap href links ->
  active_links (highlight sid links) = [].
Proof.
  unfold active_links, highlight.
  induction links as [|l links IH]; intros Hnotin; [reflexivity|].
  cbn [map]. rewrite filter_cons. cbn.
  destruct (href_matches sid l) eqn:E.
  - apply href_matches_spec in E. exfalso. apply Hnotin.
    cbn. rewrite E. cbn. apply list_elem_of_here.
  - rewrite decide_False by discriminate. apply IH.
    intros Hin. apply Hnotin. cbn. destruct (href l); cbn; [right|]; exact Hin.
Qed.

(** Links with pairwise distinct [href]s: at most one is highlighted. *)
Lemma active_links_highlight_le (sid : string) (links : list navLink) :
  NoDup (omap href links) ->
  (length (active_links (highlight sid links)) <= 1)%nat.
Proof.
  induction links as [|l links IH]; intros Hnd; [cbn; lia|].
  unfold active_links, highlight in *. cbn [map]. rewrite filter_cons. cbn.
  destruct (href_matches sid l) eqn:E.
  - rewrite decide_True by reflexivity. cbn.
    apply href_matches_spec in E. cbn in Hnd. rewrite E in Hnd. cbn in Hnd.
    apply NoDup_cons in Hnd as [Hnotin _].
    pose proof (active_links_highlight_nil sid links Hnotin) as Hnil.
    unfold active_links, highlight in Hnil. rewrite Hnil. cbn. lia.
  - rewrite decide_False by discriminate. apply IH.
    cbn in Hnd. destruct (href l); cbn in Hnd; [|exact Hnd].
    apply NoDup_cons in Hnd as [_ Hnd]. exact Hnd.
Qed.

(** C1, as the script has it. One pass of [updateActiveNavLink] at offset
    [scrollY]: when some section's bounds contain the offset, the links are
    those of one [highlight] for the last such section in iteration order, so
    a link carries ['active'] exactly when its [href] is ["#"] followed by
    that section's id, and at most one link does when the [href]s are
    pairwise distinct; when no section's bounds contain the offset, every
    link is left as it was. *)
Theorem updateActiveNavLink_last_match (scrollY : Q) (secs : list section)
    (links : list navLink) :
  let links' := updateActiveNavLink scrollY secs links in
  match last_match scrollY secs with
  | Some s =>
      In s secs /\ in_bounds scrollY s = true
      /\ links' = highlight (sectionId s) links
      /\ (forall l, In l links' ->
            active l = true <-> href l = Some (String.append "#" (sectionId s)))
      /\ (NoDup (omap href links) -> (length (active_links links') <= 1)%nat)
  | None =>
      (forall s, In s secs -> in_bounds scrollY s = false) /\ links' = links
  end.
Proof.
  cbv zeta. rewrite updateActiveNavLink_eq.
  destruct (last_match scrollY secs) as [s|] eqn:E.
  - apply last_match_in_bounds in E as [Hin Hb].
    split; [exact Hin|]. split; [exact Hb|]. split; [reflexivity|]. split.
    + intros l Hl. exact (active_highlight _ _ _ Hl).
    + apply active_links_highlight_le.
  - split; [|reflexivity]. apply last_match_None. exact E.
Qed.

(** A page of three sections and a navigation bar of three links. *)
Definition demo_sections : list section :=
  [ {| sectionId := "home"; offsetTop := 0; offsetHeight := 600 |};
    {| sectionId := "about"; offsetTop := 600; offsetHeight := 500 |};
    {| sectionId := "contact"; offsetTop := 1100; offsetHeight := 400 |} ].

Definition demo_links : list navLink :=
  [ {| href := Some "#home"; active := true |};
    {| href := Some "#about"; active := false |};
    {| href := Some "#contact"; active := false |} ].

Lemma updateActiveNavLink_last_match_witness :
  updateActiveNavLink 700 demo_sections demo_links =
    [ {| href := Some "#home"; active := false |};
      {| href := Some "#about"; active := true |};
      {| href := Some "#contact"; active := false |} ]
  /\ (length (active_links (updateActiveNavLink 700 demo_sections demo_links)) <= 1)%nat.
Proof.
  pose proof (updateActiveNavLink_last_match 700 demo_sections demo_links) as H.
  cbv zeta in H. change (last_match 700 demo_sections) with
    (Some {| sectionId := "about"; offsetTop := 600; offsetHeight := 500 |}) in H.
  destruct H as (_ & _ & Heq & _ & Hle). split.
  - rewrite Heq. reflexivity.
  - apply Hle. apply (bool_decide_unpack _). vm_compute. exact I.
Defined.

(** Two links to the same section are both highlighted, so that more than
    one link carries ['active'] after the pass. *)
Definition twin_links : list navLink :=
  [ {| href := Some "#home"; active := false |};
    {| href := Some "#home"; active := false |} ].

Lemma updateActiveNavLink_two_active :
  ~ (length (active_links (updateActiveNavLink 10 demo_sections twin_links)) <= 1)%nat.
Proof. vm_compute. lia. Qed.

End NavHighlight.

(** ** Testimonial carousel: [initTestimonialsSlider] *)

Module Carousel.

(** The closure state of the widget, the part of the document it writes, and
    the interval timers the browser holds for it. *)
Record slider := {
  cardCount : Z;                  (* [cards.length] *)
  currentIndex : Z;
  trackTransform : option Z;      (* [translateX(-P%)] is [Some P] *)
  dots : list bool;               (* per dot: does it hold ['active']? *)
  autoPlayInterval : option nat;  (* [undefined] is [None] *)
  intervals : gset nat;           (* the interval timers that are live *)
  nextHandle : nat;               (* what the next [setInterval] returns *)
  startX : Q;
  isDragging : bool
}.

(** The elements the initializer looks up; a missing one is [None]. *)
Record markup := {
  track : option Z;               (* the number of [.testimonial-card]s *)
  prevBtn : option unit;
  nextBtn : option unit;
  dotsContainer : option (list bool)
}.

Definition goToSlide (index : Z) (s : slider) : slider :=
  let index := if index <? 0 then cardCount s - 1 else index in
  let index := if cardCount s <=? index then 0 else index in
  {| cardCount := cardCount s;
     currentIndex := index;
     trackTransform := Some (index * 100);
     dots := imap (fun i _ => bool_decide (Z.of_nat i = index)) (dots s);
     autoPlayInterval := autoPlayInterval s;
     intervals := intervals s;
     nextHandle := nextHandle s;
     startX := startX s;
     isDragging := isDragging s |}.

(** [autoPlayInterval = setInterval(..., 5000)]: a fresh timer goes live and
    its handle overwrites the variable. *)
Definition startAutoPlay (s : slider) : slider :=
  {| cardCount := cardCount s;
     currentIndex := currentIndex s;
     trackTransform := trackTransform s;
     dots := dots s;
     autoPlayInterval := Some (nextHandle s);
     intervals := {[ nextHandle s ]} ∪ intervals s;
     nextHandle := S (nextHandle s);
     startX := startX s;
     isDragging := isDragging s |}.

(** [clearInterval(autoPlayInterval)]: the variable keeps the stale handle. *)
Definition stopAutoPlay (s : slider) : slider :=
  {| cardCount := cardCount s;
     currentIndex := currentIndex s;
     trackTransform := trackTransform s;
     dots := dots s;
     autoPlayInterval := autoPlayInterval s;
     intervals := match autoPlayInterval s with
                  | Some h => intervals s ∖ {[ h ]}
                  | None => intervals s
                  end;
     nextHandle := nextHandle s;
     startX := startX s;
     isDragging := isDragging s |}.

Definition touchstart (clientX : Q) (s : slider) : slider :=
  stopAutoPlay
    {| cardCount := cardCount s;
       currentIndex := currentIndex s;
       trackTransform := trackTransform s;
       dots := dots s;
       autoPlayInterval := autoPlayInterval s;
       intervals := intervals s;
       nextHandle := nextHandle s;
       startX := clientX;
       isDragging := true |}.

Definition set_isDragging (b : bool) (s : slider) : slider :=
  {| cardCount := cardCount s;
     currentIndex := currentIndex s;
     trackTransform := trackTransform s;
     dots := dots s;
     autoPlayInterval := autoPlayInterval s;
     intervals := intervals s;
     nextHandle := nextHandle s;
     startX := startX s;
     isDragging := b |}.

Section Gestures.

(** The coordinates of a touch are binary64 numbers, and the subtraction in
    the [touchend] listener rounds its result: [rnd] is that rounding. *)
Variable rnd : Q -> Q.

Definition touchend (clientX : Q) (s : slider) : slider :=
  if negb (isDragging s) then s
  else
    let diff := rnd (startX s - clientX) in
    let s1 :=
      if Qltb 50 (Qabs diff)
      then goToSlide (if Qltb 0 diff then currentIndex s + 1
                      else currentIndex s - 1) s
      else s in
    startAutoPlay (set_isDragging false s1).

(** What can happen to the widget once it is set up. *)
Inductive event :=
  | ClickPrev
  | ClickNext
  | ClickDot (i : nat)
  | TouchStart (clientX : Q)
  | TouchEnd (clientX : Q)
  | IntervalFires (h : nat).

Definition handle (s : slider) (e : event) : slider :=
  match e with
  | ClickPrev => startAutoPlay (goToSlide (currentIndex s - 1) (stopAutoPlay s))
  | ClickNext => startAutoPlay (goToSlide (currentIndex s + 1) (stopAutoPlay s))
  | ClickDot i =>
      (* only the dots found at set-up have a listener *)
      if bool_decide (i < length (dots s))%nat
      then startAutoPlay (goToSlide (Z.of_nat i) (stopAutoPlay s))
      else s
  | TouchStart x => touchstart x s
  | TouchEnd x => touchend x s
  | IntervalFires h =>
      (* a cleared timer never fires *)
      if bool_decide (h ∈ intervals s)
      then goToSlide (currentIndex s + 1) s
      else s
  end.

Definition run (s : slider) (es : list event) : slider := fold_left handle es s.

(** The state the initializer builds before its first [startAutoPlay]. *)
Definition fresh (n : Z) (ds : list bool) : slider :=
  {| cardCount := n;
     currentIndex := 0;
     trackTransform := None;
     dots := ds;
     autoPlayInterval := None;
     intervals := ∅;
     nextHandle := 1;
     startX := 0;
     isDragging := false |}.

(** The set-up; [None] when the guard returns early, in which case nothing
    is registered and no event ever reaches the widget. *)
Definition initTestimonialsSlider (m : markup) : option slider :=
  match track m, prevBtn m, nextBtn m, dotsContainer m with
  | Some n, Some _, Some _, Some ds => Some (startAutoPlay (fresh n ds))
  | _, _, _, _ => None
  end.

(** The number of autoplay timers that are live. *)
Definition live_timers (s : slider) : nat := size (intervals s).

(** A carousel of three cards and three dots, the first one active, right
    after its set-up. *)
Definition three_cards : slider := startAutoPlay (fresh 3 [true; false; false]).

(** *** The guard of the set-up *)

Lemma initTestimonialsSlider_guard (m : markup) :
  track m = None \/ prevBtn m = None \/ nextBtn m = None
  \/ dotsContainer m = None ->
  initTestimonialsSlider m = None.
Proof.
  unfold initTestimonialsSlider.
  intros [H|[H|[H|H]]]; rewrite H;
    destruct (track m), (prevBtn m), (nextBtn m), (dotsContainer m);
    reflexivity || discriminate.
Qed.

(** *** Index arithmetic *)

Lemma currentIndex_goToSlide (index : Z) (s : slider) :
  currentIndex (goToSlide index s) =
  let index := if index <? 0 then cardCount s - 1 else index in
  if cardCount s <=? index then 0 else index.
Proof. reflexivity. Qed.

Lemma goToSlide_next (s : slider) :
  1 <= cardCount s -> 0 <= currentIndex s < cardCount s ->
  currentIndex (goToSlide (currentIndex s + 1) s) =
  (currentIndex s + 1) mod cardCount s.
Proof.
  intros HL Hi. rewrite currentIndex_goToSlide. cbv zeta.
  destruct (Z.ltb_spec (currentIndex s + 1) 0) as [Hneg|_]; [lia|].
  destruct (Z.leb_spec (cardCount s) (currentIndex s + 1)) as [Hge|Hlt].
  - replace (currentIndex s + 1) with (cardCount s) by lia.
    symmetry. apply Z_mod_same_full.
  - symmetry. apply Z.mod_small. lia.
Qed.

Lemma goToSlide_prev (s : slider) :
  1 <= cardCount s -> 0 <= currentIndex s < cardCount s ->
  currentIndex (goToSlide (currentIndex s - 1) s) =
  (currentIndex s - 1) mod cardCount s.
Proof.
  intros HL Hi. rewrite currentIndex_goToSlide. cbv zeta.
  destruct (Z.ltb_spec (currentIndex s - 1) 0) as [Hneg|Hpos].
  - destruct (Z.leb_spec (cardCount s) (cardCount s - 1)) as [Hge|_]; [lia|].
    replace (currentIndex s - 1) with (-1) by lia.
    apply Z.mod_unique with (q := -1); lia.
  - destruct (Z.leb_spec (cardCount s) (currentIndex s - 1)) as [Hge|_]; [lia|].
    symmetry. apply Z.mod_small. lia.
Qed.

Lemma cardCount_stopAutoPlay (s : slider) : cardCount (stopAutoPlay s) = cardCount s.
Proof. reflexivity. Qed.

Lemma currentIndex_stopAutoPlay (s : slider) :
  currentIndex (stopAutoPlay s) = currentIndex s.
Proof. reflexivity. Qed.

Lemma currentIndex_startAutoPlay (s : slider) :
  currentIndex (startAutoPlay s) = currentIndex s.
Proof. reflexivity. Qed.

(** C2. In a carousel of [L >= 1] cards at an index [i] of [[0, L)], the
    next transition [goToSlide(i+1)] leads to [(i+1) mod L] and the prev
    transition [goToSlide(i-1)] to [(i-1) mod L]: next from [L-1] yields
    [0], prev from [0] yields [L-1]. The next and prev buttons and the
    autoplay tick make these very transitions. *)
Theorem goToSlide_wraps (s : slider) (h : nat) :
  1 <= cardCount s -> 0 <= currentIndex s < cardCount s ->
  let L := cardCount s in
  let i := currentIndex s in
  currentIndex (goToSlide (i + 1) s) = (i + 1) mod L
  /\ currentIndex (goToSlide (i - 1) s) = (i - 1) mod L
  /\ (i = L - 1 -> currentIndex (goToSlide (i + 1) s) = 0)
  /\ (i = 0 -> currentIndex (goToSlide (i - 1) s) = L - 1)
  /\ currentIndex (handle s ClickNext) = (i + 1) mod L
  /\ currentIndex (handle s ClickPrev) = (i - 1) mod L
  /\ (h ∈ intervals s ->
      currentIndex (handle s (IntervalFires h)) = (i + 1) mod L).
Proof.
  intros HL Hi L i. subst L i.
  pose proof (goToSlide_next s HL Hi) as Hn.
  pose proof (goToSlide_prev s HL Hi) as Hp.
  split; [exact Hn|]. split; [exact Hp|]. split; [|split; [|split; [|split]]].
  - intros E. rewrite Hn.
    replace (currentIndex s + 1) with (cardCount s) by lia.
    apply Z_mod_same_full.
  - intros E. rewrite Hp. rewrite E.
    symmetry. apply Z.mod_unique with (q := -1); lia.
  - exact (goToSlide_next (stopAutoPlay s) HL Hi).
  - exact (goToSlide_prev (stopAutoPlay s) HL Hi).
  - intros Hh. cbn [handle]. rewrite bool_decide_eq_true_2 by exact Hh. exact Hn.
Qed.

(** *** Swipe gestures *)

(** The index after a touch that starts at [x0] and ends at [x1]. *)
Lemma currentIndex_swipe (s : slider) (x0 x1 : Q) :
  currentIndex (run s [TouchStart x0; TouchEnd x1]) =
  if Qltb 50 (Qabs (rnd (x0 - x1)))
  then if Qltb 0 (rnd (x0 - x1))
       then currentIndex (goToSlide (currentIndex s + 1) s)
       else currentIndex (goToSlide (currentIndex s - 1) s)
  else currentIndex s.
Proof.
  cbn [run fold_left handle]. unfold touchend, touchstart.
  cbn [isDragging stopAutoPlay negb startX currentIndex].
  destruct (Qltb 50 (Qabs (rnd (x0 - x1)))); [|reflexivity].
  destruct (Qltb 0 (rnd (x0 - x1))); reflexivity.
Qed.

Lemma Qabs_gt_cases (d b : Q) :
  (0 <= b)%Q -> (b < Qabs d)%Q <-> (b < d)%Q \/ (d < - b)%Q.
Proof.
  intros Hb. split.
  - apply Qabs_case; intros Hd H; [left; exact H | right; lra].
  - intros [H|H].
    + apply Qlt_le_trans with (1 := H). apply Qle_Qabs.
    + apply Qlt_le_trans with (y := (- d)%Q); [lra|].
      rewrite <- Qabs_opp. apply Qle_Qabs.
Qed.

(** What the rounding leaves of a difference, within its relative error. *)
Lemma rounded_difference (d : Q) :
  rounds rnd ->
  ((50 < (1 - u) * d)%Q -> (50 < rnd d)%Q)
  /\ (((1 - u) * d < - (50))%Q -> (rnd d < - (50))%Q)
  /\ (((1 + u) * Qabs d <= 50)%Q -> (Qabs (rnd d) <= 50)%Q).
Proof.
  intros Hr. split; [|split].
  - intros H. assert (Hd : (0 <= d)%Q) by (unfold u in *; lra).
    destruct (rounds_nonneg rnd d Hr Hd) as [Hl _]. lra.
  - intros H. assert (Hd : (d <= 0)%Q) by (unfold u in *; lra).
    destruct (rounds_nonpos rnd d Hr Hd) as [_ Hu]. lra.
  - intros H.
    destruct (rounds_within rnd d (Qabs d) Hr (Qle_refl _)) as [Hl Hu].
    apply Qabs_Qle_condition. revert H Hl Hu.
    apply Qabs_case; intros Hd H Hl Hu; split; lra.
Qed.

(** C6, on the difference as the handler computes it. A touch from [x0] to
    [x1] on a carousel of [L >= 1] cards at index [i], [diff] being the
    rounded [x0 - x1]: when [diff > 50] the next transition is made, when
    [diff < -50] the prev transition, and when [|diff| <= 50] the index
    stays as it is; with two cards or more the index changes exactly when
    [|diff| > 50]. When the subtraction rounds within the relative error
    [u] of binary64, the exact difference decides but for a margin of that
    size: next when [(1 - u) (x0 - x1) > 50], prev when
    [(1 - u) (x0 - x1) < -50], nothing when [(1 + u) |x0 - x1| <= 50]. *)
Theorem swipe_threshold (s : slider) (x0 x1 : Q) :
  1 <= cardCount s -> 0 <= currentIndex s < cardCount s ->
  let L := cardCount s in
  let i := currentIndex s in
  let diff := rnd (x0 - x1) in
  let s' := run s [TouchStart x0; TouchEnd x1] in
  ((50 < diff)%Q -> currentIndex s' = (i + 1) mod L)
  /\ ((diff < - (50))%Q -> currentIndex s' = (i - 1) mod L)
  /\ ((Qabs diff <= 50)%Q -> currentIndex s' = i)
  /\ (2 <= L -> currentIndex s' <> i <-> (50 < Qabs diff)%Q)
  /\ (rounds rnd ->
      ((50 < (1 - u) * (x0 - x1))%Q -> currentIndex s' = (i + 1) mod L)
      /\ (((1 - u) * (x0 - x1) < - (50))%Q -> currentIndex s' = (i - 1) mod L)
      /\ (((1 + u) * Qabs (x0 - x1) <= 50)%Q -> currentIndex s' = i)).
Proof.
  intros HL Hi L i diff s'.
  assert (Hmain :
    ((50 < diff)%Q -> currentIndex s' = (i + 1) mod L)
    /\ ((diff < - (50))%Q -> currentIndex s' = (i - 1) mod L)
    /\ ((Qabs diff <= 50)%Q -> currentIndex s' = i)
    /\ (2 <= L -> currentIndex s' <> i <-> (50 < Qabs diff)%Q)).
  { subst L i s' diff. rewrite currentIndex_swipe.
    assert (H50 : (0 <= 50)%Q) by lra.
    pose proof (Qabs_gt_cases (rnd (x0 - x1)) 50 H50) as Habs.
    pose proof (goToSlide_next s HL Hi) as Hn.
    pose proof (goToSlide_prev s HL Hi) as Hp.
    destruct (Qltb 50 (Qabs (rnd (x0 - x1)))) eqn:Ea.
    - apply Qltb_lt in Ea.
      destruct (Qltb 0 (rnd (x0 - x1))) eqn:Ed.
      + apply Qltb_lt in Ed. split; [intros _; exact Hn|].
        split; [intros H; lra|]. split; [intros H; lra|].
        intros H2. split; [intros _; exact Ea|]. intros _.
        rewrite currentIndex_goToSlide. cbv zeta.
        destruct (Z.ltb_spec (currentIndex s + 1) 0); [lia|].
        destruct (Z.leb_spec (cardCount s) (currentIndex s + 1)); lia.
      + apply Qltb_ge in Ed. split; [intros H; lra|].
        split; [intros _; exact Hp|]. split; [intros H; lra|].
        intros H2. split; [intros _; exact Ea|]. intros _.
        rewrite currentIndex_goToSlide. cbv zeta.
        destruct (Z.ltb_spec (currentIndex s - 1) 0).
        * destruct (Z.leb_spec (cardCount s) (cardCount s - 1)); lia.
        * destruct (Z.leb_spec (cardCount s) (currentIndex s - 1)); lia.
    - apply Qltb_ge in Ea.
      split; [intros H; exfalso; apply (Qle_not_lt _ _ Ea), Habs; left; exact H|].
      split; [intros H; exfalso; apply (Qle_not_lt _ _ Ea), Habs; right; exact H|].
      split; [reflexivity|].
      intros _. split; [intros H; exfalso; apply H; reflexivity|].
      intros H. exfalso. exact (Qle_not_lt _ _ Ea H). }
  destruct Hmain as (Hnext & Hprev & Hstay & Hiff).
  repeat (split; [assumption|]).
  intros Hr. destruct (rounded_difference (x0 - x1) Hr) as (H1 & H2 & H3).
  fold diff in H1, H2, H3. auto.
Qed.

(** *** Autoplay timers *)

(** Every live timer is the one [autoPlayInterval] names. *)
Definition owned (s : slider) : Prop :=
  forall h, h ∈ intervals s -> autoPlayInterval s = Some h.

Lemma owned_live_timers (s : slider) : owned s -> (live_timers s <= 1)%nat.
Proof.
  unfold owned, live_timers. intros Ho.
  destruct (autoPlayInterval s) as [h0|] eqn:E.
  - transitivity (size ({[ h0 ]} : gset nat)); [|rewrite size_singleton; lia].
    apply subseteq_size. intros h Hh. apply Ho in Hh.
    apply elem_of_singleton. congruence.
  - replace (intervals s) with (∅ : gset nat); [rewrite size_empty; lia|].
    symmetry. apply leibniz_equiv. apply elem_of_equiv_empty.
    intros h Hh. apply Ho in Hh. discriminate.
Qed.

Lemma intervals_stopAutoPlay_owned (s : slider) :
  owned s -> intervals (stopAutoPlay s) = ∅.
Proof.
  unfold owned. intros Ho. cbn [stopAutoPlay intervals].
  apply leibniz_equiv. apply elem_of_equiv_empty. intros h.
  destruct (autoPlayInterval s) as [h0|] eqn:E.
  - rewrite elem_of_difference, elem_of_singleton.
    intros [Hh Hne]. apply Ho in Hh. congruence.
  - intros Hh. apply Ho in Hh. discriminate.
Qed.

Lemma owned_startAutoPlay (s : slider) :
  intervals s = ∅ -> owned (startAutoPlay s).
Proof.
  unfold owned. cbn [startAutoPlay intervals autoPlayInterval].
  intros -> h. rewrite elem_of_union, elem_of_singleton.
  intros [->|Hh]; [reflexivity|]. exfalso. exact (not_elem_of_empty _ Hh).
Qed.

Lemma owned_goToSlide (index : Z) (s : slider) : owned s -> owned (goToSlide index s).
Proof. unfold owned. cbn. auto. Qed.

Lemma owned_empty (s : slider) : intervals s = ∅ -> owned s.
Proof. unfold owned. intros -> h Hh. exfalso. exact (not_elem_of_empty _ Hh). Qed.

(** Stop, move, start: what the buttons and the dots do. *)
Lemma owned_restart (index : Z) (s : slider) :
  owned s -> owned (startAutoPlay (goToSlide index (stopAutoPlay s))).
Proof.
  intros Ho. apply owned_startAutoPlay. cbn [goToSlide intervals].
  apply intervals_stopAutoPlay_owned. exact Ho.
Qed.

Definition is_touchend (e : event) : bool :=
  match e with TouchEnd _ => true | _ => false end.

(** Every handler but that of [touchend] keeps the timers owned. *)
Lemma owned_handle (s : slider) (e : event) :
  is_touchend e = false -> owned s -> owned (handle s e).
Proof.
  intros He Ho. destruct e as [| |i|x|x|h]; cbn [handle]; try discriminate.
  - apply owned_restart. exact Ho.
  - apply owned_restart. exact Ho.
  - case_bool_decide; [apply owned_restart|]; exact Ho.
  - unfold touchstart. apply owned_empty.
    apply (intervals_stopAutoPlay_owned
             {| cardCount := cardCount s; currentIndex := currentIndex s;
                trackTransform := trackTransform s; dots := dots s;
                autoPlayInterval := autoPlayInterval s;
                intervals := intervals s; nextHandle := nextHandle s;
                startX := x; isDragging := true |}).
    exact Ho.
  - case_bool_decide; [apply owned_goToSlide|]; exact Ho.
Qed.

(** Without touches, one timer is live whatever is clicked. *)
Lemma buttons_keep_one_timer (n : Z) (ds : list bool) (es : list event) :
  forallb (fun e => negb (is_touchend e)) es = true ->
  (live_timers (run (startAutoPlay (fresh n ds)) es) <= 1)%nat.
Proof.
  intros Hes. apply owned_live_timers.
  assert (Ho : owned (startAutoPlay (fresh n ds)))
    by (apply owned_startAutoPlay; reflexivity).
  revert Ho Hes. generalize (startAutoPlay (fresh n ds)) as s.
  unfold run. induction es as [|e es IH]; intros s Ho Hes; [exact Ho|].
  cbn in Hes. apply andb_prop in Hes as [He Hes]. cbn [fold_left].
  apply IH; [|exact Hes]. apply owned_handle; [|exact Ho].
  destruct (is_touchend e); [discriminate|reflexivity].
Qed.

(** A touch that no other event interrupts keeps the timers owned. *)
Lemma owned_swipe (s : slider) (x0 x1 : Q) :
  owned s -> owned (run s [TouchStart x0; TouchEnd x1]).
Proof.
  intros Ho. cbn [run fold_left handle]. unfold touchend, touchstart.
  cbn [isDragging stopAutoPlay negb startX currentIndex].
  apply owned_startAutoPlay.
  pose proof (intervals_stopAutoPlay_owned s Ho) as He.
  destruct (Qltb 50 (Qabs (rnd (x0 - x1)))); exact He.
Qed.

(** Lifting the finger starts a timer and clears none, on either branch. *)
Lemma touchend_timers (x : Q) (s : slider) :
  isDragging s = true ->
  intervals (touchend x s) = {[ nextHandle s ]} ∪ intervals s
  /\ autoPlayInterval (touchend x s) = Some (nextHandle s).
Proof.
  intros Hd. unfold touchend. rewrite Hd. cbn [negb]. cbv zeta.
  destruct (Qltb 50 _); split; reflexivity.
Qed.

(** C7, at the failing input. A finger is put on the track, the next button
    is clicked before the finger is lifted, and the finger is lifted: the
    [touchend] handler starts a timer without clearing the one the click
    started, whose handle is overwritten, and two autoplay timers are live. *)
Theorem touchend_leaks_interval :
  let s := run three_cards [TouchStart 200; ClickNext; TouchEnd 200] in
  live_timers s = 2%nat
  /\ intervals s = {[ 2%nat; 3%nat ]}
  /\ autoPlayInterval s = Some 3%nat.
Proof.
  cbv zeta. cbn [run fold_left handle].
  match goal with
  | |- context [touchend 200 ?s0] =>
      destruct (touchend_timers 200 s0 eq_refl) as [Hi Ha]
  end.
  unfold live_timers. rewrite Hi, Ha.
  split; [vm_compute; reflexivity|]. split; [|reflexivity].
  vm_compute. reflexivity.
Qed.

End Gestures.

Lemma goToSlide_wraps_witness :
  currentIndex (goToSlide (2 + 1) (goToSlide 2 three_cards)) = 0
  /\ currentIndex (goToSlide (0 - 1) three_cards) = 2.
Proof.
  assert (Hlast : 1 <= 3 /\ 0 <= 2 < 3) by lia.
  assert (Hfirst : 1 <= 3 /\ 0 <= 0 < 3) by lia.
  split.
  - destruct (goToSlide_wraps Qred (goToSlide 2 three_cards) 1
                (proj1 Hlast) (proj2 Hlast)) as (_ & _ & H & _).
    apply H. reflexivity.
  - destruct (goToSlide_wraps Qred three_cards 1
                (proj1 Hfirst) (proj2 Hfirst)) as (_ & _ & _ & H & _).
    apply H. reflexivity.
Defined.

(** The scenario of the three cards, with exact subtraction: from index 0,
    a drag of 60 pixels to the left leads to index 1, one of 60 pixels to
    the right to index 2, and one of 50 pixels changes nothing. *)
Lemma swipe_threshold_witness :
  currentIndex (run Qred three_cards [TouchStart 200; TouchEnd 140]) = 1
  /\ currentIndex (run Qred three_cards [TouchStart 200; TouchEnd 260]) = 2
  /\ currentIndex (run Qred three_cards [TouchStart 200; TouchEnd 150]) = 0.
Proof.
  assert (H : 1 <= 3 /\ 0 <= 0 < 3) by lia.
  split; [|split].
  - destruct (swipe_threshold Qred three_cards 200 140 (proj1 H) (proj2 H))
      as (_ & _ & _ & _ & Hr).
    destruct (Hr rounds_Qred) as (Hnext & _).
    apply Hnext. vm_compute. reflexivity.
  - destruct (swipe_threshold Qred three_cards 200 260 (proj1 H) (proj2 H))
      as (_ & Hprev & _).
    apply Hprev. vm_compute. reflexivity.
  - destruct (swipe_threshold Qred three_cards 200 150 (proj1 H) (proj2 H))
      as (_ & _ & Hstay & _).
    apply Hstay. vm_compute. discriminate.
Defined.

(** *** The touch handlers on binary64 numbers

    The same handlers with the kernel's binary64 subtraction, on what they
    read and write of the closure. *)

Module Binary64.

Import PrimFloat SpecFloat FloatOps.

Record swipe := {
  cardCount : Z;
  currentIndex : Z;
  startX : float;
  isDragging : bool
}.

Definition goToSlide (index : Z) (s : swipe) : swipe :=
  let index := if index <? 0 then cardCount s - 1 else index in
  let index := if cardCount s <=? index then 0 else index in
  {| cardCount := cardCount s; currentIndex := index;
     startX := startX s; isDragging := isDragging s |}.

Definition touchstart (clientX : float) (s : swipe) : swipe :=
  {| cardCount := cardCount s; currentIndex := currentIndex s;
     startX := clientX; isDragging := true |}.

Definition touchend (clientX : float) (s : swipe) : swipe :=
  if negb (isDragging s) then s
  else
    let diff := sub (startX s) clientX in
    let s1 :=
      if ltb 50 (abs diff)
      then goToSlide (if ltb 0 diff then currentIndex s + 1
                      else currentIndex s - 1) s
      else s in
    {| cardCount := cardCount s1; currentIndex := currentIndex s1;
       startX := startX s1; isDragging := false |}.

(** The number a finite binary64 number stands for. *)
Definition to_Q (x : float) : Q :=
  match Prim2SF x with
  | S754_finite s m e =>
      (inject_Z (if s then Z.neg m else Z.pos m) * Qpower 2 e)%Q
  | _ => 0%Q
  end.

(** The binary64 numbers nearest to 50.1 and to 0.1. *)
Definition x_50_1 : float := 0x1.90ccccccccccdp+5%float.
Definition x_0_1 : float := 0x1.999999999999ap-4%float.

(** C6, where the exact difference does not decide. A finger put down at
    50.1 and lifted at 0.1 has moved by more than 50 pixels, but the
    subtraction rounds the difference to exactly 50 and the handler leaves
    the carousel of three cards at index 0. *)
Lemma swipe_above_50_ignored :
  (50 < to_Q x_50_1 - to_Q x_0_1)%Q
  /\ sub x_50_1 x_0_1 = 50%float
  /\ currentIndex
       (touchend x_0_1
          (touchstart x_50_1
             {| cardCount := 3; currentIndex := 0; startX := 0%float;
                isDragging := false |})) = 0.
Proof. vm_compute. repeat split; reflexivity. Qed.

End Binary64.


End Carousel.

(** ** Counter animation: [animateCounter] *)

Module Counter.

(** The element's text is the number it shows; [None] is the text of the
    markup, which the animation has not written yet. [timer] tells whether
    the interval timer is still live. *)
Record counter := {
  current : Q;
  textContent : option Z;
  timer : bool
}.

(** The text of a fun-fact counter: a number in the locale's format, and
    whether ['+'] follows it. *)
Record localized := {
  shown : Z;
  plus : bool
}.

Record funCounter := {
  funCurrent : Q;
  funText : option localized;
  funTimer : bool
}.

Section Animate.

(** The result of an arithmetic operation is the exact result, rounded. *)
Variable rnd : Q -> Q.

(** [const increment = target / steps], with [steps = 50]. *)
Definition increment (target : Z) : Q := rnd (inject_Z target / 50).

(** The state when [animateCounter] returns: [current = 0], timer set. *)
Definition animateCounter (target : Z) : counter :=
  {| current := 0; textContent := None; timer := true |}.

(** One firing of the interval callback. *)
Definition tick (target : Z) (c : counter) : counter :=
  let current := rnd (current c + increment target) in
  if Qle_bool (inject_Z target) current
  then {| current := current; textContent := Some target; timer := false |}
  else {| current := current; textContent := Some (Qfloor current); timer := true |}.

(** [n] periods of the interval: the callback fires while the timer is live. *)
Fixpoint run (target : Z) (n : nat) (c : counter) : counter :=
  match n with
  | O => c
  | S n => if timer c then run target n (tick target c) else c
  end.

(** The fun-fact counters, [animateFunCounter]: 60 steps, and the number
    shown through [toLocaleString], followed by ['+'] at the end. *)
Definition funTick (target : Z) (c : funCounter) : funCounter :=
  let increment := rnd (inject_Z target / 60) in
  let current := rnd (funCurrent c + increment) in
  if Qle_bool (inject_Z target) current
  then {| funCurrent := current;
          funText := Some {| shown := target; plus := true |};
          funTimer := false |}
  else {| funCurrent := current;
          funText := Some {| shown := Qfloor current; plus := false |};
          funTimer := true |}.

(** *** Properties *)

(** The fun-fact counter is stopped by the branch that writes the target
    followed by ['+']. *)
Lemma funTick_stopped (target : Z) (c : funCounter) :
  funTimer (funTick target c) = false ->
  funText (funTick target c) = Some {| shown := target; plus := true |}.
Proof. unfold funTick. destruct (Qle_bool _ _); [reflexivity|discriminate]. Qed.

Lemma current_tick (target : Z) (c : counter) :
  current (tick target c) = rnd (current c + increment target).
Proof. unfold tick. destruct (Qle_bool _ _); reflexivity. Qed.

Lemma timer_tick (target : Z) (c : counter) :
  timer (tick target c) = negb (Qle_bool (inject_Z target) (current (tick target c))).
Proof. unfold tick. destruct (Qle_bool _ _) eqn:E; cbn; rewrite E; reflexivity. Qed.

(** The timer is cleared by the branch that writes the target, and by no
    other. *)
Lemma tick_stopped (target : Z) (c : counter) :
  timer (tick target c) = false -> textContent (tick target c) = Some target.
Proof. unfold tick. destruct (Qle_bool _ _); [reflexivity|discriminate]. Qed.

Lemma run_stopped (target : Z) (n : nat) (c : counter) :
  timer c = false -> run target n c = c.
Proof. intros H. destruct n; cbn; [|rewrite H]; reflexivity. Qed.

Lemma run_S (target : Z) (n : nat) (c : counter) :
  timer c = true -> run target (S n) c = run target n (tick target c).
Proof. intros H. cbn. rewrite H. reflexivity. Qed.

(** Whenever the animation has stopped, the text is the target. *)
Lemma run_stopped_text (target : Z) (n : nat) (c : counter) :
  timer c = true ->
  timer (run target n c) = false -> textContent (run target n c) = Some target.
Proof.
  revert c. induction n as [|n IH]; intros c Hc; cbn; [congruence|].
  rewrite Hc. destruct (timer (tick target c)) eqn:E.
  - apply IH. exact E.
  - rewrite run_stopped by exact E. intros _. apply tick_stopped. exact E.
Qed.

(** From here on the arithmetic rounds as binary64 does. *)
Hypothesis rnd_error : rounds rnd.

Lemma fiftieth (x : Q) : (50 * (x / 50) == x)%Q.
Proof. field. Qed.

(** A positive target: each firing adds a 53rd of the target at least. *)
Lemma tick_progress (target : Z) (c : counter) :
  0 < target ->
  (0 <= current c)%Q -> (current c < inject_Z target)%Q ->
  (current c + inject_Z target * (1 # 53) <= current (tick target c))%Q.
Proof.
  intros Ht H0 Hlt. rewrite current_tick. unfold increment.
  assert (HT : (0 < inject_Z target)%Q)
    by (change 0%Q with (inject_Z 0); rewrite <- Zlt_Qlt; exact Ht).
  pose proof (fiftieth (inject_Z target)) as H50.
  set (a := (inject_Z target / 50)%Q) in *.
  assert (Ha : (0 <= a)%Q) by lra.
  destruct (rounds_nonneg rnd a rnd_error Ha) as [Hinc _].
  set (inc := rnd a) in *.
  assert (Hsum : (0 <= current c + inc)%Q) by (unfold u in *; lra).
  destruct (rounds_nonneg rnd _ rnd_error Hsum) as [Hcur _].
  unfold u in *. lra.
Qed.

Lemma nat_succ_Q (n : nat) :
  (inject_Z (Z.of_nat (S n)) == inject_Z (Z.of_nat n) + 1)%Q.
Proof.
  rewrite Nat2Z.inj_succ. unfold Z.succ. rewrite inject_Z_plus. reflexivity.
Qed.

Lemma run_reaches (target : Z) (n : nat) (c : counter) :
  0 < target ->
  timer c = true ->
  (0 <= current c)%Q -> (current c < inject_Z target)%Q ->
  (inject_Z target - current c
     <= inject_Z (Z.of_nat n) * (inject_Z target * (1 # 53)))%Q ->
  timer (run target n c) = false /\ textContent (run target n c) = Some target.
Proof.
  intros Ht. revert c. induction n as [|n IH]; intros c Hc H0 Hlt Hn.
  - exfalso. change (inject_Z (Z.of_nat 0)) with 0%Q in Hn. lra.
  - rewrite run_S by exact Hc.
    pose proof (tick_progress target c Ht H0 Hlt) as Hp.
    rewrite nat_succ_Q in Hn.
    destruct (timer (tick target c)) eqn:E.
    + apply IH; [exact E| lra | | lra].
      rewrite timer_tick in E. apply negb_true_iff in E.
      apply Qltb_lt. unfold Qltb. rewrite E. reflexivity.
    + rewrite run_stopped by exact E. split; [exact E|].
      apply tick_stopped. exact E.
Qed.

(** A target of zero or less: the first firing writes it. *)
Lemma tick_nonpos (target : Z) :
  target <= 0 ->
  timer (tick target (animateCounter target)) = false.
Proof.
  intros Ht. rewrite timer_tick, current_tick. apply negb_false_iff.
  apply Qle_bool_iff. unfold increment, animateCounter. cbn [current].
  assert (HT : (inject_Z target <= 0)%Q)
    by (change 0%Q with (inject_Z 0); rewrite <- Zle_Qle; exact Ht).
  pose proof (fiftieth (inject_Z target)) as H50.
  set (a := (inject_Z target / 50)%Q) in *.
  assert (Ha : (a <= 0)%Q) by lra.
  destruct (rounds_nonpos rnd a rnd_error Ha) as [Hinc Hinc'].
  set (inc := rnd a) in *.
  assert (Hsum : (0 + inc <= 0)%Q) by (unfold u in *; lra).
  destruct (rounds_nonpos rnd _ rnd_error Hsum) as [Hcur _].
  unfold u in *. lra.
Qed.

(** C3. Whatever the integer target, and however the additions and the
    division round (within the relative error of binary64), the animation
    stops within 53 firings of its timer, and once 53 periods have passed
    the timer is cleared and the text is the target itself; at no number of
    periods is the timer cleared with another text. *)
Theorem animateCounter_final_text (target : Z) (n : nat) :
  (53 <= n)%nat ->
  let c := run target n (animateCounter target) in
  timer c = false
  /\ textContent c = Some target
  /\ (forall k : nat,
        timer (run target k (animateCounter target)) = false ->
        textContent (run target k (animateCounter target)) = Some target).
Proof.
  intros Hn c. subst c.
  assert (Hfinal : timer (run target n (animateCounter target)) = false
                   /\ textContent (run target n (animateCounter target)) = Some target).
  { destruct (Z_lt_le_dec 0 target) as [Hpos|Hneg].
    - assert (HT : (0 < inject_Z target)%Q)
        by (change 0%Q with (inject_Z 0); rewrite <- Zlt_Qlt; exact Hpos).
      apply run_reaches; [exact Hpos|reflexivity|cbn; lra|cbn; lra|].
      cbn [animateCounter current].
      assert (HK : (53 <= inject_Z (Z.of_nat n))%Q).
      { change 53%Q with (inject_Z 53). rewrite <- Zle_Qle. lia. }
      assert (Hm : (0 <= (inject_Z (Z.of_nat n) - 53) * inject_Z target)%Q).
      { apply Qmult_le_0_compat; lra. }
      lra.
    - destruct n as [|n]; [lia|].
      rewrite run_S by reflexivity.
      pose proof (tick_nonpos target Hneg) as E.
      rewrite run_stopped by exact E. split; [exact E|].
      apply tick_stopped. exact E. }
  destruct Hfinal as [Htimer Htext].
  split; [exact Htimer|]. split; [exact Htext|].
  intros k. apply run_stopped_text. reflexivity.
Qed.

End Animate.

Lemma animateCounter_final_text_witness :
  textContent (run chop 7 53 (animateCounter 7)) = Some 7
  /\ timer (run chop 7 53 (animateCounter 7)) = false.
Proof.
  assert (Hn : (53 <= 53)%nat) by lia.
  destruct (animateCounter_final_text chop rounds_chop 7 53 Hn) as (Ht & Hx & _).
  split; [exact Hx | exact Ht].
Defined.

(** *** The callback on binary64 numbers

    The same callback with the kernel's binary64 arithmetic in place of
    rounded rationals, to run it on the numbers the browser computes with. *)

Module Binary64.

Import PrimFloat SpecFloat FloatOps.

Record counter := {
  current : float;
  textContent : option Z;
  timer : bool
}.

(** An integer as a number; exact below [2^53]. *)
Definition of_Z (n : Z) : float :=
  match n with
  | Z0 => zero
  | Zpos p => SF2Prim (S754_finite false p 0)
  | Zneg p => SF2Prim (S754_finite true p 0)
  end.

(** [Math.floor], when its result is a number to show. *)
Definition floor (x : float) : option Z :=
  match Prim2SF x with
  | S754_zero _ => Some 0
  | S754_finite s m e => Some (Z.shiftl (if s then Zneg m else Zpos m) e)
  | S754_infinity _ | S754_nan => None
  end.

Definition animateCounter (target : Z) : counter :=
  {| current := zero; textContent := None; timer := true |}.

Definition tick (target : Z) (c : counter) : counter :=
  let increment := div (of_Z target) (of_Z 50) in
  let current := add (current c) increment in
  if leb (of_Z target) current
  then {| current := current; textContent := Some target; timer := false |}
  else {| current := current; textContent := floor current; timer := true |}.

Fixpoint run (target : Z) (n : nat) (c : counter) : counter :=
  match n with
  | O => c
  | S n => if timer c then run target n (tick target c) else c
  end.

(** Fifty additions of [7/50] stay below 7: after the 50th firing the text
    is 6 and the timer is live; the 51st firing writes 7 and clears it. *)
Example animateCounter_7 :
  textContent (run 7 50 (animateCounter 7)) = Some 6
  /\ timer (run 7 50 (animateCounter 7)) = true
  /\ textContent (run 7 51 (animateCounter 7)) = Some 7
  /\ timer (run 7 51 (animateCounter 7)) = false.
Proof. vm_compute. repeat split; reflexivity. Qed.

(** Fifty additions of [100/50] are exact: the 50th firing writes 100. *)
Example animateCounter_100 :
  textContent (run 100 49 (animateCounter 100)) = Some 98
  /\ textContent (run 100 50 (animateCounter 100)) = Some 100
  /\ timer (run 100 50 (animateCounter 100)) = false.
Proof. vm_compute. repeat split; reflexivity. Qed.

End Binary64.

End Counter.

(** ** Typing effect: [initTypingEffect] *)

Module Typing.

(** The closure variables of [type] and the text of [#typing-text]. *)
Record typing := {
  textIndex : nat;
  charIndex : Z;
  isDeleting : bool;
  textContent : string
}.

(** What an observer sees after a call of [type]: the text shown, and the
    delay in milliseconds until the next call. *)
Definition frame : Type := string * Z.

(** [s.substring(0, k)]; a negative [k] counts as zero, one beyond the end
    as the length. *)
Definition prefix (k : Z) (s : string) : string := String.substring 0 (Z.to_nat k) s.

Section Phrases.

(** [const texts = [...]] *)
Variable texts : list string.

(** One call of [type]; [None] is the [TypeError] of [texts[textIndex]]
    being [undefined]. The result carries the delay passed to [setTimeout]. *)
Definition type (s : typing) : option (typing * Z) :=
  match nth_error texts (textIndex s) with
  | None => None
  | Some currentText =>
      let charIndex := if isDeleting s then charIndex s - 1 else charIndex s + 1 in
      let text := prefix charIndex currentText in
      let speed := if isDeleting s then 50 else 100 in
      if negb (isDeleting s) && (charIndex =? Z.of_nat (String.length currentText))
      then Some ({| textIndex := textIndex s; charIndex := charIndex;
                    isDeleting := true; textContent := text |}, 2000)
      else if isDeleting s && (charIndex =? 0)
      then Some ({| textIndex := (textIndex s + 1) mod length texts;
                    charIndex := charIndex;
                    isDeleting := false; textContent := text |}, 500)
      else Some ({| textIndex := textIndex s; charIndex := charIndex;
                    isDeleting := isDeleting s; textContent := text |}, speed)
  end.

(** [n] calls of [type], each scheduled by the one before: the frames seen
    and the state reached. *)
Fixpoint run (n : nat) (s : typing) : option (list frame * typing) :=
  match n with
  | O => Some ([], s)
  | S n =>
      match type s with
      | None => None
      | Some (s', speed) =>
          match run n s' with
          | None => None
          | Some (fs, s'') => Some ((textContent s', speed) :: fs, s'')
          end
      end
  end.

(** The cycle of one phrase, as the specification words it: a character
    more every 100 ms until the phrase is whole, a pause of 2000 ms, a
    character less every 50 ms until nothing is left, a pause of 500 ms. *)
Definition typed (p : string) : list frame :=
  map (fun k => (prefix (Z.of_nat k) p, 100)) (seq 1 (String.length p - 1))
  ++ [(p, 2000)].

Definition deleted (p : string) : list frame :=
  map (fun k => (prefix (Z.of_nat k) p, 50)) (rev (seq 1 (String.length p - 1)))
  ++ [(EmptyString, 500)].

Definition phrase_cycle (p : string) : list frame := typed p ++ deleted p.

(** The first [m] phrases of the list repeated cyclically, from phrase [i]. *)
Definition cyclic (i m : nat) : list string :=
  map (fun j => nth ((i + j) mod length texts) texts EmptyString) (seq 0 m).

(** The number of calls that [m] cycles take. *)
Definition calls (i m : nat) : nat :=
  list_sum (map (fun p => 2 * String.length p)%nat (cyclic i m)).

End Phrases.

(** The frames at which a phrase stands fully typed: those followed by the
    pause of 2000 ms. *)
Definition fully_typed (fs : list frame) : list string :=
  map fst (List.filter (fun f : frame => snd f =? 2000) fs).

(** The phrases of the script. *)
Definition texts : list string :=
  ["App Developer"; "Flutter Expert"; "Kotlin Enthusiast"; "Web Developer";
   "UI/UX Designer"].

(** [initTypingEffect], up to its first call of [type]; [None] when the
    element is missing and the guard returns. *)
Definition initTypingEffect (typingElement : option string) : option typing :=
  match typingElement with
  | None => None
  | Some text => Some {| textIndex := 0; charIndex := 0;
                         isDeleting := false; textContent := text |}
  end.

(** *** Properties *)

Lemma prefix_whole (p : string) : prefix (Z.of_nat (String.length p)) p = p.
Proof.
  unfold prefix. rewrite Nat2Z.id.
  induction p as [|a p IH]; [reflexivity|]. cbn. rewrite IH. reflexivity.
Qed.

Lemma prefix_0 (p : string) : prefix 0 p = EmptyString.
Proof. destruct p; reflexivity. Qed.

Lemma filter_pause (g : nat -> string) (d : Z) (ks : list nat) :
  d <> 2000 ->
  List.filter (fun f : frame => snd f =? 2000) (map (fun k => (g k, d)) ks) = [].
Proof.
  intros Hd. induction ks as [|k ks IH]; [reflexivity|].
  cbn. destruct (Z.eqb_spec d 2000); [contradiction|exact IH].
Qed.

Lemma fully_typed_app (fs gs : list frame) :
  fully_typed (fs ++ gs) = fully_typed fs ++ fully_typed gs.
Proof. unfold fully_typed. rewrite List.filter_app, map_app. reflexivity. Qed.

(** In the cycle of a phrase exactly one frame shows it fully typed. *)
Lemma fully_typed_phrase_cycle (p : string) : fully_typed (phrase_cycle p) = [p].
Proof.
  unfold phrase_cycle, typed, deleted. rewrite !fully_typed_app.
  unfold fully_typed. rewrite !filter_pause by discriminate. reflexivity.
Qed.

Lemma fully_typed_cycles (ps : list string) :
  fully_typed (flat_map phrase_cycle ps) = ps.
Proof.
  induction ps as [|p ps IH]; [reflexivity|].
  cbn [flat_map]. rewrite fully_typed_app, fully_typed_phrase_cycle, IH.
  reflexivity.
Qed.

Section Cycles.

Variable texts : list string.

Lemma run_app (a b : nat) (s sa sb : typing) (fa fb : list frame) :
  run texts a s = Some (fa, sa) ->
  run texts b sa = Some (fb, sb) ->
  run texts (a + b) s = Some (fa ++ fb, sb).
Proof.
  revert s fa. induction a as [|a IH]; intros s fa Ha Hb.
  - cbn in Ha. injection Ha as <- <-. exact Hb.
  - cbn in Ha |- *. destruct (type texts s) as [[s' speed]|]; [|discriminate].
    destruct (run texts a s') as [[fs s'']|] eqn:E; [|discriminate].
    injection Ha as <- <-. rewrite (IH s' fs E Hb). reflexivity.
Qed.

(** A shorter run sees the first frames of a longer one. *)
Lemma run_take (a b : nat) (s sb : typing) (fs : list frame) :
  (a <= b)%nat ->
  run texts b s = Some (fs, sb) ->
  exists sa, run texts a s = Some (take a fs, sa).
Proof.
  revert b s fs. induction a as [|a IH]; intros b s fs Hab Hb.
  - exists s. rewrite take_0. reflexivity.
  - destruct b as [|b]; [lia|]. cbn in Hb |- *.
    destruct (type texts s) as [[s' speed]|]; [|discriminate].
    destruct (run texts b s') as [[gs s'']|] eqn:E; [|discriminate].
    injection Hb as <- <-.
    destruct (IH b s' gs ltac:(lia) E) as [sa Ha].
    exists sa. rewrite Ha. reflexivity.
Qed.

(** Typing: from [c] characters shown to the whole phrase. *)
Lemma typing_phase (d c i : nat) (p t : string) :
  nth_error texts i = Some p ->
  (c + S d = String.length p)%nat ->
  run texts (S d)
    {| textIndex := i; charIndex := Z.of_nat c; isDeleting := false;
       textContent := t |} =
  Some (map (fun k => (prefix (Z.of_nat k) p, 100)) (seq (S c) d) ++ [(p, 2000)],
        {| textIndex := i; charIndex := Z.of_nat (String.length p);
           isDeleting := true; textContent := p |}).
Proof.
  intros Hp. revert c t. induction d as [|d IH]; intros c t Hc.
  - cbn [run]. unfold type. cbn [textIndex isDeleting charIndex negb andb].
    rewrite Hp. replace (Z.of_nat c + 1) with (Z.of_nat (String.length p)) by lia.
    rewrite Z.eqb_refl, prefix_whole. reflexivity.
  - change (run texts (S (S d)) ?s) with
      (match type texts s with
       | None => None
       | Some (s', speed) =>
           match run texts (S d) s' with
           | None => None
           | Some (fs, s'') => Some ((textContent s', speed) :: fs, s'')
           end
       end).
    unfold type at 1. cbn [textIndex isDeleting charIndex negb andb].
    rewrite Hp. replace (Z.of_nat c + 1) with (Z.of_nat (S c)) by lia.
    destruct (Z.eqb_spec (Z.of_nat (S c)) (Z.of_nat (String.length p))); [lia|].
    rewrite (IH (S c)) by lia. reflexivity.
Qed.

(** Deleting: from [S d] characters shown to none, then on to the next
    phrase. *)
Lemma deleting_phase (d i : nat) (p t : string) :
  nth_error texts i = Some p ->
  run texts (S d)
    {| textIndex := i; charIndex := Z.of_nat (S d); isDeleting := true;
       textContent := t |} =
  Some (map (fun k => (prefix (Z.of_nat k) p, 50)) (rev (seq 1 d))
          ++ [(EmptyString, 500)],
        {| textIndex := (i + 1) mod length texts; charIndex := 0;
           isDeleting := false; textContent := EmptyString |}).
Proof.
  intros Hp. revert t. induction d as [|d IH]; intros t.
  - cbn [run]. unfold type. cbn [textIndex isDeleting charIndex negb andb].
    rewrite Hp. change (Z.of_nat 1 - 1) with 0. rewrite prefix_0. reflexivity.
  - change (run texts (S (S d)) ?s) with
      (match type texts s with
       | None => None
       | Some (s', speed) =>
           match run texts (S d) s' with
           | None => None
           | Some (fs, s'') => Some ((textContent s', speed) :: fs, s'')
           end
       end).
    unfold type at 1. cbn [textIndex isDeleting charIndex negb andb].
    rewrite Hp. replace (Z.of_nat (S (S d)) - 1) with (Z.of_nat (S d)) by lia.
    destruct (Z.eqb_spec (Z.of_nat (S d)) 0); [lia|].
    rewrite IH. rewrite seq_S, rev_app_distr. reflexivity.
Qed.

(** The whole cycle of a phrase that is not empty. *)
Lemma run_phrase_cycle (i : nat) (p t : string) :
  nth_error texts i = Some p ->
  p <> EmptyString ->
  run texts (2 * String.length p)
    {| textIndex := i; charIndex := 0; isDeleting := false; textContent := t |} =
  Some (phrase_cycle p,
        {| textIndex := (i + 1) mod length texts; charIndex := 0;
           isDeleting := false; textContent := EmptyString |}).
Proof.
  intros Hp Hne.
  assert (Hlen : exists d, String.length p = S d)
    by (destruct p; [contradiction|eexists; reflexivity]).
  destruct Hlen as [d Hd].
  replace (2 * String.length p)%nat with (S d + S d)%nat by lia.
  assert (Hc : (0 + S d = String.length p)%nat) by lia.
  pose proof (typing_phase d 0 i p t Hp Hc) as Ht.
  change (Z.of_nat 0) with 0 in Ht.
  pose proof (deleting_phase d i p p Hp) as Hdel.
  rewrite <- Hd in Hdel at 2.
  rewrite (run_app _ _ _ _ _ _ _ Ht Hdel).
  unfold phrase_cycle, typed, deleted. rewrite Hd.
  replace (S d - 1)%nat with d by lia. reflexivity.
Qed.

Hypothesis phrases_nonempty : Forall (fun p => p <> EmptyString) texts.
Hypothesis phrases_some : texts <> [].

Lemma cyclic_S (i m : nat) :
  cyclic texts i (S m) =
  nth (i mod length texts) texts EmptyString :: cyclic texts (S i) m.
Proof.
  unfold cyclic. cbn [seq map]. rewrite Nat.add_0_r. f_equal.
  rewrite <- seq_shift, map_map. apply map_ext. intros j.
  replace (i + S j)%nat with (S i + j)%nat by lia. reflexivity.
Qed.

Lemma nth_error_cyclic (i : nat) :
  nth_error texts (i mod length texts) =
  Some (nth (i mod length texts) texts EmptyString)
  /\ nth (i mod length texts) texts EmptyString <> EmptyString.
Proof.
  assert (Hlt : (i mod length texts < length texts)%nat).
  { apply Nat.mod_upper_bound. destruct texts; [contradiction|discriminate]. }
  split.
  - apply nth_error_nth'. exact Hlt.
  - rewrite List.Forall_forall in phrases_nonempty. apply phrases_nonempty.
    apply nth_In. exact Hlt.
Qed.

(** [m] cycles in a row, from the start of phrase [i]. *)
Lemma run_cycles (m i : nat) (t : string) :
  run texts (calls texts i m)
    {| textIndex := i mod length texts; charIndex := 0; isDeleting := false;
       textContent := t |} =
  Some (flat_map phrase_cycle (cyclic texts i m),
        {| textIndex := (i + m) mod length texts; charIndex := 0;
           isDeleting := false;
           textContent := match m with O => t | S _ => EmptyString end |}).
Proof.
  revert i t. induction m as [|m IH]; intros i t.
  - cbn. rewrite Nat.add_0_r. reflexivity.
  - unfold calls. rewrite cyclic_S. cbn [map list_sum flat_map].
    destruct (nth_error_cyclic i) as [Hp Hne].
    pose proof (run_phrase_cycle _ _ t Hp Hne) as Hfirst.
    rewrite Nat.Div0.add_mod_idemp_l in Hfirst.
    replace (i + 1)%nat with (S i) in Hfirst by lia.
    pose proof (IH (S i) EmptyString) as Hrest.
    fold (calls texts (S i) m).
    replace (S i + m)%nat with (i + S m)%nat in Hrest by lia.
    etransitivity; [exact (run_app _ _ _ _ _ _ _ Hfirst Hrest)|].
    destruct m; reflexivity.
Qed.

(** Every cycle takes two calls at least. *)
Lemma calls_ge (m i : nat) : (2 * m <= calls texts i m)%nat.
Proof.
  revert i. induction m as [|m IH]; intros i; [cbn; lia|].
  unfold calls. rewrite cyclic_S. cbn [map].
  specialize (IH (S i)).
  destruct (nth_error_cyclic i) as [_ Hne].
  assert (Hlen : (1 <= String.length (nth (i mod length texts) texts EmptyString))%nat).
  { destruct (nth (i mod length texts) texts EmptyString); [contradiction|].
    cbn. lia. }
  change (list_sum (?a :: ?l)) with (a + list_sum l)%nat.
  fold (calls texts (S i) m). lia.
Qed.

End Cycles.

Lemma texts_nonempty : Forall (fun p => p <> EmptyString) texts.
Proof. unfold texts. repeat constructor; discriminate. Qed.

(** C4. From the set-up on, [m] cycles of the widget show, call after
    call, the cycle of each of the first [m] phrases of [texts] repeated
    cyclically: the phrase typed character by character, whole at its last
    frame, then deleted character by character down to the empty string.
    The frames at which a phrase stands fully typed are these [m] phrases in
    order, the widget is then at the start of phrase [m mod 5], and a run of
    any number of calls raises no error and sees the first frames of that
    sequence. *)
Theorem typing_cycles_through_texts (text0 : string) (m : nat) :
  let s0 := {| textIndex := 0; charIndex := 0; isDeleting := false;
               textContent := text0 |} in
  let fs := flat_map phrase_cycle (cyclic texts 0 m) in
  initTypingEffect (Some text0) = Some s0
  /\ (exists s, run texts (calls texts 0 m) s0 = Some (fs, s)
               /\ textIndex s = (m mod 5)%nat
               /\ charIndex s = 0
               /\ isDeleting s = false)
  /\ fully_typed fs = cyclic texts 0 m
  /\ (forall n, (n <= 2 * m)%nat ->
        exists s, run texts n s0 = Some (take n fs, s)).
Proof.
  intros s0 fs.
  assert (Hsome : texts <> []) by discriminate.
  pose proof (run_cycles texts texts_nonempty Hsome m 0 text0) as Hrun.
  change (0 mod length texts)%nat with 0%nat in Hrun.
  split; [reflexivity|]. split; [|split].
  - eexists. split; [exact Hrun|]. repeat split.
  - apply fully_typed_cycles.
  - intros n Hn. eapply (run_take texts n (calls texts 0 m) s0); [|exact Hrun].
    pose proof (calls_ge texts texts_nonempty Hsome m 0). lia.
Qed.

Lemma typing_cycles_through_texts_witness :
  exists s,
    run texts 3 {| textIndex := 0; charIndex := 0; isDeleting := false;
                   textContent := "" |} =
    Some ([("A", 100); ("Ap", 100); ("App", 100)], s).
Proof.
  destruct (typing_cycles_through_texts "" 2) as (_ & _ & _ & H).
  apply (H 3%nat). lia.
Defined.

End Typing.

(** ** Theme toggle: [initThemeToggle] *)

Module Theme.

(** The class list of [#theme-icon], as far as the script is concerned. *)
Record iconClasses := {
  fa_moon : bool;
  fa_sun : bool
}.

(** The document as the server sends it: what every load of the page starts
    from. A missing element is [None]. *)
Record markup := {
  themeToggle : option unit;
  themeIcon : option iconClasses;
  bodyLightTheme : bool          (* does [body] carry ['light-theme']? *)
}.

(** The loaded page and the one persisted key, ['portfolio-theme']. *)
Record page := {
  lightTheme : bool;             (* [body.classList.contains('light-theme')] *)
  icon : option iconClasses;
  listening : bool;              (* is the click listener registered? *)
  savedTheme : option string     (* [localStorage.getItem('portfolio-theme')] *)
}.

(** [icon.classList.replace('fa-moon', 'fa-sun')]: nothing happens when the
    old token is absent. *)
Definition moon_to_sun (c : iconClasses) : iconClasses :=
  if fa_moon c then {| fa_moon := false; fa_sun := true |} else c.

(** [icon.classList.replace('fa-sun', 'fa-moon')] *)
Definition sun_to_moon (c : iconClasses) : iconClasses :=
  if fa_sun c then {| fa_moon := true; fa_sun := false |} else c.

(** A load of the page with [stored] in local storage: the document is
    built from the markup and [initThemeToggle] runs. *)
Definition initThemeToggle (m : markup) (stored : option string) : page :=
  match themeToggle m, themeIcon m with
  | Some _, Some c =>
      if bool_decide (stored = Some "light")
      then {| lightTheme := true; icon := Some (moon_to_sun c);
              listening := true; savedTheme := stored |}
      else {| lightTheme := bodyLightTheme m; icon := Some c;
              listening := true; savedTheme := stored |}
  | _, _ =>
      {| lightTheme := bodyLightTheme m; icon := themeIcon m;
         listening := false; savedTheme := stored |}
  end.

(** A click on the toggle. *)
Definition click (p : page) : page :=
  if listening p then
    let isLight := negb (lightTheme p) in
    if isLight
    then {| lightTheme := isLight; icon := moon_to_sun <$> icon p;
            listening := true; savedTheme := Some "light" |}
    else {| lightTheme := isLight; icon := sun_to_moon <$> icon p;
            listening := true; savedTheme := Some "dark" |}
  else p.

(** Leaving the page and loading it again: only the persisted key stays. *)
Definition reload (m : markup) (p : page) : page :=
  initThemeToggle m (savedTheme p).

(** *** Properties *)

Lemma listening_init (m : markup) (stored : option string) :
  is_Some (themeToggle m) -> is_Some (themeIcon m) ->
  listening (initThemeToggle m stored) = true.
Proof.
  intros [[] Ht] [c Hc]. unfold initThemeToggle. rewrite Ht, Hc.
  case_bool_decide; reflexivity.
Qed.

Lemma click_click_lightTheme (p : page) :
  lightTheme (click (click p)) = lightTheme p.
Proof.
  unfold click. destruct (listening p) eqn:El; [|rewrite El; reflexivity].
  destruct (lightTheme p); cbn; reflexivity.
Qed.

Lemma click_click_savedTheme (p : page) :
  listening p = true ->
  savedTheme (click (click p)) =
  Some (if lightTheme p then "light" else "dark").
Proof.
  intros El. unfold click. rewrite El. destruct (lightTheme p); reflexivity.
Qed.

(** A page loaded dark has a markup without ['light-theme']. *)
Lemma init_dark (m : markup) (stored : option string) :
  lightTheme (initThemeToggle m stored) = false -> bodyLightTheme m = false.
Proof.
  unfold initThemeToggle.
  destruct (themeToggle m), (themeIcon m); try (intros E; exact E).
  destruct (bool_decide (stored = Some "light")); [discriminate|].
  intros E; exact E.
Qed.

(** C5. With the toggle and its icon in the document, load the page with
    any persisted value, click the toggle twice and load the page again:
    the body carries ['light-theme'] exactly when it did after the first
    load, before the second load as well as after it. When the persisted
    value was ["light"] or ["dark"] and the markup's body carries no
    ['light-theme'] of its own, the persisted value is the original one
    after the two clicks, and the page after the second load is the page
    after the first. *)
Theorem double_toggle_reload (m : markup) (stored : option string) :
  is_Some (themeToggle m) -> is_Some (themeIcon m) ->
  let p0 := initThemeToggle m stored in
  let p2 := click (click p0) in
  lightTheme p2 = lightTheme p0
  /\ lightTheme (reload m p2) = lightTheme p0
  /\ (bodyLightTheme m = false ->
      stored = Some "light" \/ stored = Some "dark" ->
      savedTheme p2 = stored /\ reload m p2 = p0).
Proof.
  intros Ht Hi p0 p2. subst p2.
  pose proof (listening_init m stored Ht Hi) as El. fold p0 in El.
  pose proof (click_click_savedTheme p0 El) as Hs.
  split; [apply click_click_lightTheme|]. split.
  - unfold reload. rewrite Hs.
    destruct (lightTheme p0) eqn:E.
    + unfold initThemeToggle. destruct Ht as [[] ->], Hi as [c ->].
      reflexivity.
    + apply init_dark in E.
      unfold initThemeToggle. destruct Ht as [[] ->], Hi as [c ->].
      rewrite bool_decide_eq_false_2 by discriminate. exact E.
  - intros Hm Hstored.
    assert (Hk : savedTheme (click (click p0)) = stored).
    { rewrite Hs. subst p0. unfold initThemeToggle.
      destruct Ht as [[] ->], Hi as [c ->].
      destruct Hstored as [-> | ->]; cbn; [reflexivity|].
      rewrite Hm. reflexivity. }
    split; [exact Hk|]. unfold reload. rewrite Hk. reflexivity.
Qed.

(** The page of the portfolio: a toggle, a moon icon, a dark body. *)
Definition dark_markup : markup :=
  {| themeToggle := Some tt;
     themeIcon := Some {| fa_moon := true; fa_sun := false |};
     bodyLightTheme := false |}.

Lemma double_toggle_reload_witness :
  (savedTheme (click (click (initThemeToggle dark_markup (Some "light"))))
     = Some "light"
   /\ reload dark_markup (click (click (initThemeToggle dark_markup (Some "light"))))
      = initThemeToggle dark_markup (Some "light"))
  /\ (savedTheme (click (click (initThemeToggle dark_markup (Some "dark"))))
        = Some "dark"
      /\ reload dark_markup (click (click (initThemeToggle dark_markup (Some "dark"))))
         = initThemeToggle dark_markup (Some "dark")).
Proof.
  assert (Ht : is_Some (themeToggle dark_markup)) by (eexists; reflexivity).
  assert (Hi : is_Some (themeIcon dark_markup)) by (eexists; reflexivity).
  split.
  - destruct (double_toggle_reload dark_markup (Some "light") Ht Hi) as (_ & _ & H).
    apply H; [reflexivity|left; reflexivity].
  - destruct (double_toggle_reload dark_markup (Some "dark") Ht Hi) as (_ & _ & H).
    apply H; [reflexivity|right; reflexivity].
Defined.

End Theme.

(** ** Cursor easing: [updateAll] *)

Module Cursor.

(** The inline position of a cursor element; unset until first written. *)
Record element := {
  left : option Q;
  top : option Q
}.

(** The pointer fields of [State], the [cursorActive] flag and the two
    cursor elements of [DOM] (a missing one is [None]). *)
Record cursor := {
  mouseX : Q;
  mouseY : Q;
  cursorX : Q;
  cursorY : Q;
  cursorActive : bool;
  customCursor : option element;
  cursorGlow : option element
}.

Definition place (x y : Q) (e : element) : element :=
  {| left := Some x; top := Some y |}.

Section Easing.

(** The arithmetic: every result is rounded by [rnd], and [lerp] is the
    number that the literal [0.15] denotes. *)
Variable rnd : Q -> Q.
Variable lerp : Q.

(** One frame. The boolean tells whether [requestAnimationFrame(updateAll)]
    was called, that is whether another frame follows. *)
Definition updateAll (s : cursor) : cursor * bool :=
  if negb (cursorActive s) then (s, false)
  else
    let cursorX := rnd (cursorX s + rnd (rnd (mouseX s - cursorX s) * lerp)) in
    let cursorY := rnd (cursorY s + rnd (rnd (mouseY s - cursorY s) * lerp)) in
    let dx := rnd (mouseX s - cursorX) in
    let dy := rnd (mouseY s - cursorY) in
    let close := Qltb (Qabs dx) (1 # 2) && Qltb (Qabs dy) (1 # 2) in
    ({| mouseX := mouseX s;
        mouseY := mouseY s;
        cursorX := cursorX;
        cursorY := cursorY;
        cursorActive := negb close;
        customCursor := place cursorX cursorY <$> customCursor s;
        cursorGlow := place cursorX cursorY <$> cursorGlow s |},
     negb close).

(** The frames that follow one another while the pointer rests: [Some] of
    the state in which no further frame is requested, [None] when [fuel]
    frames did not get that far. *)
Fixpoint loop (fuel : nat) (s : cursor) : option cursor :=
  match fuel with
  | O => None
  | S fuel =>
      let (s', again) := updateAll s in
      if again then loop fuel s' else Some s'
  end.

End Easing.

(** The [mousemove] listener; the boolean tells whether it requested a
    frame. *)
Definition mousemove (clientX clientY : Q) (s : cursor) : cursor * bool :=
  ({| mouseX := clientX;
      mouseY := clientY;
      cursorX := cursorX s;
      cursorY := cursorY s;
      cursorActive := true;
      customCursor := customCursor s;
      cursorGlow := cursorGlow s |},
   negb (cursorActive s)).

(** The number that the literal [0.15] denotes: the binary64 number nearest
    to 0.15, [0x1.3333333333333p-3]. *)
Definition lerp_binary64 : Q := 5404319552844595 # 36028797018963968.

(** How far the eased position is from the pointer, on each axis. *)
Definition dx (s : cursor) : Q := Qabs (mouseX s - cursorX s).
Definition dy (s : cursor) : Q := Qabs (mouseY s - cursorY s).

(** A number of frames that is enough, from the distance to go. *)
Definition frames_needed (s : cursor) : nat :=
  S (Z.to_nat (Qceiling (13 * (dx s + dy s)))).

(** *** Properties that do not depend on the arithmetic *)

Section Loop.

Variable rnd : Q -> Q.
Variable lerp : Q.

Lemma loop_S (fuel : nat) (s : cursor) :
  loop rnd lerp (S fuel) s =
  if snd (updateAll rnd lerp s)
  then loop rnd lerp fuel (fst (updateAll rnd lerp s))
  else Some (fst (updateAll rnd lerp s)).
Proof. cbn [loop]. destruct (updateAll rnd lerp s) as [s' again]. reflexivity. Qed.

(** More fuel does not change where the loop stops. *)
Lemma loop_mono (f f' : nat) (s s' : cursor) :
  (f <= f')%nat -> loop rnd lerp f s = Some s' -> loop rnd lerp f' s = Some s'.
Proof.
  revert f' s. induction f as [|f IH]; intros f' s Hle H; [discriminate|].
  destruct f' as [|f']; [lia|]. rewrite loop_S in H |- *.
  destruct (snd (updateAll rnd lerp s)); [|exact H].
  apply IH; [lia|exact H].
Qed.

(** What a frame does while the loop is active. *)
Lemma updateAll_active (s : cursor) :
  cursorActive s = true ->
  let s' := fst (updateAll rnd lerp s) in
  let again := snd (updateAll rnd lerp s) in
  mouseX s' = mouseX s /\ mouseY s' = mouseY s
  /\ cursorX s' = rnd (cursorX s + rnd (rnd (mouseX s - cursorX s) * lerp))
  /\ cursorY s' = rnd (cursorY s + rnd (rnd (mouseY s - cursorY s) * lerp))
  /\ cursorActive s' = again
  /\ (again = false <->
      (Qabs (rnd (mouseX s' - cursorX s')) < 1 # 2)%Q
      /\ (Qabs (rnd (mouseY s' - cursorY s')) < 1 # 2)%Q).
Proof.
  intros Ha. unfold updateAll. rewrite Ha. cbn [negb fst snd].
  cbn [mouseX mouseY cursorX cursorY cursorActive].
  repeat (split; [reflexivity|]).
  rewrite negb_false_iff, andb_true_iff, !Qltb_lt. reflexivity.
Qed.

(** The loop has stopped in [s'], which passes the test of closeness. *)
Definition stopped_close (s s' : cursor) : Prop :=
  cursorActive s' = false
  /\ snd (updateAll rnd lerp s') = false
  /\ mouseX s' = mouseX s /\ mouseY s' = mouseY s
  /\ (Qabs (rnd (mouseX s' - cursorX s')) < 1 # 2)%Q
  /\ (Qabs (rnd (mouseY s' - cursorY s')) < 1 # 2)%Q.

Lemma stopped_close_now (s : cursor) :
  cursorActive s = true ->
  snd (updateAll rnd lerp s) = false ->
  stopped_close s (fst (updateAll rnd lerp s)).
Proof.
  intros Ha Hstop.
  destruct (updateAll_active s Ha) as (Hmx & Hmy & _ & _ & Hact & Hclose).
  destruct (proj1 Hclose Hstop) as [Hcx Hcy]. unfold stopped_close.
  split; [rewrite Hact; exact Hstop|]. split; [|auto].
  unfold updateAll at 1. rewrite Hact, Hstop. reflexivity.
Qed.

Lemma stopped_close_later (s s1 s' : cursor) :
  mouseX s1 = mouseX s -> mouseY s1 = mouseY s ->
  stopped_close s1 s' -> stopped_close s s'.
Proof.
  intros Hx Hy (H1 & H2 & H3 & H4 & H5). unfold stopped_close.
  rewrite <- Hx, <- Hy. auto.
Qed.

(** The loop stops as soon as a potential that bounds both distances and
    shrinks with every frame gets below the threshold: [reach f] bounds
    the distances from which [S f] frames are enough, provided that a
    frame takes a distance of [reach (S f)] at most to one of [reach f] at
    most, and that the test passes after a frame from [reach 0]. *)
Variable reach : nat -> Q.
Variable ok : cursor -> Prop.

Hypothesis ok_step : forall s,
  cursorActive s = true -> ok s -> ok (fst (updateAll rnd lerp s)).

Hypothesis reach_0 : forall s,
  cursorActive s = true -> ok s ->
  (dx s <= reach 0)%Q -> (dy s <= reach 0)%Q ->
  snd (updateAll rnd lerp s) = false.

Hypothesis reach_S : forall f s,
  cursorActive s = true -> ok s ->
  (dx s <= reach (S f))%Q -> (dy s <= reach (S f))%Q ->
  (dx (fst (updateAll rnd lerp s)) <= reach f)%Q
  /\ (dy (fst (updateAll rnd lerp s)) <= reach f)%Q.

Lemma loop_stops (f : nat) (s : cursor) :
  cursorActive s = true -> ok s ->
  (dx s <= reach f)%Q -> (dy s <= reach f)%Q ->
  exists s', loop rnd lerp (S f) s = Some s' /\ stopped_close s s'.
Proof.
  revert s. induction f as [|f IH]; intros s Ha Hok Hx Hy;
    rewrite loop_S; destruct (snd (updateAll rnd lerp s)) eqn:Eagain.
  - rewrite (reach_0 s Ha Hok Hx Hy) in Eagain. discriminate.
  - eexists. split; [reflexivity|]. apply stopped_close_now; assumption.
  - destruct (updateAll_active s Ha) as (Hmx & Hmy & _ & _ & Hact & _).
    rewrite Eagain in Hact.
    destruct (reach_S f s Ha Hok Hx Hy) as [Hx' Hy'].
    destruct (IH _ Hact (ok_step s Ha Hok) Hx' Hy') as (s' & Hloop & Hs').
    exists s'. split; [exact Hloop|].
    exact (stopped_close_later _ _ _ Hmx Hmy Hs').
  - eexists. split; [reflexivity|]. apply stopped_close_now; assumption.
Qed.

End Loop.

Lemma inject_nat_S (f : nat) :
  (inject_Z (Z.of_nat (S f)) == inject_Z (Z.of_nat f) + 1)%Q.
Proof.
  rewrite Nat2Z.inj_succ. unfold Z.succ. rewrite inject_Z_plus. reflexivity.
Qed.

Lemma inject_nat_nonneg (f : nat) : (0 <= inject_Z (Z.of_nat f))%Q.
Proof. change 0%Q with (inject_Z 0). rewrite <- Zle_Qle. lia. Qed.

Lemma frames_needed_spec (s : cursor) :
  (0 <= dx s)%Q /\ (0 <= dy s)%Q
  /\ (13 * (dx s + dy s)
      <= inject_Z (Z.of_nat (Nat.pred (frames_needed s))))%Q.
Proof.
  assert (Hx : (0 <= dx s)%Q) by apply Qabs_nonneg.
  assert (Hy : (0 <= dy s)%Q) by apply Qabs_nonneg.
  split; [exact Hx|]. split; [exact Hy|].
  unfold frames_needed. cbn [Nat.pred].
  pose proof (Qle_ceiling (13 * (dx s + dy s))) as Hc.
  set (k := Qceiling (13 * (dx s + dy s))) in *.
  assert (Hk : 0 <= k).
  { rewrite Zle_Qle. change (inject_Z 0) with 0%Q. lra. }
  rewrite Z2Nat.id by exact Hk. exact Hc.
Qed.

(** *** Rounded arithmetic

    The loop when every operation rounds within the relative error of
    binary64, for a pointer within [2^40] of the origin: further out the
    steps of the eased position get smaller than the spacing of the numbers
    and the loop need not stop. *)

Definition far : Q := 1099511627776.

Definition on_screen (s : cursor) : Prop :=
  (Qabs (mouseX s) <= far)%Q /\ (Qabs (mouseY s) <= far)%Q.

Definition reach_rounded (f : nat) : Q :=
  ((1 # 2) + (2 # 25) * inject_Z (Z.of_nat f))%Q.

Section Rounded.

Variable rnd : Q -> Q.
Hypothesis rnd_error : rounds rnd.

(** A step leaves 86/100 of the distance at most, but for a thousandth. *)
Lemma ease_rounded (m c D : Q) :
  (Qabs m <= far)%Q -> (Qabs (m - c) <= D)%Q ->
  (Qabs (m - rnd (c + rnd (rnd (m - c) * lerp_binary64)))
   <= (86 # 100) * D + (1 # 1000))%Q.
Proof.
  intros Hm Hd.
  destruct (rounds_within rnd (m - c) D rnd_error Hd) as [H1l H1u].
  apply Qabs_Qle_condition in Hm. apply Qabs_Qle_condition in Hd.
  set (e1 := rnd (m - c)) in *.
  assert (HE2 : (Qabs (e1 * lerp_binary64) <= D)%Q).
  { apply Qabs_Qle_condition. unfold lerp_binary64, u in *. split; lra. }
  destruct (rounds_within rnd _ D rnd_error HE2) as [H2l H2u].
  apply Qabs_Qle_condition in HE2.
  set (e2 := rnd (e1 * lerp_binary64)) in *.
  assert (HE3 : (Qabs (c + e2) <= far + 3 * D)%Q).
  { apply Qabs_Qle_condition. unfold lerp_binary64, u, far in *. split; lra. }
  destruct (rounds_within rnd _ _ rnd_error HE3) as [H3l H3u].
  set (c' := rnd (c + e2)) in *.
  apply Qabs_Qle_condition. unfold lerp_binary64, u, far in *. split; lra.
Qed.

Lemma updateAll_rounded (s : cursor) (D : Q) :
  cursorActive s = true -> on_screen s ->
  (dx s <= D)%Q -> (dy s <= D)%Q ->
  let s' := fst (updateAll rnd lerp_binary64 s) in
  on_screen s'
  /\ (dx s' <= (86 # 100) * D + (1 # 1000))%Q
  /\ (dy s' <= (86 # 100) * D + (1 # 1000))%Q.
Proof.
  intros Ha [Hmx Hmy] Hx Hy.
  destruct (updateAll_active rnd lerp_binary64 s Ha)
    as (Hx' & Hy' & Hcx & Hcy & _).
  cbv zeta in *. unfold on_screen, dx, dy. rewrite Hx', Hy', Hcx, Hcy.
  split; [split; assumption|].
  split; apply ease_rounded; assumption.
Qed.

Lemma on_screen_step (s : cursor) :
  cursorActive s = true -> on_screen s ->
  on_screen (fst (updateAll rnd lerp_binary64 s)).
Proof.
  intros Ha Hs.
  exact (proj1 (updateAll_rounded s (dx s + dy s) Ha Hs
                  ltac:(pose proof (Qabs_nonneg (mouseY s - cursorY s));
                        unfold dx, dy in *; lra)
                  ltac:(pose proof (Qabs_nonneg (mouseX s - cursorX s));
                        unfold dx, dy in *; lra))).
Qed.

(** The test of closeness passes on a rounded difference that small. *)
Lemma test_passes (d : Q) :
  (Qabs d <= 45 # 100)%Q -> (Qabs (rnd d) < 1 # 2)%Q.
Proof.
  intros Hd.
  destruct (rounds_within rnd d _ rnd_error Hd) as [Hl Hu].
  apply Qabs_Qle_condition in Hd. apply Qabs_Qlt_condition.
  unfold u in *. split; lra.
Qed.

Lemma reach_0_rounded (s : cursor) :
  cursorActive s = true -> on_screen s ->
  (dx s <= reach_rounded 0)%Q -> (dy s <= reach_rounded 0)%Q ->
  snd (updateAll rnd lerp_binary64 s) = false.
Proof.
  intros Ha Hs Hx Hy.
  destruct (updateAll_rounded s _ Ha Hs Hx Hy) as (_ & Hx' & Hy').
  destruct (updateAll_active rnd lerp_binary64 s Ha) as (_ & _ & _ & _ & _ & Hclose).
  apply Hclose. unfold reach_rounded in Hx', Hy'.
  change (inject_Z (Z.of_nat 0)) with 0%Q in Hx', Hy'.
  unfold dx, dy in Hx', Hy'. split; apply test_passes; lra.
Qed.

Lemma reach_S_rounded (f : nat) (s : cursor) :
  cursorActive s = true -> on_screen s ->
  (dx s <= reach_rounded (S f))%Q -> (dy s <= reach_rounded (S f))%Q ->
  (dx (fst (updateAll rnd lerp_binary64 s)) <= reach_rounded f)%Q
  /\ (dy (fst (updateAll rnd lerp_binary64 s)) <= reach_rounded f)%Q.
Proof.
  intros Ha Hs Hx Hy.
  destruct (updateAll_rounded s _ Ha Hs Hx Hy) as (_ & Hx' & Hy').
  unfold reach_rounded in *. rewrite inject_nat_S in Hx', Hy'.
  pose proof (inject_nat_nonneg f) as Hf. split; lra.
Qed.

(** The loop stops after [frames_needed s] frames at most, in a state that
    passes the test of closeness. *)
Lemma rounded_loop_terminates (s : cursor) :
  cursorActive s = true -> on_screen s ->
  exists s',
    (forall fuel, (frames_needed s <= fuel)%nat ->
       loop rnd lerp_binary64 fuel s = Some s')
    /\ stopped_close rnd lerp_binary64 s s'.
Proof.
  intros Ha Hs.
  destruct (frames_needed_spec s) as (Hx0 & Hy0 & Hk).
  destruct (loop_stops rnd lerp_binary64 reach_rounded on_screen
              on_screen_step reach_0_rounded reach_S_rounded
              (Nat.pred (frames_needed s)) s Ha Hs)
    as (s' & Hloop & Hs').
  - unfold reach_rounded. lra.
  - unfold reach_rounded. lra.
  - change (S (Nat.pred (frames_needed s))) with (frames_needed s) in Hloop.
    exists s'. split; [|exact Hs'].
    intros fuel Hfuel. exact (loop_mono _ _ _ _ _ _ Hfuel Hloop).
Qed.

(** A rounded difference that passes the test stands for a distance that is
    below 0.5 but for one rounding. *)
Lemma close_exact (d : Q) :
  (Qabs (rnd d) < 1 # 2)%Q -> ((1 - u) * Qabs d < 1 # 2)%Q.
Proof.
  intros H. apply Qabs_Qlt_condition in H.
  destruct (rounds_within rnd d (Qabs d) rnd_error (Qle_refl _)) as [Hl Hu].
  revert Hl Hu. apply Qabs_case; intros Hd Hl Hu; unfold u in *; lra.
Qed.

(** C8, for a pointer on the screen. With arithmetic that rounds within the
    relative error of binary64, a pointer within [2^40] of the origin on
    both axes and whatever eased position the loop starts from, the frames
    come to an end while the pointer rests: after [frames_needed s] frames
    at most, [updateAll] has cleared [cursorActive] and requested no
    further frame, in a state whose eased position passes the test of
    closeness, the differences as computed being below 0.5 on both axes and
    the exact distances below 0.5 but for one rounding; every larger number
    of frames ends in that same state. *)
Theorem cursor_loop_terminates (s : cursor) :
  cursorActive s = true -> on_screen s ->
  exists s',
    (forall fuel, (frames_needed s <= fuel)%nat ->
       loop rnd lerp_binary64 fuel s = Some s')
    /\ cursorActive s' = false
    /\ snd (updateAll rnd lerp_binary64 s') = false
    /\ mouseX s' = mouseX s /\ mouseY s' = mouseY s
    /\ (Qabs (rnd (mouseX s' - cursorX s')) < 1 # 2)%Q
    /\ (Qabs (rnd (mouseY s' - cursorY s')) < 1 # 2)%Q
    /\ ((1 - u) * Qabs (mouseX s' - cursorX s') < 1 # 2)%Q
    /\ ((1 - u) * Qabs (mouseY s' - cursorY s') < 1 # 2)%Q.
Proof.
  intros Ha Hs.
  destruct (rounded_loop_terminates s Ha Hs)
    as (s' & Hloop & H1 & H2 & H3 & H4 & H5 & H6).
  exists s'. repeat (split; [assumption|]).
  split; apply close_exact; assumption.
Qed.

End Rounded.

(** The pointer at (4, 3), the eased position at the origin, the loop just
    started by [mousemove]. *)
Definition moved : cursor :=
  fst (mousemove 4 3
         {| mouseX := 0; mouseY := 0; cursorX := 0; cursorY := 0;
            cursorActive := false;
            customCursor := Some {| left := None; top := None |};
            cursorGlow := None |}).

Lemma cursor_loop_terminates_witness :
  exists s',
    loop Qred lerp_binary64 92 moved = Some s' /\ cursorActive s' = false.
Proof.
  assert (Hon : on_screen moved) by (split; vm_compute; discriminate).
  destruct (cursor_loop_terminates Qred rounds_Qred moved eq_refl Hon)
    as (s' & Hloop & Hstop & _).
  exists s'. split; [|exact Hstop].
  apply Hloop. vm_compute. lia.
Defined.

(** *** The loop on binary64 numbers

    The same frames with the kernel's binary64 arithmetic. *)

Module Binary64.

Import PrimFloat.

Record cursor := {
  mouseX : float;
  mouseY : float;
  cursorX : float;
  cursorY : float;
  cursorActive : bool
}.

(** The number that the literal [0.15] denotes. *)
Definition lerp : float := 0x1.3333333333333p-3%float.

Definition updateAll (s : cursor) : cursor * bool :=
  if negb (cursorActive s) then (s, false)
  else
    let cursorX := add (cursorX s) (mul (sub (mouseX s) (cursorX s)) lerp) in
    let cursorY := add (cursorY s) (mul (sub (mouseY s) (cursorY s)) lerp) in
    let dx := sub (mouseX s) cursorX in
    let dy := sub (mouseY s) cursorY in
    let close := ltb (abs dx) 0.5%float && ltb (abs dy) 0.5%float in
    ({| mouseX := mouseX s;
        mouseY := mouseY s;
        cursorX := cursorX;
        cursorY := cursorY;
        cursorActive := negb close |},
     negb close).

Fixpoint loop (fuel : nat) (s : cursor) : option cursor :=
  match fuel with
  | O => None
  | S fuel =>
      let (s', again) := updateAll s in
      if again then loop fuel s' else Some s'
  end.

(** From the origin to (400, 300): 41 frames are not enough, the 42nd is
    the last. *)
Example loop_400_300_binary64 :
  let s := {| mouseX := 400%float; mouseY := 300%float;
              cursorX := 0%float; cursorY := 0%float;
              cursorActive := true |} in
  loop 41 s = None
  /\ cursorActive <$> loop 42 s = Some false.
Proof. vm_compute. split; reflexivity. Qed.

(** [lerp_binary64] is that number. *)
Example lerp_binary64_exact :
  FloatOps.Prim2SF lerp = SpecFloat.S754_finite false 5404319552844595 (-55).
Proof. reflexivity. Qed.

(** The state after [k] frames that each requested another one. *)
Fixpoint frames (k : nat) (s : cursor) : option cursor :=
  match k with
  | O => Some s
  | S k =>
      let (s', again) := updateAll s in
      if again then frames k s' else None
  end.

(** A frame that changes nothing and requests another one is followed by
    such frames for ever. *)
Lemma loop_stuck (s : cursor) :
  updateAll s = (s, true) -> forall fuel, loop fuel s = None.
Proof.
  intros H fuel. induction fuel as [|fuel IH]; [reflexivity|].
  cbn [loop]. rewrite H. exact IH.
Qed.

Lemma loop_after (k : nat) (s s' : cursor) :
  frames k s = Some s' -> (forall fuel, loop fuel s' = None) ->
  forall fuel, loop fuel s = None.
Proof.
  revert s. induction k as [|k IH]; intros s Hk Hs' fuel.
  - injection Hk as <-. apply Hs'.
  - destruct fuel as [|fuel]; [reflexivity|].
    cbn [frames] in Hk. cbn [loop].
    destruct (updateAll s) as [s1 again]. destruct again; [|discriminate].
    exact (IH s1 Hk Hs' fuel).
Qed.

(** The pointer at [(2^53, 0)], the eased position at the origin. *)
Definition far_out : cursor :=
  {| mouseX := 0x1p+53%float; mouseY := 0%float;
     cursorX := 0%float; cursorY := 0%float; cursorActive := true |}.

(** Where the eased position comes to rest: 3 short of the pointer. *)
Definition stalled : cursor :=
  {| mouseX := 0x1p+53%float; mouseY := 0%float;
     cursorX := 0x1.ffffffffffffdp+52%float; cursorY := 0%float;
     cursorActive := true |}.

(** C8, where the loop does not stop. With the pointer at [2^53] the
    eased position gets to [2^53 - 3] in 218 frames and moves no more: 0.15
    of the remaining 3 is less than half the spacing of the numbers there,
    the test of closeness fails for ever, and every frame requests
    another. No number of frames is enough. *)
Lemma cursor_loop_stalls :
  frames 218 far_out = Some stalled
  /\ updateAll stalled = (stalled, true)
  /\ forall fuel : nat, loop fuel far_out = None.
Proof.
  assert (H218 : frames 218 far_out = Some stalled) by (vm_compute; reflexivity).
  assert (Hfix : updateAll stalled = (stalled, true)) by (vm_compute; reflexivity).
  split; [exact H218|]. split; [exact Hfix|].
  exact (loop_after 218 far_out stalled H218 (loop_stuck stalled Hfix)).
Qed.

End Binary64.

End Cursor.

(** ** Notifications: [showNotification] *)

Module Notification.

(** Markup as the HTML parser reads it: text, and elements with their
    classes and their content. The message of a notification is put into
    [innerHTML], so that it is read as markup. *)
#[warnings="-register-all"]
Inductive html :=
  | Text (s : string)
  | Element (classes : list string) (content : list html).

(** A message without markup, as at every call in the script. *)
Definition text (s : string) : list html := [Text s].

(** An element of the document: its identity, its class list and, for a
    notification, the parts of its content that depend on the arguments.
    The other elements of the page are taken without their content. *)
Record node := {
  nodeId : nat;
  classList : list string;
  iconClass : string;
  message : list html;
  color : string
}.

(** The elements of the document in document order, the identity of the
    next element created, and the nodes that a pending 4000 ms timer is
    going to remove. *)
Record document := {
  body : list node;
  nextId : nat;
  timeouts : list nat
}.

Definition has_class (c : string) (n : node) : bool :=
  bool_decide (c ∈ classList n).

(** [document.querySelector(sel)?.remove()]: the first match goes, if any.
    A notification comes before the elements of its message in document
    order, so that the first match is never one of those. *)
Fixpoint remove_first (sel : node -> bool) (ns : list node) : list node :=
  match ns with
  | [] => []
  | n :: ns => if sel n then ns else n :: remove_first sel ns
  end.

(** [node.remove()], by identity; nothing happens when it is not attached. *)
Definition remove_node (id : nat) (ns : list node) : list node :=
  List.filter (fun n => negb (nodeId n =? id)%nat) ns.

Definition createNotification (id : nat) (message : list html) (type : string)
    : node :=
  let success := bool_decide (type = "success") in
  {| nodeId := id;
     classList := ["notification"; type];
     iconClass := if success then "fa-check-circle" else "fa-exclamation-circle";
     message := message;
     color := if success then "#00ff64" else "#ff6464" |}.

Definition showNotification (message : list html) (type : string)
    (d : document) : document :=
  let body := remove_first (has_class "notification") (body d) in
  let notification := createNotification (nextId d) message type in
  {| body := body ++ [notification];
     nextId := S (nextId d);
     timeouts := timeouts d ++ [nextId d] |}.

(** The callback of [setTimeout(() => notification.remove(), 4000)]. *)
Definition timeout (id : nat) (d : document) : document :=
  if bool_decide (id ∈ timeouts d)
  then {| body := remove_node id (body d);
          nextId := nextId d;
          timeouts := List.filter (fun t => negb (t =? id)%nat) (timeouts d) |}
  else d.

Inductive event :=
  | Show (message : list html) (type : string)
  | TimeoutFires (id : nat).

Definition handle (d : document) (e : event) : document :=
  match e with
  | Show message type => showNotification message type d
  | TimeoutFires id => timeout id d
  end.

Definition run (d : document) (es : list event) : document := fold_left handle es d.

(** The notifications of the document: the elements of the page that hold
    the class. *)
Definition notifications (d : document) : list node :=
  List.filter (has_class "notification") (body d).

(** The elements of a piece of markup that hold the class. *)
Fixpoint matching (h : html) : nat :=
  match h with
  | Text _ => 0%nat
  | Element classes content =>
      ((if bool_decide ("notification" ∈ classes) then 1 else 0)
       + list_sum (map matching content))%nat
  end.

Definition matching_in (m : list html) : nat := list_sum (map matching m).

(** The elements that the selector [.notification] matches: the
    notifications, and within each the elements of its message that hold
    the class. *)
Definition selected (d : document) : nat :=
  list_sum (map (fun n => S (matching_in (message n))) (notifications d)).

(** A call with a message that holds no element of the class; a timer. *)
Definition markup_free (e : event) : Prop :=
  match e with
  | Show message _ => matching_in message = 0%nat
  | TimeoutFires _ => True
  end.

(** *** Properties *)

Lemma filter_remove_first (sel : node -> bool) (ns : list node) :
  List.filter sel (remove_first sel ns) = tail (List.filter sel ns).
Proof.
  induction ns as [|n ns IH]; [reflexivity|]. cbn.
  destruct (sel n) eqn:E; [reflexivity|]. cbn. rewrite E. exact IH.
Qed.

Lemma filter_remove_node_length (sel : node -> bool) (id : nat) (ns : list node) :
  (length (List.filter sel (remove_node id ns)) <= length (List.filter sel ns))%nat.
Proof.
  unfold remove_node. induction ns as [|n ns IH]; [reflexivity|]. cbn.
  destruct (negb (nodeId n =? id)%nat); cbn; destruct (sel n); cbn; lia.
Qed.

Lemma has_class_createNotification (id : nat) (message : list html)
    (type : string) :
  has_class "notification" (createNotification id message type) = true.
Proof.
  unfold has_class. apply bool_decide_eq_true_2. cbn. apply list_elem_of_here.
Qed.

(** A call leaves the notifications that were there but the first, and the
    new one. *)
Lemma notifications_showNotification (message : list html) (type : string)
    (d : document) :
  notifications (showNotification message type d) =
  tail (notifications d) ++ [createNotification (nextId d) message type].
Proof.
  unfold notifications, showNotification. cbn [body].
  rewrite List.filter_app, filter_remove_first. cbn [List.filter].
  rewrite has_class_createNotification. reflexivity.
Qed.

Lemma notifications_timeout (id : nat) (d : document) :
  (length (notifications (timeout id d)) <= length (notifications d))%nat.
Proof.
  unfold timeout. case_bool_decide; [|reflexivity].
  apply filter_remove_node_length.
Qed.

Lemma notifications_handle (d : document) (e : event) :
  (length (notifications d) <= 1)%nat ->
  (length (notifications (handle d e)) <= 1)%nat.
Proof.
  intros H. destruct e as [message type|id]; cbn [handle].
  - rewrite notifications_showNotification, length_app. cbn [length].
    destruct (notifications d) as [|n [|n' ns]]; cbn [tail length] in *; lia.
  - exact (Nat.le_trans _ _ _ (notifications_timeout id d) H).
Qed.

Lemma notifications_timeout_filter (id : nat) (d : document) :
  notifications (timeout id d) = notifications d
  \/ notifications (timeout id d)
     = List.filter (fun n => negb (nodeId n =? id)%nat) (notifications d).
Proof.
  unfold timeout. case_bool_decide; [right|left; reflexivity].
  unfold notifications, remove_node. cbn [body].
  induction (body d) as [|n ns IH]; [reflexivity|]. cbn.
  destruct (negb (nodeId n =? id)%nat) eqn:E1,
           (has_class "notification" n) eqn:E2; cbn; rewrite ?E1, ?E2, IH;
    reflexivity.
Qed.

Lemma list_sum_filter (f : node -> nat) (g : node -> bool) (ns : list node) :
  (list_sum (map f (List.filter g ns)) <= list_sum (map f ns))%nat.
Proof.
  induction ns as [|n ns IH]; [reflexivity|]. cbn [List.filter].
  destruct (g n); cbn [map];
    change (list_sum (?a :: ?l)) with (a + list_sum l)%nat; lia.
Qed.

Lemma selected_timeout (id : nat) (d : document) :
  (selected (timeout id d) <= selected d)%nat.
Proof.
  unfold selected.
  destruct (notifications_timeout_filter id d) as [-> | ->];
    [reflexivity|apply list_sum_filter].
Qed.

(** One element matched at most: one notification at most. *)
Lemma selected_notifications (d : document) :
  (selected d <= 1)%nat -> (length (notifications d) <= 1)%nat.
Proof.
  unfold selected. destruct (notifications d) as [|n [|n' ns]]; cbn [length];
    [lia|lia|].
  cbn [map]. change (list_sum (?a :: ?l)) with (a + list_sum l)%nat.
  change (list_sum (?a :: ?l)) with (a + list_sum l)%nat. lia.
Qed.

Lemma selected_showNotification (message : list html) (type : string)
    (d : document) :
  (length (notifications d) <= 1)%nat ->
  notifications (showNotification message type d)
  = [createNotification (nextId d) message type]
  /\ selected (showNotification message type d) = S (matching_in message).
Proof.
  intros H.
  assert (E : notifications (showNotification message type d)
              = [createNotification (nextId d) message type]).
  { rewrite notifications_showNotification.
    destruct (notifications d) as [|n [|n' ns]]; cbn [tail length] in *;
      [reflexivity|reflexivity|lia]. }
  split; [exact E|]. unfold selected. rewrite E.
  unfold list_sum, createNotification. cbn [map fold_right].
  apply Nat.add_0_r.
Qed.

Lemma selected_handle (d : document) (e : event) :
  markup_free e -> (selected d <= 1)%nat -> (selected (handle d e) <= 1)%nat.
Proof.
  intros He H. destruct e as [message type|id]; cbn [handle].
  - cbn in He.
    destruct (selected_showNotification message type d
                (selected_notifications d H)) as [_ ->].
    rewrite He. lia.
  - exact (Nat.le_trans _ _ _ (selected_timeout id d) H).
Qed.

(** C10, for messages without markup of the class. In a document in
    which the selector [.notification] matches one element at most,
    whatever the calls of [showNotification] with messages that hold no
    element of the class [notification] and the firings of its removal
    timers, and in whatever order: the selector matches one element at most
    and one notification at most is attached; right after a call exactly one
    notification is attached, the one just created, and the selector
    matches it and the elements of the class in its message, so that a
    call with a message that holds none leaves exactly one match. *)
Theorem at_most_one_notification (d : document) (es : list event) :
  (selected d <= 1)%nat -> Forall markup_free es ->
  (selected (run d es) <= 1)%nat
  /\ (length (notifications (run d es)) <= 1)%nat
  /\ (forall message type,
        notifications (showNotification message type (run d es)) =
        [createNotification (nextId (run d es)) message type]
        /\ selected (showNotification message type (run d es))
           = S (matching_in message)).
Proof.
  intros H Hes.
  assert (Hrun : (selected (run d es) <= 1)%nat).
  { revert d H. unfold run.
    induction Hes as [|e es He Hes IH]; intros d H; [exact H|].
    cbn [fold_left]. apply IH. apply selected_handle; assumption. }
  split; [exact Hrun|].
  split; [apply selected_notifications; exact Hrun|].
  intros message type. apply selected_showNotification.
  apply selected_notifications. exact Hrun.
Qed.

(** A document without notifications. *)
Definition empty_document : document :=
  {| body := [ {| nodeId := 0; classList := ["navbar"]; iconClass := "";
                  message := []; color := "" |} ];
     nextId := 1;
     timeouts := [] |}.

Lemma at_most_one_notification_witness :
  (selected
     (run empty_document
        [Show (text "Please fill in all required fields.") "error";
         Show (text "Thanks for subscribing!") "success";
         TimeoutFires 1]) <= 1)%nat.
Proof.
  assert (H0 : (selected empty_document <= 1)%nat) by (vm_compute; lia).
  assert (Hes : Forall markup_free
                  [Show (text "Please fill in all required fields.") "error";
                   Show (text "Thanks for subscribing!") "success";
                   TimeoutFires 1])
    by (repeat constructor).
  exact (proj1 (at_most_one_notification empty_document _ H0 Hes)).
Defined.

(** The markup [<b class="notification">x</b>]. *)
Definition marked_up : list html := [Element ["notification"] [Text "x"]].

(** C10, with markup of the class in the message. One call with the
    message [<b class="notification">x</b>] on a page without
    notifications: the notification and the element of its message both
    hold the class, and the selector matches two elements. *)
Lemma two_notification_elements :
  selected (showNotification marked_up "error" empty_document) = 2%nat
  /\ length (notifications (showNotification marked_up "error" empty_document))
     = 1%nat.
Proof. vm_compute. split; reflexivity. Qed.

End Notification.

(** ** Contact and newsletter forms: [initContactForm], [initNewsletter] *)

Module Forms.

(** How a listener ends: it returns, or an exception leaves it. *)
Inductive outcome (A : Type) :=
  | Returned (a : A)
  | TypeError.
Arguments Returned {A} a.
Arguments TypeError {A}.

(** The content of the submit button. *)
Inductive label :=
  | Markup (html : string)       (* what the document came with *)
  | Sending.                     (* the spinner and ["Sending..."] *)

Record button := {
  innerHTML : label;
  disabled : bool
}.

(** [#contact-form]: the entries of its [FormData] (a field that is not in
    the form is [None]) and the result of
    [form.querySelector('button[type=submit]')]. *)
Record contactForm := {
  name : option string;
  email : option string;
  message : option string;
  submitBtn : option button;
  sending : option label         (* the pending 1500 ms timer and the
                                    [originalText] it is to restore *)
}.

(** A text field: what it holds, and what [form.reset()] puts back. *)
Record field := {
  value : string;
  defaultValue : string
}.

(** [#newsletter-form]: its first [input], if it has one. *)
Record newsletterForm := {
  input : option field
}.

Record page := {
  contact : option contactForm;
  newsletter : option newsletterForm;
  doc : Notification.document
}.

(** [!value] for a form entry: a missing entry and the empty string. *)
Definition falsy (v : option string) : bool :=
  match v with
  | None => true
  | Some s => bool_decide (s = EmptyString)
  end.

Definition notify (message : list Notification.html) (type : string) (p : page)
    : page :=
  {| contact := contact p;
     newsletter := newsletter p;
     doc := Notification.showNotification message type (doc p) |}.

(** A [submit] event on the contact form. Without the form,
    [initContactForm] has returned before adding the listener. *)
Definition submit_contact (p : page) : outcome page :=
  match contact p with
  | None => Returned p
  | Some f =>
      if falsy (name f) || falsy (email f) || falsy (message f)
      then Returned (notify (Notification.text
                               "Please fill in all required fields.")
                       "error" p)
      else
        match submitBtn f with
        | None => TypeError          (* [submitBtn.innerHTML] of [null] *)
        | Some b =>
            Returned
              {| contact :=
                   Some {| name := name f; email := email f;
                           message := message f;
                           submitBtn := Some {| innerHTML := Sending;
                                                disabled := true |};
                           sending := Some (innerHTML b) |};
                 newsletter := newsletter p;
                 doc := doc p |}
        end
  end.

(** A [submit] event on the newsletter form. *)
Definition submit_newsletter (p : page) : outcome page :=
  match newsletter p with
  | None => Returned p
  | Some f =>
      match input f with
      | None => TypeError            (* [.value] of [null] *)
      | Some i =>
          let email := value i in
          if bool_decide (email = EmptyString) then Returned p
          else
            Returned
              {| contact := contact p;
                 newsletter :=
                   Some {| input := Some {| value := defaultValue i;
                                            defaultValue := defaultValue i |} |};
                 doc := Notification.showNotification
                          (Notification.text
                             "Thanks for subscribing! You'll hear from me soon.")
                          "success" (doc p) |}
      end
  end.

(** *** Properties *)

(** Without the form the listener is not there: a submit changes nothing. *)
Lemma submit_contact_no_form (p : page) :
  contact p = None -> submit_contact p = Returned p.
Proof. intros H. unfold submit_contact. rewrite H. reflexivity. Qed.

(** With its button the handler returns, whatever the entries. *)
Lemma submit_contact_with_button (p : page) (f : contactForm) :
  contact p = Some f -> is_Some (submitBtn f) ->
  exists p', submit_contact p = Returned p'.
Proof.
  intros Hf [b Hb]. unfold submit_contact. rewrite Hf, Hb.
  destruct (falsy (name f) || falsy (email f) || falsy (message f));
    eexists; reflexivity.
Qed.

(** Filled in and without its button, the form makes the listener throw. *)
Lemma submit_contact_throws (p : page) (f : contactForm) :
  contact p = Some f ->
  falsy (name f) || falsy (email f) || falsy (message f) = false ->
  submitBtn f = None ->
  submit_contact p = TypeError.
Proof.
  intros Hf Hfilled Hb. unfold submit_contact.
  rewrite Hf, Hfilled, Hb. reflexivity.
Qed.

(** The newsletter listener reads [value] of its input unguarded too. *)
Lemma submit_newsletter_throws (p : page) (f : newsletterForm) :
  newsletter p = Some f -> input f = None -> submit_newsletter p = TypeError.
Proof.
  intros Hf Hi. unfold submit_newsletter. rewrite Hf, Hi. reflexivity.
Qed.

(** A page whose contact form is filled in and is submitted by an
    [input type=submit], so that it holds no [button[type=submit]]. *)
Definition no_button_page : page :=
  {| contact := Some {| name := Some "Ada"; email := Some "ada@example.org";
                        message := Some "Hello"; submitBtn := None;
                        sending := None |};
     newsletter := None;
     doc := Notification.empty_document |}.

(** C9, at the failing input. The contact form is there, its three fields
    are filled in, and it has no [button[type=submit]]: the submit listener
    reads [innerHTML] of [null] and ends in a [TypeError], where the claim
    has a guard and a silent return. The entries checked first are guarded:
    with one of them missing the listener returns. *)
Theorem submit_contact_without_button :
  submit_contact no_button_page = TypeError.
Proof. reflexivity. Qed.

End Forms.

(** ** Rate limiting: [Utils.throttle] and [Utils.debounce]

    Time is a count of milliseconds. Every event carries the time at which
    it happens; the clock never goes back. A timeout fires when the
    browser gets to it, at its due time or later. *)

Module RateLimit.

Section Wrappers.

(** The arguments of a call, and the delay given to the wrapper. *)
Context {A : Type}.
Variable delay : Z.

(** [setTimeout] takes a negative delay for zero. *)
Definition due (now : Z) : Z := now + Z.max 0 delay.

(** *** [throttle(func, limit)] *)

(** The closure of the wrapper, the timeouts it has pending (by due time,
    oldest first), and the calls of [func] so far, latest first. *)
Record throttled := {
  t_now : Z;
  inThrottle : bool;
  t_timeouts : list Z;
  t_calls : list (Z * A)
}.

Definition throttle : throttled :=
  {| t_now := 0; inThrottle := false; t_timeouts := []; t_calls := [] |}.

(** A call of the wrapper at time [t] with arguments [a]. *)
Definition t_invoke (t : Z) (a : A) (s : throttled) : throttled :=
  let now := Z.max (t_now s) t in
  if negb (inThrottle s)
  then {| t_now := now;
          inThrottle := true;
          t_timeouts := t_timeouts s ++ [due now];
          t_calls := (now, a) :: t_calls s |}
  else {| t_now := now; inThrottle := inThrottle s;
          t_timeouts := t_timeouts s; t_calls := t_calls s |}.

(** The browser gets to the oldest timeout at time [t]: [inThrottle = false]
    when it is due, nothing but the passing of time when it is not. *)
Definition t_timeout (t : Z) (s : throttled) : throttled :=
  let now := Z.max (t_now s) t in
  match t_timeouts s with
  | d :: rest =>
      if d <=? now
      then {| t_now := now; inThrottle := false;
              t_timeouts := rest; t_calls := t_calls s |}
      else {| t_now := now; inThrottle := inThrottle s;
              t_timeouts := t_timeouts s; t_calls := t_calls s |}
  | [] => {| t_now := now; inThrottle := inThrottle s;
             t_timeouts := []; t_calls := t_calls s |}
  end.

(** *** [debounce(func, wait)] *)

(** A pending timeout: its handle, its due time, the arguments it holds. *)
Record pending := {
  handle : nat;
  dueAt : Z;
  args : A
}.

Record debounced := {
  d_now : Z;
  timeout : option nat;            (* [undefined] is [None] *)
  d_timeouts : list pending;
  nextHandle : nat;
  d_calls : list (Z * A)
}.

Definition debounce : debounced :=
  {| d_now := 0; timeout := None; d_timeouts := []; nextHandle := 1;
     d_calls := [] |}.

(** [clearTimeout(h)] *)
Definition clearTimeout (h : option nat) (ps : list pending) : list pending :=
  match h with
  | Some h => List.filter (fun p => negb (handle p =? h)%nat) ps
  | None => ps
  end.

Definition d_invoke (t : Z) (a : A) (s : debounced) : debounced :=
  let now := Z.max (d_now s) t in
  {| d_now := now;
     timeout := Some (nextHandle s);
     d_timeouts := clearTimeout (timeout s) (d_timeouts s)
                   ++ [{| handle := nextHandle s; dueAt := due now; args := a |}];
     nextHandle := S (nextHandle s);
     d_calls := d_calls s |}.

(** The browser gets to the timeout [h] at time [t]: [func] is called with
    the arguments it holds when it is pending and due. *)
Definition d_timeout (h : nat) (t : Z) (s : debounced) : debounced :=
  let now := Z.max (d_now s) t in
  match List.find (fun p => (handle p =? h)%nat) (d_timeouts s) with
  | Some p =>
      if dueAt p <=? now
      then {| d_now := now; timeout := timeout s;
              d_timeouts := clearTimeout (Some h) (d_timeouts s);
              nextHandle := nextHandle s;
              d_calls := (now, args p) :: d_calls s |}
      else {| d_now := now; timeout := timeout s;
              d_timeouts := d_timeouts s; nextHandle := nextHandle s;
              d_calls := d_calls s |}
  | None => {| d_now := now; timeout := timeout s;
               d_timeouts := d_timeouts s; nextHandle := nextHandle s;
               d_calls := d_calls s |}
  end.

(** *** Traces *)

Inductive event :=
  | Invoke (t : Z) (a : A)
  | TimeoutFires (h : nat) (t : Z).

Definition t_handle (s : throttled) (e : event) : throttled :=
  match e with
  | Invoke t a => t_invoke t a s
  | TimeoutFires _ t => t_timeout t s
  end.

Definition d_handle (s : debounced) (e : event) : debounced :=
  match e with
  | Invoke t a => d_invoke t a s
  | TimeoutFires h t => d_timeout h t s
  end.

Definition t_run (es : list event) : throttled := fold_left t_handle es throttle.
Definition d_run (es : list event) : debounced := fold_left d_handle es debounce.

(** The arguments of the calls of the wrapper, in order. *)
Definition invocations (es : list event) : list A :=
  omap (fun e => match e with Invoke _ a => Some a | _ => None end) es.

(** What an observer of the trace keeps track of: the clock, and the time
    and arguments of the last call of the wrapper. *)
Definition observe (o : Z * option (Z * A)) (e : event) : Z * option (Z * A) :=
  match e with
  | Invoke t a => let now := Z.max (fst o) t in (now, Some (now, a))
  | TimeoutFires _ t => (Z.max (fst o) t, snd o)
  end.

Definition clock (es : list event) : Z := fst (fold_left observe es (0, None)).

Definition last_invoke (es : list event) : option (Z * A) :=
  snd (fold_left observe es (0, None)).

(** Calls of [func], latest first, each at least [gap] after the one
    before. *)
Fixpoint spaced (gap : Z) (calls : list (Z * A)) : Prop :=
  match calls with
  | c2 :: ((c1 :: _) as rest) => fst c1 + gap <= fst c2 /\ spaced gap rest
  | _ => True
  end.

(** *** Properties of [throttle] *)

Definition gap : Z := Z.max 0 delay.

(** Either the wrapper is open, no timeout is pending and the last call
    of [func] is a gap old at least, or it is closed and the one pending
    timeout is the one of the last call of [func]. *)
Definition t_inv (s : throttled) : Prop :=
  spaced gap (t_calls s)
  /\ ((inThrottle s = false /\ t_timeouts s = []
       /\ match t_calls s with
          | [] => True
          | c :: _ => fst c + gap <= t_now s
          end)
      \/ (inThrottle s = true
          /\ exists c rest, t_calls s = c :: rest
                            /\ t_timeouts s = [fst c + gap]
                            /\ fst c <= t_now s)).

Lemma t_inv_throttle : t_inv throttle.
Proof. split; [exact I|]. left. repeat split. Qed.

Lemma t_inv_handle (s : throttled) (e : event) :
  t_inv s -> t_inv (t_handle s e).
Proof.
  intros [Hsp Hst]. destruct e as [t a|h t]; cbn [t_handle].
  - unfold t_invoke.
    destruct Hst as [(Hopen & Hto & Hlast)|(Hclosed & c & rest & Hc & Hto & Hle)].
    + rewrite Hopen, Hto. cbn [negb]. split.
      * cbn [t_calls]. destruct (t_calls s) as [|c rest]; [exact I|].
        cbn [spaced fst]. split; [lia|exact Hsp].
      * right. split; [reflexivity|]. eexists _, _.
        split; [reflexivity|]. split; [reflexivity|]. cbn. lia.
    + rewrite Hclosed. cbn [negb]. split; [exact Hsp|]. right.
      split; [reflexivity|]. exists c, rest. cbn. repeat split; try assumption.
      lia.
  - unfold t_timeout.
    destruct Hst as [(Hopen & Hto & Hlast)|(Hclosed & c & rest & Hc & Hto & Hle)].
    + rewrite Hto. split; [exact Hsp|]. left. cbn.
      split; [exact Hopen|]. split; [reflexivity|].
      destruct (t_calls s); [exact I|lia].
    + rewrite Hto. destruct (Z.leb_spec (fst c + gap) (Z.max (t_now s) t)).
      * split; [exact Hsp|]. left. cbn. repeat split. rewrite Hc. exact H.
      * split; [exact Hsp|]. right. cbn. split; [exact Hclosed|].
        exists c, rest. repeat split; try assumption. lia.
Qed.

Lemma t_inv_run (es : list event) : t_inv (t_run es).
Proof.
  unfold t_run. induction es as [|e es IH] using rev_ind; [exact t_inv_throttle|].
  rewrite fold_left_app. apply t_inv_handle. exact IH.
Qed.

Lemma invocations_snoc (es : list event) (e : event) :
  invocations (es ++ [e]) =
  invocations es ++ match e with Invoke _ a => [a] | TimeoutFires _ _ => [] end.
Proof. unfold invocations. rewrite omap_app. destruct e; reflexivity. Qed.

(** Only calls of the wrapper become calls of [func], in their order. *)
Lemma t_calls_sublist (es : list event) :
  rev (map snd (t_calls (t_run es))) `sublist_of` invocations es.
Proof.
  unfold t_run. induction es as [|e es IH] using rev_ind; [constructor|].
  rewrite fold_left_app, invocations_snoc. cbn [fold_left].
  destruct e as [t a|h t]; cbn [t_handle].
  - unfold t_invoke. destruct (negb (inThrottle (fold_left t_handle es throttle))).
    + cbn [t_calls map rev snd]. apply sublist_app; [exact IH|reflexivity].
    + cbn [t_calls]. apply sublist_inserts_r. exact IH.
  - rewrite app_nil_r. unfold t_timeout.
    destruct (t_timeouts _) as [|d rest]; [exact IH|].
    destruct (d <=? _); exact IH.
Qed.

Lemma t_calls_grow (s : throttled) (e : event) :
  exists cs, t_calls (t_handle s e) = cs ++ t_calls s.
Proof.
  destruct e as [t a|h t]; cbn [t_handle].
  - unfold t_invoke. destruct (negb (inThrottle s));
      [exists [(Z.max (t_now s) t, a)]|exists []]; reflexivity.
  - exists []. unfold t_timeout. destruct (t_timeouts s) as [|d rest];
      [reflexivity|]. destruct (d <=? _); reflexivity.
Qed.

(** The oldest call of [func] stays the oldest. *)
Lemma t_calls_last (es : list event) (s : throttled) :
  t_calls s <> [] ->
  last (t_calls (fold_left t_handle es s)) = last (t_calls s).
Proof.
  revert s. induction es as [|e es IH]; intros s Hne; [reflexivity|].
  cbn [fold_left]. destruct (t_calls_grow s e) as [cs Hcs].
  rewrite IH; rewrite Hcs.
  - destruct (t_calls s) as [|c rest] eqn:E; [contradiction|].
    rewrite last_app. destruct (last (c :: rest)) eqn:El; [reflexivity|].
    apply last_None in El. discriminate.
  - destruct (t_calls s); [contradiction|]. destruct cs; discriminate.
Qed.

(** Whatever the calls of the wrapper and whenever its timeouts fire:
    two calls of [func] are never less than the limit apart, one timeout
    at most is pending, [func] gets the arguments of some of the calls of
    the wrapper in their order and nothing else, and the first call of the
    wrapper is passed on at once. *)
Theorem throttle_spacing (es : list event) :
  let s := t_run es in
  spaced gap (t_calls s)
  /\ (length (t_timeouts s) <= 1)%nat
  /\ rev (map snd (t_calls s)) `sublist_of` invocations es
  /\ (forall t a es', es = Invoke t a :: es' ->
        last (t_calls s) = Some (Z.max 0 t, a)).
Proof.
  intros s. subst s. destruct (t_inv_run es) as [Hsp Hst].
  split; [exact Hsp|]. split; [|split; [apply t_calls_sublist|]].
  - destruct Hst as [(_ & -> & _)|(_ & c & rest & _ & -> & _)]; cbn; lia.
  - intros t a es' ->. unfold t_run. cbn [fold_left t_handle].
    rewrite t_calls_last; [reflexivity|discriminate].
Qed.

(** *** Properties of [debounce] *)

Lemma observe_snoc (es : list event) (e : event) :
  fold_left observe (es ++ [e]) (0, None) =
  observe (fold_left observe es (0, None)) e.
Proof. rewrite fold_left_app. reflexivity. Qed.

(** No timeout is pending, or the one that is holds the arguments of the
    last call of the wrapper and is due a wait after it. *)
Definition d_inv (es : list event) (s : debounced) : Prop :=
  d_now s = clock es
  /\ (d_timeouts s = []
      \/ exists h tc a,
           last_invoke es = Some (tc, a)
           /\ d_timeouts s = [{| handle := h; dueAt := tc + gap; args := a |}]
           /\ timeout s = Some h).

Lemma clearTimeout_own (h : nat) (d : Z) (a : A) :
  clearTimeout (Some h) [{| handle := h; dueAt := d; args := a |}] = [].
Proof. cbn. rewrite Nat.eqb_refl. reflexivity. Qed.

Lemma d_inv_run (es : list event) : d_inv es (d_run es).
Proof.
  unfold d_run, d_inv, clock, last_invoke.
  induction es as [|e es IH] using rev_ind; [split; [reflexivity|left; reflexivity]|].
  rewrite observe_snoc, fold_left_app. cbn [fold_left].
  destruct IH as [Hnow Hp].
  set (s := fold_left d_handle es debounce) in *.
  set (o := fold_left observe es (0, None)) in *.
  destruct e as [t a|h t]; cbn [d_handle observe fst snd].
  - split; [cbn; rewrite Hnow; reflexivity|]. right.
    exists (nextHandle s), (Z.max (fst o) t), a.
    split; [reflexivity|]. split; [|reflexivity].
    unfold d_invoke. cbn [d_timeouts]. unfold due, gap. rewrite Hnow.
    destruct Hp as [->|(h & tc & a' & _ & -> & ->)].
    + destruct (timeout s); reflexivity.
    + rewrite clearTimeout_own. reflexivity.
  - unfold d_timeout.
    destruct Hp as [Hp|(h' & tc & a' & Hlast & Hp & Hto)]; rewrite Hp.
    + cbn. split; [rewrite Hnow; reflexivity|left; reflexivity].
    + cbn [List.find handle].
      destruct (Nat.eqb_spec h' h) as [->|Hne].
      * cbn [dueAt]. destruct (tc + gap <=? Z.max (d_now s) t).
        -- cbn. rewrite Nat.eqb_refl. cbn.
           split; [rewrite Hnow; reflexivity|left; reflexivity].
        -- cbn. split; [rewrite Hnow; reflexivity|].
           right. exists h, tc, a'. auto.
      * cbn. split; [rewrite Hnow; reflexivity|].
        right. exists h', tc, a'. auto.
Qed.

(** Whatever the calls of the wrapper and whenever its timeouts fire: one
    timeout at most is pending; a timeout that calls [func] does so with
    the arguments of the last call of the wrapper, a wait after that call
    at least, and leaves none pending; and after a call of the wrapper,
    its timeout calls [func] with the arguments of that call whenever it
    fires a wait later or more. *)
Theorem debounce_last_call (es : list event) (h : nat) (t : Z) :
  let s := d_run es in
  let s' := d_timeout h t s in
  (length (d_timeouts s) <= 1)%nat
  /\ (d_calls s' = d_calls s
      \/ exists tc a,
           last_invoke es = Some (tc, a)
           /\ d_calls s' = (d_now s', a) :: d_calls s
           /\ tc + gap <= d_now s'
           /\ d_timeouts s' = [])
  /\ (forall t0 a t1,
        d_now (d_invoke t0 a s) + gap <= t1 ->
        d_calls (d_timeout (nextHandle s) t1 (d_invoke t0 a s))
        = (t1, a) :: d_calls s).
Proof.
  intros s s'. subst s'. destruct (d_inv_run es) as [Hnow Hp]. fold s in Hnow, Hp.
  split; [|split].
  - destruct Hp as [->|(h' & tc & a & _ & -> & _)]; cbn; lia.
  - unfold d_timeout.
    destruct Hp as [Hp|(h' & tc & a & Hlast & Hp & Hto)]; rewrite Hp.
    + left. reflexivity.
    + cbn [List.find handle]. destruct (Nat.eqb_spec h' h) as [->|Hne];
        [|left; reflexivity].
      cbn [dueAt]. destruct (Z.leb_spec (tc + gap) (Z.max (d_now s) t));
        [|left; reflexivity].
      right. exists tc, a. cbn. rewrite Nat.eqb_refl.
      repeat split; assumption.
  - intros t0 a t1 Ht1. unfold d_timeout, d_invoke in *.
    cbn [d_timeouts d_now d_calls timeout nextHandle] in *.
    assert (Hclear : clearTimeout (timeout s) (d_timeouts s) = []).
    { destruct Hp as [->|(h' & tc & a' & _ & -> & ->)];
        [destruct (timeout s); reflexivity|apply clearTimeout_own]. }
    rewrite Hclear. cbn [app List.find handle]. rewrite Nat.eqb_refl.
    cbn [dueAt args]. unfold due, gap in *.
    destruct (Z.leb_spec (Z.max (d_now s) t0 + Z.max 0 delay)
                (Z.max (Z.max (d_now s) t0) t1)); [|lia].
    cbn. f_equal. f_equal. lia.
Qed.

End Wrappers.

(** A scroll listener throttled to 16 ms: the call at 5 ms is dropped, the
    one at 20 ms, after the timeout, goes through. *)
Definition scrolls : list (@event nat) :=
  [Invoke 0 1%nat; Invoke 5 2%nat; TimeoutFires 0 16; Invoke 20 3%nat].

Lemma throttle_spacing_witness :
  last (t_calls (t_run 16 scrolls)) = Some (0, 1%nat)
  /\ t_calls (t_run 16 scrolls) = [(20, 3%nat); (0, 1%nat)].
Proof.
  split; [|reflexivity].
  destruct (throttle_spacing 16 scrolls) as (_ & _ & _ & H).
  exact (H 0 1%nat _ eq_refl).
Defined.

(** A handler debounced by 150 ms and called once: its timeout, firing at
    150 ms, calls [func]. *)
Lemma debounce_last_call_witness :
  d_calls (d_timeout 1 150 (d_invoke 150 0 7%nat (d_run 150 [])))
  = [(150, 7%nat)].
Proof.
  destruct (debounce_last_call 150 (@nil (@event nat)) 0 0) as (_ & _ & H).
  apply (H 0 7%nat 150). vm_compute. discriminate.
Defined.

End RateLimit.

(** ** The scroll listener: [initScrollHandler] *)

Module ScrollHandler.

Import NavHighlight.

(** What the listener writes: the ['scrolled'] class of [.navbar] (no such
    element: [None]), the nav links, and [State.lastScrollY]. *)
Record page := {
  navbar : option bool;
  navLinks : list navLink;
  lastScrollY : Q
}.

(** [handleScroll], with [window.scrollY] as an argument. *)
Definition handleScroll (sections : list section) (p : page) (scrollY : Q) : page :=
  {| navbar := (fun _ => Qltb 50 scrollY) <$> navbar p;
     navLinks := updateActiveNavLink scrollY sections (navLinks p);
     lastScrollY := scrollY |}.

(** The page after the scroll events at the offsets [ys], in order. *)
Definition scrolled (sections : list section) (p : page) (ys : list Q) : page :=
  fold_left (handleScroll sections) ys p.

(** Does the offset lie within the bounds of some section? *)
Definition hits (sections : list section) (scrollY : Q) : bool :=
  match last_match scrollY sections with
  | Some _ => true
  | None => false
  end.

(** *** Properties *)

(** A pass after another: the later one wins when its offset lies in a
    section, and changes nothing when it does not. *)
Lemma updateActiveNavLink_twice (y y' : Q) (secs : list section)
    (links : list navLink) :
  updateActiveNavLink y secs (updateActiveNavLink y' secs links) =
  if hits secs y then updateActiveNavLink y secs links
  else updateActiveNavLink y' secs links.
Proof.
  unfold hits. rewrite !(updateActiveNavLink_eq y).
  destruct (last_match y secs) as [s|]; [|reflexivity].
  rewrite updateActiveNavLink_eq.
  destruct (last_match y' secs); [apply highlight_highlight|reflexivity].
Qed.

Lemma updateActiveNavLink_miss (y : Q) (secs : list section)
    (links : list navLink) :
  hits secs y = false -> updateActiveNavLink y secs links = links.
Proof.
  unfold hits. intros H. rewrite updateActiveNavLink_eq.
  destruct (last_match y secs); [discriminate|reflexivity].
Qed.

Lemma scrolled_snoc (secs : list section) (p : page) (ys : list Q) (y : Q) :
  scrolled secs p (ys ++ [y]) = handleScroll secs (scrolled secs p ys) y.
Proof. unfold scrolled. rewrite fold_left_app. reflexivity. Qed.

(** After any history of scroll events: the navbar, when there is one,
    holds ['scrolled'] exactly when the last offset is above 50;
    [State.lastScrollY] is the last offset; and the nav links are those of
    one pass of [updateActiveNavLink] at the latest offset of the history
    that lay within some section, the links as they were when there was no
    such offset. *)
Theorem scrolled_history (secs : list section) (p : page) (ys : list Q) :
  let p' := scrolled secs p ys in
  navbar p' = (fun b => match last ys with
                        | Some y => Qltb 50 y
                        | None => b
                        end) <$> navbar p
  /\ lastScrollY p' = default (lastScrollY p) (last ys)
  /\ navLinks p' = match List.find (hits secs) (rev ys) with
                   | Some y => updateActiveNavLink y secs (navLinks p)
                   | None => navLinks p
                   end.
Proof.
  cbv zeta. induction ys as [|y ys IH] using rev_ind.
  - cbn. split; [destruct (navbar p); reflexivity|]. split; reflexivity.
  - destruct IH as (Hn & Hl & Hk).
    rewrite scrolled_snoc, last_snoc, rev_unit. cbn [handleScroll navbar lastScrollY navLinks default List.find].
    split; [rewrite Hn; destruct (navbar p); reflexivity|].
    split; [reflexivity|]. rewrite Hk.
    destruct (hits secs y) eqn:Ey.
    + destruct (List.find (hits secs) (rev ys)) as [y'|]; [|reflexivity].
      rewrite updateActiveNavLink_twice, Ey. reflexivity.
    + apply updateActiveNavLink_miss. exact Ey.
Qed.

(** The navbar at the offsets 0, 51 and 49 in turn. *)
Example navbar_0_51_49 :
  let p := {| navbar := Some false; navLinks := demo_links; lastScrollY := 0 |} in
  navbar (scrolled demo_sections p [0%Q]) = Some false
  /\ navbar (scrolled demo_sections p [0%Q; 51%Q]) = Some true
  /\ navbar (scrolled demo_sections p [0%Q; 51%Q; 49%Q]) = Some false.
Proof. repeat split. Qed.

End ScrollHandler.

(** ** More on the testimonial carousel *)

Module CarouselFacts.

Import Carousel.

Section Facts.

(** The rounding of the subtraction in [touchend]; none of what follows
    depends on it. *)
Variable rnd : Q -> Q.

(** *** The index and what is displayed *)

(** The track and the dots show the slide at the current index. *)
Definition shows_index (s : slider) : Prop :=
  trackTransform s = Some (currentIndex s * 100)
  /\ forall (i : nat) (b : bool),
       dots s !! i = Some b -> b = true <-> Z.of_nat i = currentIndex s.

Lemma goToSlide_range (index : Z) (s : slider) :
  1 <= cardCount s -> 0 <= currentIndex (goToSlide index s) < cardCount s.
Proof.
  intros HL. rewrite currentIndex_goToSlide. cbv zeta.
  destruct (Z.ltb_spec index 0);
    match goal with |- context [?a <=? ?b] => destruct (Z.leb_spec a b) end; lia.
Qed.

Lemma goToSlide_shows (index : Z) (s : slider) : shows_index (goToSlide index s).
Proof.
  split; [reflexivity|]. intros i b. cbn [goToSlide dots currentIndex].
  rewrite list_lookup_imap. destruct (dots s !! i); cbn; [|discriminate].
  intros [= <-]. rewrite bool_decide_eq_true. reflexivity.
Qed.

(** Nothing has moved yet, or the display shows the index. *)
Definition index_ok (n : Z) (ds : list bool) (s : slider) : Prop :=
  cardCount s = n
  /\ 0 <= currentIndex s < n
  /\ length (dots s) = length ds
  /\ ((trackTransform s = None /\ currentIndex s = 0 /\ dots s = ds)
      \/ shows_index s).

Lemma index_ok_goToSlide (n : Z) (ds : list bool) (index : Z) (s : slider) :
  1 <= n -> index_ok n ds s -> index_ok n ds (goToSlide index s).
Proof.
  intros Hn (HL & Hi & Hd & _). split; [exact HL|].
  split; [rewrite <- HL; apply goToSlide_range; lia|].
  split; [cbn [goToSlide dots]; rewrite length_imap; exact Hd|].
  right. apply goToSlide_shows.
Qed.

Lemma index_ok_same (n : Z) (ds : list bool) (s s' : slider) :
  cardCount s' = cardCount s -> currentIndex s' = currentIndex s ->
  trackTransform s' = trackTransform s -> dots s' = dots s ->
  index_ok n ds s -> index_ok n ds s'.
Proof.
  unfold index_ok, shows_index. intros -> -> -> ->. auto.
Qed.

Lemma index_ok_handle (n : Z) (ds : list bool) (s : slider) (e : event) :
  1 <= n -> index_ok n ds s -> index_ok n ds (handle rnd s e).
Proof.
  intros Hn Hs.
  assert (Hstop : index_ok n ds (stopAutoPlay s))
    by (apply (index_ok_same n ds s); auto).
  destruct e as [| |i|x|x|h]; cbn [handle].
  - apply (index_ok_same n ds (goToSlide (currentIndex s - 1) (stopAutoPlay s)));
      auto using index_ok_goToSlide.
  - apply (index_ok_same n ds (goToSlide (currentIndex s + 1) (stopAutoPlay s)));
      auto using index_ok_goToSlide.
  - case_bool_decide; [|exact Hs].
    apply (index_ok_same n ds (goToSlide (Z.of_nat i) (stopAutoPlay s)));
      auto using index_ok_goToSlide.
  - apply (index_ok_same n ds s); auto.
  - unfold touchend. destruct (isDragging s); cbn [negb]; [|exact Hs].
    cbv zeta.
    match goal with
    | |- index_ok _ _ (startAutoPlay (set_isDragging false ?s1)) =>
        apply (index_ok_same n ds s1); [reflexivity..|]
    end.
    destruct (Qltb 50 _); [apply index_ok_goToSlide; assumption|exact Hs].
  - case_bool_decide; [apply index_ok_goToSlide; assumption|exact Hs].
Qed.

(** A carousel of [n >= 1] cards, after its set-up and any events: the
    index is one of [0 .. n-1], and either nothing has moved yet (index 0,
    track and dots as in the markup) or the track is shifted by 100% per
    index and a dot is active exactly when its position is the index. *)
Theorem index_stays_in_range (n : Z) (ds : list bool) (es : list event) :
  1 <= n ->
  let s := run rnd (startAutoPlay (fresh n ds)) es in
  0 <= currentIndex s < n
  /\ ((trackTransform s = None /\ currentIndex s = 0 /\ dots s = ds)
      \/ (trackTransform s = Some (currentIndex s * 100)
          /\ forall (i : nat) (b : bool),
               dots s !! i = Some b -> b = true <-> Z.of_nat i = currentIndex s)).
Proof.
  intros Hn s.
  assert (Hs : index_ok n ds s).
  { subst s. unfold run.
    assert (H0 : index_ok n ds (startAutoPlay (fresh n ds))).
    { split; [reflexivity|]. split; [cbn; lia|]. split; [reflexivity|].
      left. repeat split. }
    revert H0. generalize (startAutoPlay (fresh n ds)) as s0.
    induction es as [|e es IH]; intros s0 H0; [exact H0|].
    cbn [fold_left]. apply IH. apply index_ok_handle; assumption. }
  destruct Hs as (_ & Hi & _ & Hshow). split; [exact Hi|exact Hshow].
Qed.

(** *** Next and prev compose *)

Definition next (s : slider) : slider := handle rnd s ClickNext.
Definition prev (s : slider) : slider := handle rnd s ClickPrev.

Lemma currentIndex_next (s : slider) :
  1 <= cardCount s -> 0 <= currentIndex s < cardCount s ->
  currentIndex (next s) = (currentIndex s + 1) mod cardCount s
  /\ cardCount (next s) = cardCount s.
Proof.
  intros HL Hi. split; [|reflexivity].
  exact (goToSlide_next (stopAutoPlay s) HL Hi).
Qed.

Lemma currentIndex_prev (s : slider) :
  1 <= cardCount s -> 0 <= currentIndex s < cardCount s ->
  currentIndex (prev s) = (currentIndex s - 1) mod cardCount s
  /\ cardCount (prev s) = cardCount s.
Proof.
  intros HL Hi. split; [|reflexivity].
  exact (goToSlide_prev (stopAutoPlay s) HL Hi).
Qed.

Lemma currentIndex_nexts (k : nat) (s : slider) :
  1 <= cardCount s -> 0 <= currentIndex s < cardCount s ->
  currentIndex (Nat.iter k next s) = (currentIndex s + Z.of_nat k) mod cardCount s
  /\ cardCount (Nat.iter k next s) = cardCount s.
Proof.
  intros HL Hi. induction k as [|k [IHi IHL]].
  - change (Nat.iter 0 next s) with s.
    rewrite Z.add_0_r, Z.mod_small by lia. auto.
  - change (Nat.iter (S k) next s) with (next (Nat.iter k next s)).
    assert (Hr : 0 <= currentIndex (Nat.iter k next s)
                 < cardCount (Nat.iter k next s)).
    { rewrite IHi, IHL. apply Z.mod_pos_bound. lia. }
    destruct (currentIndex_next (Nat.iter k next s)) as [Hn HnL];
      [rewrite IHL; exact HL|exact Hr|].
    rewrite Hn, HnL, IHi, IHL. split; [|reflexivity].
    rewrite Zplus_mod_idemp_l. f_equal. lia.
Qed.

(** In a carousel of [L >= 1] cards at an index of [0 .. L-1]: prev undoes
    next, next undoes prev, [k] times next lead to [(i + k) mod L], and
    [L] times next lead back to where they started. *)
Theorem next_prev_compose (s : slider) (k : nat) :
  1 <= cardCount s -> 0 <= currentIndex s < cardCount s ->
  currentIndex (prev (next s)) = currentIndex s
  /\ currentIndex (next (prev s)) = currentIndex s
  /\ currentIndex (Nat.iter k next s)
     = (currentIndex s + Z.of_nat k) mod cardCount s
  /\ currentIndex (Nat.iter (Z.to_nat (cardCount s)) next s) = currentIndex s.
Proof.
  intros HL Hi.
  destruct (currentIndex_next s HL Hi) as [Hn HnL].
  destruct (currentIndex_prev s HL Hi) as [Hp HpL].
  assert (Hnr : 0 <= currentIndex (next s) < cardCount (next s))
    by (rewrite Hn, HnL; apply Z.mod_pos_bound; lia).
  assert (Hpr : 0 <= currentIndex (prev s) < cardCount (prev s))
    by (rewrite Hp, HpL; apply Z.mod_pos_bound; lia).
  split; [|split; [|split]].
  - destruct (currentIndex_prev (next s)) as [H _];
      [rewrite HnL; exact HL|exact Hnr|].
    rewrite H, Hn, HnL, Zminus_mod_idemp_l.
    replace (currentIndex s + 1 - 1) with (currentIndex s) by lia.
    apply Z.mod_small. exact Hi.
  - destruct (currentIndex_next (prev s)) as [H _];
      [rewrite HpL; exact HL|exact Hpr|].
    rewrite H, Hp, HpL, Zplus_mod_idemp_l.
    replace (currentIndex s - 1 + 1) with (currentIndex s) by lia.
    apply Z.mod_small. exact Hi.
  - exact (proj1 (currentIndex_nexts k s HL Hi)).
  - rewrite (proj1 (currentIndex_nexts _ s HL Hi)), Z2Nat.id by lia.
    rewrite <- (Z.mul_1_l (cardCount s)) at 1.
    rewrite Z.mod_add by lia. apply Z.mod_small. exact Hi.
Qed.

(** *** A track without cards *)

(** The set-up does not look at the number of cards. With none, every
    request for a negative index (prev from index 0 is one) ends at index
    -1, with the track shifted by -100%, and every other request at 0. *)
Theorem empty_carousel (s : slider) (index : Z) :
  cardCount s = 0 ->
  currentIndex (goToSlide index s) = (if index <? 0 then -1 else 0)
  /\ (currentIndex s = 0 ->
      currentIndex (prev s) = -1
      /\ trackTransform (prev s) = Some (-100)
      /\ currentIndex (next s) = 0).
Proof.
  intros HL. split.
  - rewrite currentIndex_goToSlide, HL. cbv zeta.
    destruct (Z.ltb_spec index 0); [reflexivity|].
    destruct (Z.leb_spec 0 index); [reflexivity|lia].
  - intros Hi. unfold prev, next. cbn [handle].
    unfold startAutoPlay, goToSlide, stopAutoPlay.
    cbn [currentIndex trackTransform cardCount]. rewrite HL, Hi.
    repeat split.
Qed.

(** *** Autoplay *)

(** One timer is live, and [autoPlayInterval] holds its handle. *)
Definition one_timer (s : slider) : Prop :=
  exists h, intervals s = {[ h ]} /\ autoPlayInterval s = Some h.

Lemma one_timer_live (s : slider) : one_timer s -> live_timers s = 1%nat.
Proof. intros (h & Hi & _). unfold live_timers. rewrite Hi. apply size_singleton. Qed.

Lemma intervals_stopAutoPlay (s : slider) :
  one_timer s -> intervals (stopAutoPlay s) = ∅.
Proof.
  intros (h & Hi & Ha). cbn [stopAutoPlay intervals]. rewrite Ha, Hi.
  apply difference_diag_L.
Qed.

Lemma one_timer_startAutoPlay (s : slider) :
  intervals s = ∅ -> one_timer (startAutoPlay s).
Proof.
  intros Hi. exists (Carousel.nextHandle s). cbn [startAutoPlay intervals autoPlayInterval].
  rewrite Hi. split; [|reflexivity]. apply union_empty_r_L.
Qed.

Definition no_touch (e : event) : bool :=
  match e with
  | TouchStart _ | TouchEnd _ => false
  | _ => true
  end.

Lemma one_timer_handle (s : slider) (e : event) :
  no_touch e = true -> one_timer s /\ isDragging s = false ->
  one_timer (handle rnd s e) /\ isDragging (handle rnd s e) = false.
Proof.
  intros He [Ho Hd]. pose proof (intervals_stopAutoPlay s Ho) as Hstop.
  destruct e as [| |i|x|x|h]; cbn [handle]; try discriminate.
  - split; [|exact Hd]. apply one_timer_startAutoPlay. exact Hstop.
  - split; [|exact Hd]. apply one_timer_startAutoPlay. exact Hstop.
  - case_bool_decide; [|auto]. split; [|exact Hd].
    apply one_timer_startAutoPlay. exact Hstop.
  - case_bool_decide; [|auto]. split; [exact Ho|exact Hd].
Qed.

Lemma one_timer_run (s : slider) (es : list event) :
  forallb no_touch es = true -> one_timer s /\ isDragging s = false ->
  one_timer (run rnd s es) /\ isDragging (run rnd s es) = false.
Proof.
  unfold run. revert s. induction es as [|e es IH]; intros s Hes Hs; [exact Hs|].
  cbn in Hes. apply andb_prop in Hes as [He Hes]. cbn [fold_left].
  apply IH; [exact Hes|]. apply one_timer_handle; assumption.
Qed.

Lemma run_events_app (s : slider) (es es' : list event) :
  run rnd s (es ++ es') = run rnd (run rnd s es) es'.
Proof. unfold run. apply fold_left_app. Qed.

(** After the set-up and any clicks on the buttons and dots and firings of
    the timer, exactly one autoplay timer is live. A finger put on the
    track then clears it: none is live, so that no firing moves the
    carousel while the finger stays; lifting the finger starts exactly
    one again. *)
Theorem autoplay_pauses_on_touch (n : Z) (ds : list bool) (es : list event)
    (x0 x1 : Q) (h : nat) :
  forallb no_touch es = true ->
  let s0 := startAutoPlay (fresh n ds) in
  let touched := run rnd s0 (es ++ [TouchStart x0]) in
  live_timers (run rnd s0 es) = 1%nat
  /\ live_timers touched = 0%nat
  /\ handle rnd touched (IntervalFires h) = touched
  /\ live_timers (run rnd s0 (es ++ [TouchStart x0; TouchEnd x1])) = 1%nat.
Proof.
  intros Hes s0 touched.
  assert (H0 : one_timer s0 /\ isDragging s0 = false)
    by (split; [apply one_timer_startAutoPlay|]; reflexivity).
  destruct (one_timer_run s0 es Hes H0) as [Ho Hd].
  assert (Ht : intervals touched = ∅).
  { subst touched. rewrite run_events_app. cbn [run fold_left handle].
    unfold touchstart. apply (intervals_stopAutoPlay
      {| cardCount := cardCount (run rnd s0 es);
         currentIndex := currentIndex (run rnd s0 es);
         trackTransform := trackTransform (run rnd s0 es);
         dots := dots (run rnd s0 es);
         autoPlayInterval := autoPlayInterval (run rnd s0 es);
         intervals := intervals (run rnd s0 es);
         nextHandle := Carousel.nextHandle (run rnd s0 es);
         startX := x0; isDragging := true |}).
    exact Ho. }
  split; [apply one_timer_live; exact Ho|]. split; [|split].
  - unfold live_timers. rewrite Ht. apply size_empty.
  - cbn [handle]. rewrite bool_decide_eq_false_2; [reflexivity|].
    rewrite Ht. apply not_elem_of_empty.
  - replace (es ++ [TouchStart x0; TouchEnd x1])
      with ((es ++ [TouchStart x0]) ++ [TouchEnd x1])
      by (rewrite <- app_assoc; reflexivity).
    rewrite run_events_app. fold touched. cbn [run fold_left handle].
    apply one_timer_live. unfold touchend.
    assert (Hdrag : isDragging touched = true).
    { subst touched. rewrite run_events_app. reflexivity. }
    rewrite Hdrag. cbn [negb]. cbv zeta.
    apply one_timer_startAutoPlay. cbn [set_isDragging intervals].
    destruct (Qltb 50 _); exact Ht.
Qed.

End Facts.

Lemma index_stays_in_range_witness :
  0 <= currentIndex (run Qred three_cards [ClickPrev; ClickDot 7; ClickNext]) < 3.
Proof.
  assert (Hn : 1 <= 3) by lia.
  exact (proj1 (index_stays_in_range Qred 3 [true; false; false]
                  [ClickPrev; ClickDot 7; ClickNext] Hn)).
Defined.

Lemma next_prev_compose_witness :
  currentIndex (prev Qred (next Qred three_cards)) = 0
  /\ currentIndex (Nat.iter 3 (next Qred) three_cards) = 0.
Proof.
  assert (H : 1 <= 3 /\ 0 <= 0 < 3) by lia.
  destruct (next_prev_compose Qred three_cards 3 (proj1 H) (proj2 H))
    as (H1 & _ & _ & H4).
  split; [exact H1|exact H4].
Defined.

Lemma empty_carousel_witness :
  initTestimonialsSlider
    {| track := Some 0; prevBtn := Some tt; nextBtn := Some tt;
       dotsContainer := Some [] |} = Some (startAutoPlay (fresh 0 []))
  /\ currentIndex (prev Qred (startAutoPlay (fresh 0 []))) = -1.
Proof.
  split; [reflexivity|].
  destruct (empty_carousel Qred (startAutoPlay (fresh 0 [])) 0 eq_refl) as [_ H].
  exact (proj1 (H eq_refl)).
Defined.

Lemma autoplay_pauses_on_touch_witness :
  live_timers (run Qred three_cards [ClickNext; TouchStart 200; TouchEnd 100]) = 1%nat.
Proof.
  destruct (autoplay_pauses_on_touch Qred 3 [true; false; false] [ClickNext]
              200 100 1 eq_refl) as (_ & _ & _ & H).
  exact H.
Defined.

End CarouselFacts.

(** ** More on the typing effect *)

Module TypingFacts.

Import Typing.

(** *** Phrase lists the script does not have *)

Lemma prefix_empty (k : Z) : prefix k EmptyString = EmptyString.
Proof. unfold prefix. destruct (Z.to_nat k); reflexivity. Qed.

Lemma type_empty_phrase (texts : list string) (i : nat) (c : Z) (t : string) :
  nth_error texts i = Some EmptyString -> 0 <= c ->
  type texts {| textIndex := i; charIndex := c; isDeleting := false;
                textContent := t |} =
  Some ({| textIndex := i; charIndex := c + 1; isDeleting := false;
           textContent := EmptyString |}, 100).
Proof.
  intros Hp Hc. unfold type. cbn [textIndex isDeleting charIndex negb andb].
  rewrite Hp, prefix_empty. cbn [String.length].
  destruct (Z.eqb_spec (c + 1) (Z.of_nat 0)); [lia|reflexivity].
Qed.

(** With an empty phrase in the list the widget never gets past it: from
    the start of that phrase every call shows the empty string and asks
    for the next call in 100 ms, the phrase index stays and nothing is ever
    deleted. With an empty list the first call throws. *)
Theorem empty_phrase_stalls (texts : list string) (i n : nat) (c : Z)
    (t : string) :
  (nth_error texts i = Some EmptyString -> 0 <= c ->
   run texts (S n) {| textIndex := i; charIndex := c; isDeleting := false;
                      textContent := t |} =
   Some (repeat (EmptyString, 100) (S n),
         {| textIndex := i; charIndex := c + Z.of_nat (S n);
            isDeleting := false; textContent := EmptyString |}))
  /\ (forall s, run [] (S n) s = None).
Proof.
  split.
  - intros Hp. revert c t. induction n as [|n IH]; intros c t Hc.
    + cbn [run]. rewrite type_empty_phrase by assumption. reflexivity.
    + change (run texts (S (S n)) ?s) with
        (match type texts s with
         | None => None
         | Some (s', speed) =>
             match run texts (S n) s' with
             | None => None
             | Some (fs, s'') => Some ((textContent s', speed) :: fs, s'')
             end
         end).
      rewrite type_empty_phrase by assumption.
      rewrite IH by lia. cbn [textContent repeat]. do 3 f_equal. lia.
  - intros s. cbn [run]. unfold type. destruct (textIndex s); reflexivity.
Qed.

Lemma empty_phrase_stalls_witness :
  run ["Hi"; ""] 3 {| textIndex := 1; charIndex := 0; isDeleting := false;
                      textContent := "" |} =
  Some ([("", 100); ("", 100); ("", 100)],
        {| textIndex := 1; charIndex := 3; isDeleting := false;
           textContent := "" |}).
Proof.
  assert (H0 : 0 <= 0) by lia.
  exact (proj1 (empty_phrase_stalls ["Hi"; ""] 1 2 0 "") eq_refl H0).
Defined.

(** *** How long a phrase takes *)

(** The delays of a run of frames, added up. *)
Definition duration (fs : list frame) : Z := fold_right Z.add 0 (map snd fs).

Lemma duration_app (fs gs : list frame) :
  duration (fs ++ gs) = duration fs + duration gs.
Proof.
  unfold duration. induction fs as [|f fs IH]; [reflexivity|].
  cbn [app map fold_right]. rewrite IH. lia.
Qed.

Lemma duration_const (g : nat -> string) (d : Z) (ks : list nat) :
  duration (map (fun k => (g k, d)) ks) = d * Z.of_nat (length ks).
Proof.
  unfold duration. induction ks as [|k ks IH]; [cbn; lia|].
  cbn [map fold_right snd length]. rewrite IH. lia.
Qed.

Lemma duration_phrase_cycle (p : string) :
  p <> EmptyString ->
  duration (phrase_cycle p) = 150 * Z.of_nat (String.length p) + 2350.
Proof.
  intros Hne. unfold phrase_cycle, typed, deleted.
  rewrite !duration_app, !duration_const, length_rev, !length_seq.
  assert (1 <= String.length p)%nat by (destruct p; [contradiction|cbn; lia]).
  unfold duration. cbn. lia.
Qed.

(** From the start of a phrase of [len >= 1] characters, [2 * len] calls
    later the widget stands at the start of the next phrase of the list
    (the first one after the last), and the delays it asked for add up to
    [150 * len + 2350] milliseconds. *)
Theorem phrase_duration (texts : list string) (i : nat) (p t : string) :
  nth_error texts i = Some p -> p <> EmptyString ->
  exists fs s,
    run texts (2 * String.length p)
      {| textIndex := i; charIndex := 0; isDeleting := false;
         textContent := t |} = Some (fs, s)
    /\ duration fs = 150 * Z.of_nat (String.length p) + 2350
    /\ textIndex s = ((i + 1) mod length texts)%nat
    /\ charIndex s = 0 /\ isDeleting s = false.
Proof.
  intros Hp Hne. eexists _, _.
  split; [apply run_phrase_cycle; assumption|].
  split; [apply duration_phrase_cycle; exact Hne|]. repeat split.
Qed.

Lemma phrase_duration_witness :
  exists fs s,
    run texts 26 {| textIndex := 0; charIndex := 0; isDeleting := false;
                    textContent := "" |} = Some (fs, s)
    /\ duration fs = 4300.
Proof.
  destruct (phrase_duration texts 0 "App Developer" "" eq_refl)
    as (fs & s & Hrun & Hd & _); [discriminate|].
  exists fs, s. split; [exact Hrun|exact Hd].
Defined.

End TypingFacts.

(** ** More on the theme toggle *)

Module ThemeFacts.

Import Theme.

Definition moon : iconClasses := {| fa_moon := true; fa_sun := false |}.
Definition sun : iconClasses := {| fa_moon := false; fa_sun := true |}.

(** The page after [k] clicks on the toggle. *)
Definition clicks (k : nat) (p : page) : page := Nat.iter k click p.

(** The icon and the persisted value agree with the theme. *)
Definition settled (p : page) : Prop :=
  listening p = true
  /\ icon p = Some (if lightTheme p then sun else moon)
  /\ savedTheme p = Some (if lightTheme p then "light" else "dark").

Lemma settled_click (p : page) :
  listening p = true -> icon p = Some (if lightTheme p then sun else moon) ->
  settled (click p) /\ lightTheme (click p) = negb (lightTheme p).
Proof.
  intros Hl Hi. unfold click. rewrite Hl, Hi.
  destruct (lightTheme p); cbn; repeat split.
Qed.

(** On a page with the toggle, a moon icon and a dark body: whatever the
    persisted value, the theme after the load is light exactly when that
    value is ["light"], every click flips it, the icon is the sun exactly
    when the theme is light, and the persisted value is left as it was
    until the first click and names the theme from then on. *)
Theorem theme_follows_clicks (m : markup) (stored : option string) (k : nat) :
  is_Some (themeToggle m) -> themeIcon m = Some moon ->
  bodyLightTheme m = false ->
  let p := clicks k (initThemeToggle m stored) in
  lightTheme p = xorb (bool_decide (stored = Some "light")) (Nat.odd k)
  /\ icon p = Some (if lightTheme p then sun else moon)
  /\ savedTheme p = match k with
                    | O => stored
                    | S _ => Some (if lightTheme p then "light" else "dark")
                    end.
Proof.
  intros [[] Ht] Hi Hb. cbv zeta.
  assert (H0 : listening (initThemeToggle m stored) = true
               /\ lightTheme (initThemeToggle m stored)
                  = bool_decide (stored = Some "light")
               /\ icon (initThemeToggle m stored)
                  = Some (if lightTheme (initThemeToggle m stored)
                          then sun else moon)
               /\ savedTheme (initThemeToggle m stored) = stored).
  { unfold initThemeToggle. rewrite Ht, Hi, Hb.
    destruct (bool_decide (stored = Some "light")); repeat split. }
  destruct H0 as (Hl0 & Ht0 & Hi0 & Hs0).
  induction k as [|k IH].
  - change (clicks 0 ?p) with p. change (Nat.odd 0) with false.
    rewrite xorb_false_r. split; [exact Ht0|]. split; [exact Hi0|exact Hs0].
  - change (clicks (S k) ?p) with (click (clicks k p)).
    destruct IH as (IHt & IHi & IHs).
    assert (Hl : listening (clicks k (initThemeToggle m stored)) = true).
    { clear IHt IHi IHs. induction k as [|k IHk]; [exact Hl0|].
      change (clicks (S k) ?p) with (click (clicks k p)).
      unfold click. rewrite IHk.
      destruct (negb (lightTheme _)); reflexivity. }
    destruct (settled_click _ Hl IHi) as [(_ & Hi' & Hs') Ht'].
    split; [|split; assumption].
    rewrite Ht', IHt, Nat.odd_succ, <- Nat.negb_odd.
    destruct (bool_decide _), (Nat.odd k); reflexivity.
Qed.

Lemma theme_follows_clicks_witness :
  lightTheme (clicks 3 (initThemeToggle dark_markup (Some "blue"))) = true
  /\ savedTheme (clicks 3 (initThemeToggle dark_markup (Some "blue")))
     = Some "light".
Proof.
  assert (Ht : is_Some (themeToggle dark_markup)) by (eexists; reflexivity).
  destruct (theme_follows_clicks dark_markup (Some "blue") 3 Ht eq_refl eq_refl)
    as (H1 & _ & H3).
  split; [exact H1|exact H3].
Defined.

(** Without the toggle or without its icon the set-up returns before it
    reads the persisted value: the body keeps the theme of the markup even
    when ["light"] was saved, and clicks change nothing. *)
Theorem theme_needs_both_elements (m : markup) (stored : option string)
    (k : nat) :
  themeToggle m = None \/ themeIcon m = None ->
  lightTheme (initThemeToggle m stored) = bodyLightTheme m
  /\ clicks k (initThemeToggle m stored) = initThemeToggle m stored.
Proof.
  intros Hmiss.
  assert (Hinit : initThemeToggle m stored =
                  {| lightTheme := bodyLightTheme m; icon := themeIcon m;
                     listening := false; savedTheme := stored |}).
  { unfold initThemeToggle. destruct Hmiss as [H|H]; rewrite H;
      [reflexivity|destruct (themeToggle m); reflexivity]. }
  rewrite Hinit. split; [reflexivity|].
  induction k as [|k IH]; [reflexivity|].
  change (clicks (S k) ?p) with (click (clicks k p)). rewrite IH. reflexivity.
Qed.

Lemma theme_needs_both_elements_witness :
  lightTheme (initThemeToggle
                {| themeToggle := Some tt; themeIcon := None;
                   bodyLightTheme := false |} (Some "light")) = false.
Proof.
  exact (proj1 (theme_needs_both_elements
                  {| themeToggle := Some tt; themeIcon := None;
                     bodyLightTheme := false |} (Some "light") 0
                  (or_intror eq_refl))).
Defined.

End ThemeFacts.

(** ** The cursor loop and the frames it requests *)

Module CursorFacts.

Import Cursor.

Section Frames.

Variable rnd : Q -> Q.
Variable lerp : Q.

(** The cursor state and the number of [requestAnimationFrame(updateAll)]
    callbacks that the browser has yet to run. *)
Record scheduled := {
  state : cursor;
  frames : nat
}.

Inductive event :=
  | MouseMove (clientX clientY : Q)    (* the [mousemove] listener runs *)
  | Frame.                             (* the browser runs one callback *)

Definition handle (s : scheduled) (e : event) : scheduled :=
  match e with
  | MouseMove x y =>
      let (c, requested) := mousemove x y (state s) in
      {| state := c;
         frames := if requested then S (frames s) else frames s |}
  | Frame =>
      match frames s with
      | O => s
      | S k =>
          let (c, again) := updateAll rnd lerp (state s) in
          {| state := c; frames := if again then S k else k |}
      end
  end.

Definition run (s : scheduled) (es : list event) : scheduled :=
  fold_left handle es s.

(** One callback is pending while the loop is active, none when it is
    not. *)
Definition in_step (s : scheduled) : Prop :=
  frames s = if cursorActive (state s) then 1%nat else 0%nat.

Lemma in_step_handle (s : scheduled) (e : event) :
  in_step s -> in_step (handle s e).
Proof.
  unfold in_step. intros H. destruct e as [x y|]; cbn [handle].
  - unfold mousemove. cbn. rewrite H.
    destruct (cursorActive (state s)); reflexivity.
  - destruct (frames s) as [|k] eqn:Ek; [rewrite Ek; exact H|].
    destruct (cursorActive (state s)) eqn:Ea; [|discriminate].
    destruct (updateAll_active rnd lerp (state s) Ea)
      as (_ & _ & _ & _ & Hact & _).
    destruct (updateAll rnd lerp (state s)) as [c again].
    cbn [fst snd] in Hact. cbn [state frames]. rewrite Hact.
    injection H as ->. destruct again; reflexivity.
Qed.

(** From an idle loop, whatever the pointer does and whenever the browser
    runs the callbacks: exactly one callback is pending while
    [cursorActive] is set and none while it is not, so that two loops
    never run side by side; and a pointer move leaves the loop active. *)
Theorem one_frame_pending (c : cursor) (es : list event) (x y : Q) :
  cursorActive c = false ->
  let s := run {| state := c; frames := 0 |} es in
  frames s = (if cursorActive (state s) then 1%nat else 0%nat)
  /\ (frames s <= 1)%nat
  /\ cursorActive (state (handle s (MouseMove x y))) = true
  /\ frames (handle s (MouseMove x y)) = 1%nat.
Proof.
  intros Hc s.
  assert (Hs : in_step s).
  { subst s. unfold run.
    assert (H0 : in_step {| state := c; frames := 0 |})
      by (unfold in_step; cbn; rewrite Hc; reflexivity).
    revert H0. generalize {| state := c; frames := 0 |} as s0.
    induction es as [|e es IH]; intros s0 H0; [exact H0|].
    cbn [fold_left]. apply IH. apply in_step_handle. exact H0. }
  pose proof (in_step_handle s (MouseMove x y) Hs) as Hm.
  unfold in_step in Hs, Hm.
  assert (Ha : cursorActive (state (handle s (MouseMove x y))) = true)
    by reflexivity.
  split; [exact Hs|].
  split; [rewrite Hs; destruct (cursorActive (state s)); constructor; constructor|].
  split; [exact Ha|]. rewrite Hm, Ha. reflexivity.
Qed.

End Frames.

Lemma one_frame_pending_witness :
  frames (run Qred lerp_binary64
            {| state := {| mouseX := 0; mouseY := 0; cursorX := 0;
                           cursorY := 0; cursorActive := false;
                           customCursor := None; cursorGlow := None |};
               frames := 0 |}
            [MouseMove 4 3; MouseMove 5 3; Frame; MouseMove 6 3]) = 1%nat.
Proof.
  destruct (one_frame_pending Qred lerp_binary64
              {| mouseX := 0; mouseY := 0; cursorX := 0; cursorY := 0;
                 cursorActive := false; customCursor := None;
                 cursorGlow := None |}
              [MouseMove 4 3; MouseMove 5 3; Frame] 6 3 eq_refl)
    as (_ & _ & _ & H).
  exact H.
Defined.

End CursorFacts.

(** ** More on notifications *)

Module NotificationFacts.

Import Notification.

(** *** How long a notification stays *)

(** An event that neither shows another notification nor is the removal
    timer of the node [id]. *)
Definition leaves (id : nat) (e : event) : bool :=
  match e with
  | Show _ _ => false
  | TimeoutFires id' => negb (id' =? id)%nat
  end.

Lemma filter_filter_keep (P Q : node -> bool) (ns : list node) (n : node) :
  List.filter P ns = [n] -> Q n = true ->
  List.filter P (List.filter Q ns) = [n].
Proof.
  intros HP HQ.
  assert (E : List.filter P (List.filter Q ns) = List.filter Q (List.filter P ns)).
  { clear. induction ns as [|m ns IH]; [reflexivity|]. cbn.
    destruct (Q m) eqn:EQ, (P m) eqn:EP; cbn; rewrite ?EQ, ?EP, IH; reflexivity. }
  rewrite E, HP. cbn. rewrite HQ. reflexivity.
Qed.

Lemma pending_timeout (id id' : nat) (d : document) :
  id' <> id -> In id (timeouts d) -> In id (timeouts (timeout id' d)).
Proof.
  intros Hne Hin. unfold timeout. case_bool_decide; [|exact Hin].
  cbn [timeouts]. apply filter_In. split; [exact Hin|].
  apply negb_true_iff, Nat.eqb_neq. congruence.
Qed.

(** The notification with identity [id] is the one shown, and its timer
    is pending. *)
Definition shown (n : node) (d : document) : Prop :=
  notifications d = [n] /\ In (nodeId n) (timeouts d).

Lemma shown_handle (n : node) (d : document) (e : event) :
  leaves (nodeId n) e = true -> shown n d -> shown n (handle d e).
Proof.
  intros He [Hn Ht]. destruct e as [m ty|id']; [discriminate|].
  cbn [leaves] in He. apply negb_true_iff, Nat.eqb_neq in He.
  cbn [handle]. split; [|apply pending_timeout; assumption].
  unfold timeout. case_bool_decide; [|exact Hn].
  unfold notifications, remove_node in *. cbn [body].
  apply filter_filter_keep; [exact Hn|].
  apply negb_true_iff, Nat.eqb_neq. congruence.
Qed.

(** In a document with one notification at most, a notification that is
    shown with a message that holds no element of the class [notification]
    stays the one notification of the document, and the one element that
    the selector matches, through the firing of any timers but its own, and
    is gone when its own timer fires. *)
Theorem notification_until_own_timeout (message : list html) (type : string)
    (d : document) (es : list event) :
  (length (notifications d) <= 1)%nat ->
  matching_in message = 0%nat ->
  forallb (leaves (nextId d)) es = true ->
  let n := createNotification (nextId d) message type in
  let d' := run (showNotification message type d) es in
  notifications d' = [n]
  /\ selected d' = 1%nat
  /\ notifications (timeout (nextId d) d') = []
  /\ selected (timeout (nextId d) d') = 0%nat.
Proof.
  intros Hd Hplain Hes n d'.
  assert (Hs : shown n d').
  { subst d'. unfold run.
    assert (H0 : shown n (showNotification message type d)).
    { split.
      - rewrite notifications_showNotification.
        destruct (notifications d) as [|a [|b l]]; cbn [tail length] in *;
          [reflexivity|reflexivity|lia].
      - cbn. apply in_or_app. right. left. reflexivity. }
    revert H0 Hes. generalize (showNotification message type d) as s.
    induction es as [|e es IH]; intros s H0 Hes; [exact H0|].
    cbn in Hes. apply andb_prop in Hes as [He Hes]. cbn [fold_left].
    apply IH; [|exact Hes]. apply shown_handle; assumption. }
  destruct Hs as [Hn Ht].
  assert (Hgone : notifications (timeout (nextId d) d') = []).
  { unfold timeout.
    rewrite bool_decide_eq_true_2 by (apply list_elem_of_In; exact Ht).
    unfold notifications, remove_node in *. cbn [body].
    assert (E : forall (P Q : node -> bool) ns,
               List.filter P (List.filter Q ns) = List.filter Q (List.filter P ns)).
    { clear. intros P Q ns. induction ns as [|m ns IH]; [reflexivity|]. cbn.
      destruct (Q m) eqn:EQ, (P m) eqn:EP; cbn; rewrite ?EQ, ?EP, IH; reflexivity. }
    rewrite E, Hn. cbn. rewrite Nat.eqb_refl. reflexivity. }
  split; [exact Hn|]. split; [|split; [exact Hgone|]].
  - unfold selected. rewrite Hn. subst n.
    unfold list_sum, createNotification.
    cbn [map fold_right Notification.message].
    rewrite Hplain. reflexivity.
  - unfold selected. rewrite Hgone. reflexivity.
Qed.

Lemma notification_until_own_timeout_witness :
  notifications
    (run (showNotification (text "Saved") "success"
            (showNotification (text "Oops") "error" empty_document))
       [TimeoutFires 1])
  = [createNotification 2 (text "Saved") "success"].
Proof.
  assert (H1 : (length (notifications
                          (showNotification (text "Oops") "error" empty_document))
                <= 1)%nat) by (vm_compute; lia).
  exact (proj1 (notification_until_own_timeout (text "Saved") "success"
                  (showNotification (text "Oops") "error" empty_document)
                  [TimeoutFires 1] H1 eq_refl eq_refl)).
Defined.

(** *** The rest of the page *)

(** The elements that are no notifications. *)
Definition others (d : document) : list node :=
  List.filter (fun n => negb (has_class "notification" n)) (body d).

(** Identities are fresh, and no timer is set to remove an element that
    is no notification. *)
Definition tidy (d : document) : Prop :=
  Forall (fun n => (nodeId n < nextId d)%nat) (body d)
  /\ Forall (fun t => forall n, In n (others d) -> nodeId n <> t) (timeouts d).

Lemma others_remove_first (ns : list node) :
  List.filter (fun n => negb (has_class "notification" n))
    (remove_first (has_class "notification") ns)
  = List.filter (fun n => negb (has_class "notification" n)) ns.
Proof.
  induction ns as [|n ns IH]; [reflexivity|]. cbn.
  destruct (has_class "notification" n) eqn:E; cbn; [reflexivity|].
  rewrite E, IH. reflexivity.
Qed.

Lemma In_remove_first (sel : node -> bool) (ns : list node) (n : node) :
  In n (remove_first sel ns) -> In n ns.
Proof.
  induction ns as [|m ns IH]; [intros []|]. cbn.
  destruct (sel m); [right; assumption|]. intros [->|H]; [left|right]; auto.
Qed.

Lemma others_showNotification (message : list html) (type : string)
    (d : document) :
  others (showNotification message type d) = others d.
Proof.
  unfold others, showNotification. cbn [body].
  rewrite List.filter_app, others_remove_first. cbn.
  rewrite has_class_createNotification. cbn. apply app_nil_r.
Qed.

Lemma tidy_handle (d : document) (e : event) :
  tidy d -> tidy (handle d e) /\ others (handle d e) = others d.
Proof.
  intros [Hids Hts]. destruct e as [message type|id]; cbn [handle].
  - split; [|apply others_showNotification]. split.
    + cbn [showNotification body nextId]. apply Forall_app. split.
      * rewrite List.Forall_forall in Hids |- *. intros n Hn.
        apply In_remove_first in Hn. specialize (Hids n Hn). lia.
      * repeat constructor.
    + rewrite others_showNotification. cbn [showNotification timeouts].
      apply Forall_app. split; [exact Hts|]. constructor; [|constructor].
      intros n Hn. unfold others in Hn. apply filter_In in Hn as [Hn _].
      rewrite List.Forall_forall in Hids. specialize (Hids n Hn). lia.
  - unfold timeout. case_bool_decide as Hin; [|split; [split|]; auto].
    assert (Ho : others {| body := remove_node id (body d); nextId := nextId d;
                           timeouts := List.filter (fun t => negb (t =? id)%nat)
                                         (timeouts d) |} = others d).
    { unfold others. cbn [body]. unfold remove_node.
      rewrite List.Forall_forall in Hts.
      apply list_elem_of_In in Hin. specialize (Hts id Hin).
      unfold others in Hts. clear Hids Hin.
      induction (body d) as [|n ns IH]; [reflexivity|]. cbn.
      destruct (has_class "notification" n) eqn:E.
      - destruct (nodeId n =? id)%nat; cbn; rewrite ?E; cbn; apply IH;
          intros m Hm; apply Hts; cbn; rewrite E; exact Hm.
      - assert (Hne : nodeId n <> id)
          by (apply Hts; cbn; rewrite E; left; reflexivity).
        apply Nat.eqb_neq in Hne. rewrite Hne. cbn. rewrite E. cbn. f_equal.
        apply IH. intros m Hm. apply Hts. cbn. rewrite E. right. exact Hm. }
    split; [|exact Ho]. split.
    + cbn [body nextId]. unfold remove_node.
      rewrite List.Forall_forall in Hids |- *. intros n Hn.
      apply filter_In in Hn as [Hn _]. auto.
    + rewrite Ho. cbn [timeouts].
      rewrite List.Forall_forall in Hts |- *. intros t Ht.
      apply filter_In in Ht as [Ht _]. auto.
Qed.

(** On a page whose elements have identities older than the next one and
    that has no timer pending, whatever notifications are shown and
    whenever their timers fire, the elements that are no notifications
    stay as they are, in their order. *)
Theorem notifications_spare_the_page (d : document) (es : list event) :
  Forall (fun n => (nodeId n < nextId d)%nat) (body d) ->
  timeouts d = [] ->
  others (run d es) = others d.
Proof.
  intros Hids Ht.
  assert (H0 : tidy d) by (split; [exact Hids|rewrite Ht; constructor]).
  clear Hids Ht. unfold run. revert d H0.
  induction es as [|e es IH]; intros d H0; [reflexivity|].
  cbn [fold_left]. destruct (tidy_handle d e H0) as [Ht Ho].
  rewrite IH by exact Ht. exact Ho.
Qed.

Lemma notifications_spare_the_page_witness :
  others (run empty_document
            [Show (text "Oops") "error"; TimeoutFires 1; TimeoutFires 0])
  = body empty_document.
Proof.
  apply (notifications_spare_the_page empty_document
           [Show (text "Oops") "error"; TimeoutFires 1; TimeoutFires 0]);
    [repeat constructor|reflexivity].
Defined.

End NotificationFacts.

(** ** The preloader: [initPreloader] *)

Module Preloader.

(** The text of [#preloader-status]. *)
Inductive text :=
  | AsLoaded                 (* what the document came with *)
  | Text (s : string)
  | Undefined.               (* an index outside [statuses] was read *)

(** The closure of [runPreloader], the elements it writes (a missing one
    is [None]; a width is in percent, unset until first written) and its
    timers. *)
Record preloader := {
  progress : Q;
  progressBar : option (option Q);
  statusText : option text;
  loaded : bool;              (* does [#preloader] hold ['loaded']? *)
  interval : bool;            (* is the 200 ms interval live? *)
  finishing : nat;            (* the 400 ms timeouts that are pending *)
  fallback : bool             (* is the 3000 ms timeout pending? *)
}.

Definition statuses : list string :=
  ["Loading assets..."; "Initializing modules..."; "Preparing animations...";
   "Almost ready..."].

(** [statuses[i]] *)
Definition status_at (i : Z) : text :=
  if i <? 0 then Undefined
  else match nth_error statuses (Z.to_nat i) with
       | Some s => Text s
       | None => Undefined
       end.

(** The elements of the document the preloader looks up. *)
Record markup := {
  preloaderEl : option unit;
  progressBarEl : option unit;
  statusTextEl : option unit
}.

(** [runPreloader]; [None] when [#preloader] is missing and it returns. *)
Definition runPreloader (m : markup) : option preloader :=
  match preloaderEl m with
  | None => None
  | Some _ =>
      Some {| progress := 0;
              progressBar := (fun _ => None) <$> progressBarEl m;
              statusText := (fun _ => AsLoaded) <$> statusTextEl m;
              loaded := false;
              interval := true;
              finishing := 0;
              fallback := true |}
  end.

Section Arithmetic.

Variable rnd : Q -> Q.

(** The callback of the interval, with the result of [Math.random()]. *)
Definition tick (random : Q) (s : preloader) : preloader :=
  let progress := rnd (progress s + rnd (rnd (random * 25) + 5)) in
  let progress := if Qltb 100 progress then 100%Q else progress in
  let statusIndex :=
    Z.min (Qfloor (rnd (progress / 25))) (Z.of_nat (length statuses) - 1) in
  let done := Qle_bool 100 progress in
  {| progress := progress;
     progressBar := (fun _ => Some progress) <$> progressBar s;
     statusText := (fun _ => status_at statusIndex) <$> statusText s;
     loaded := loaded s;
     interval := negb done;
     finishing := if done then S (finishing s) else finishing s;
     fallback := fallback s |}.

(** The callback of the 400 ms timeout. *)
Definition finish (s : preloader) : preloader :=
  {| progress := progress s;
     progressBar := progressBar s;
     statusText := statusText s;
     loaded := true;
     interval := interval s;
     finishing := Nat.pred (finishing s);
     fallback := fallback s |}.

(** The callback of the 3000 ms timeout. *)
Definition fall_back (s : preloader) : preloader :=
  {| progress := progress s;
     progressBar := (fun _ => Some 100%Q) <$> progressBar s;
     statusText := statusText s;
     loaded := true;
     interval := false;
     finishing := finishing s;
     fallback := false |}.

Inductive event :=
  | IntervalFires (random : Q)
  | FinishFires
  | FallbackFires.

(** A timer fires only while it is live. The events carry no time: a
    trace is any order of firings, of which those that the clock allows
    (the interval every 200 ms, the fallback after 3000 ms) are a part. *)
Definition handle (s : preloader) (e : event) : preloader :=
  match e with
  | IntervalFires random => if interval s then tick random s else s
  | FinishFires => match finishing s with O => s | S _ => finish s end
  | FallbackFires => if fallback s then fall_back s else s
  end.

Definition run (s : preloader) (es : list event) : preloader :=
  fold_left handle es s.

End Arithmetic.

(** [Math.random()] returns a number of [0, 1). *)
Definition random_ok (e : event) : Prop :=
  match e with
  | IntervalFires random => (0 <= random < 1)%Q
  | _ => True
  end.

(** *** Properties *)

Section Rounded.

Variable rnd : Q -> Q.
Hypothesis rnd_error : rounds rnd.

Lemma twenty_fifth (x : Q) : (25 * (x / 25) == x)%Q.
Proof. field. Qed.

(** What a firing of the interval does to [progress]: it stays within
    [0, 100] and grows by 4.9 at least, unless it gets to 100. *)
Lemma progress_tick (random : Q) (s : preloader) :
  (0 <= random < 1)%Q -> (0 <= progress s <= 100)%Q ->
  let p := progress (tick rnd random s) in
  (0 <= p <= 100)%Q /\ (p < 100 -> progress s + (49 # 10) <= p)%Q.
Proof.
  intros Hr Hp. cbn [tick progress].
  assert (H1 : (0 <= random * 25)%Q) by lra.
  destruct (rounds_nonneg rnd _ rnd_error H1) as [H1l H1u].
  set (x1 := rnd (random * 25)) in *.
  assert (H2 : (0 <= x1 + 5)%Q) by (unfold u in *; lra).
  destruct (rounds_nonneg rnd _ rnd_error H2) as [H2l H2u].
  set (x2 := rnd (x1 + 5)) in *.
  assert (H3 : (0 <= progress s + x2)%Q) by (unfold u in *; lra).
  destruct (rounds_nonneg rnd _ rnd_error H3) as [H3l H3u].
  set (x3 := rnd (progress s + x2)) in *.
  destruct (Qltb 100 x3) eqn:E.
  - split; [lra|]. intros H. lra.
  - apply Qltb_ge in E. unfold u in *. split; [lra|]. intros _. lra.
Qed.

(** The index read from [statuses] is one of its four. *)
Lemma status_tick (p : Q) :
  (0 <= p <= 100)%Q ->
  exists t, status_at (Z.min (Qfloor (rnd (p / 25)))
                         (Z.of_nat (length statuses) - 1)) = Text t.
Proof.
  intros Hp. pose proof (twenty_fifth p) as H25.
  set (q := (p / 25)%Q) in *.
  assert (Hq : (0 <= q)%Q) by lra.
  destruct (rounds_nonneg rnd q rnd_error Hq) as [Hl Hu].
  assert (H0 : 0 <= Qfloor (rnd q)).
  { change 0 with (Qfloor 0). apply Qfloor_resp_le. unfold u in *. lra. }
  set (i := Z.min (Qfloor (rnd q)) (Z.of_nat (length statuses) - 1)).
  assert (Hi : 0 <= i <= 3) by (subst i; cbn; lia).
  unfold status_at. destruct (Z.ltb_spec i 0); [lia|].
  assert (Hn : (Z.to_nat i < 4)%nat) by lia.
  destruct (Z.to_nat i) as [|[|[|[|k]]]]; cbn; [eexists; reflexivity..|lia].
Qed.

(** The state is sound: [progress] and the width of the bar are within
    [0, 100], the status is one of [statuses], and the interval is cleared
    by the only two callbacks that clear it. *)
Definition sound (s : preloader) : Prop :=
  (0 <= progress s <= 100)%Q
  /\ statusText s <> Some Undefined
  /\ (forall w, progressBar s = Some (Some w) -> (0 <= w <= 100)%Q)
  /\ (fallback s = false -> loaded s = true /\ interval s = false)
  /\ (interval s = false -> fallback s = false \/ (progress s == 100)%Q).

Lemma sound_runPreloader (m : markup) (s : preloader) :
  runPreloader m = Some s -> sound s.
Proof.
  unfold runPreloader. destruct (preloaderEl m); [|discriminate].
  intros [= <-]. unfold sound. cbn. split; [lra|].
  split; [destruct (statusTextEl m); discriminate|].
  split; [destruct (progressBarEl m); discriminate|].
  split; discriminate.
Qed.

Lemma sound_handle (s : preloader) (e : event) :
  random_ok e -> sound s -> sound (handle rnd s e).
Proof.
  intros He Hs. pose proof Hs as (Hp & Hst & Hw & Hf & Hi).
  destruct e as [random| |]; cbn [handle].
  - destruct (interval s) eqn:Ei; [|exact Hs].
    destruct (progress_tick random s He Hp) as [Hp' Hstep]. cbv zeta in *.
    unfold sound.
    split; [exact Hp'|]. split; [|split; [|split]].
    + cbn [tick statusText]. destruct (statusText s); [|discriminate].
      destruct (status_tick _ Hp') as [shown Ht]. cbn [tick progress] in Ht.
      cbn [fmap option_fmap option_map]. rewrite Ht. discriminate.
    + cbn [tick progressBar]. intros w.
      destruct (progressBar s); cbn; [|discriminate].
      intros [= <-]. exact Hp'.
    + cbn [tick fallback loaded interval]. intros Hfb.
      destruct (Hf Hfb) as [_ Hint]. congruence.
    + cbn [tick interval]. intros Hdone. right.
      apply negb_false_iff, Qle_bool_iff in Hdone.
      cbn [tick progress] in Hp' |- *. lra.
  - destruct (finishing s); [exact Hs|].
    unfold sound. cbn [finish progress statusText progressBar fallback loaded interval].
    split; [exact Hp|]. split; [exact Hst|]. split; [exact Hw|].
    split; [|exact Hi]. intros Hfb. split; [reflexivity|]. apply Hf. exact Hfb.
  - destruct (fallback s); [|exact Hs].
    unfold sound. cbn [fall_back progress statusText progressBar fallback loaded interval].
    split; [exact Hp|]. split; [exact Hst|]. split; [|split; auto].
    intros w. destruct (progressBar s); cbn; [|discriminate].
    intros [= <-]. lra.
Qed.

(** With arithmetic that rounds as binary64 does and whatever numbers of
    [0, 1) [Math.random()] returns, after any firings of the three timers:
    [progress] is within [0, 100], and so is the width written to the bar;
    the status shown is one of the four of [statuses], never the text of
    an index outside the list; once the 3000 ms timeout has fired the
    preloader is loaded and the interval cleared; and the interval is
    cleared only by that timeout or with [progress] at 100. *)
Theorem preloader_sound (m : markup) (s0 : preloader) (es : list event) :
  runPreloader m = Some s0 -> Forall random_ok es ->
  let s := run rnd s0 es in
  (0 <= progress s <= 100)%Q
  /\ statusText s <> Some Undefined
  /\ (forall w, progressBar s = Some (Some w) -> (0 <= w <= 100)%Q)
  /\ (fallback s = false -> loaded s = true /\ interval s = false)
  /\ (interval s = false -> fallback s = false \/ (progress s == 100)%Q).
Proof.
  intros Hm Hes. cbv zeta. apply sound_runPreloader in Hm.
  unfold run. revert s0 Hm. induction Hes as [|e es He Hes IH]; intros s0 Hm;
    [exact Hm|].
  cbn [fold_left]. apply IH. apply sound_handle; assumption.
Qed.

(** Firings of the interval alone. *)
Definition ticks (randoms : list Q) : list event := map IntervalFires randoms.

Lemma run_done (s : preloader) (randoms : list Q) :
  interval s = false -> run rnd s (ticks randoms) = s.
Proof.
  intros Hi. unfold run, ticks. induction randoms as [|r rs IH]; [reflexivity|].
  cbn [map fold_left handle]. rewrite Hi. exact IH.
Qed.

(** A firing adds 30.1 at most, and [25 rho + 4.9] at least when the
    draw is [rho] at least, unless it gets to 100. *)
Lemma progress_tick_between (rho random : Q) (s : preloader) :
  (0 <= rho)%Q -> (rho <= random < 1)%Q -> (0 <= progress s <= 100)%Q ->
  let p := progress (tick rnd random s) in
  (p <= progress s + (301 # 10))%Q
  /\ (p < 100 -> progress s + (25 * rho + (49 # 10)) <= p)%Q.
Proof.
  intros H0 Hr Hp. cbn [tick progress].
  assert (H1 : (0 <= random * 25)%Q) by lra.
  destruct (rounds_nonneg rnd _ rnd_error H1) as [H1l H1u].
  set (x1 := rnd (random * 25)) in *.
  assert (H2 : (0 <= x1 + 5)%Q) by (unfold u in *; lra).
  destruct (rounds_nonneg rnd _ rnd_error H2) as [H2l H2u].
  set (x2 := rnd (x1 + 5)) in *.
  assert (H3 : (0 <= progress s + x2)%Q) by (unfold u in *; lra).
  destruct (rounds_nonneg rnd _ rnd_error H3) as [H3l H3u].
  set (x3 := rnd (progress s + x2)) in *.
  destruct (Qltb 100 x3) eqn:E.
  - apply Qltb_lt in E. unfold u in *. split; [lra|]. intros H. lra.
  - apply Qltb_ge in E. unfold u in *. split; [lra|]. intros _. lra.
Qed.

(** As long as [progress] cannot have got to 100 the interval stays live
    and nothing else is touched. *)
Lemma ticks_early (randoms : list Q) (s : preloader) :
  Forall (fun r => (0 <= r < 1)%Q) randoms ->
  interval s = true -> (0 <= progress s)%Q ->
  (progress s + (301 # 10) * inject_Z (Z.of_nat (length randoms)) < 100)%Q ->
  let s' := run rnd s (ticks randoms) in
  interval s' = true /\ finishing s' = finishing s /\ loaded s' = loaded s
  /\ (progress s' < 100)%Q.
Proof.
  intros Hrs. revert s. induction Hrs as [|r rs Hr Hrs IH]; intros s Hi Hp Hk.
  - cbn [length] in Hk. change (inject_Z (Z.of_nat 0)) with 0%Q in Hk.
    cbv zeta. cbn. repeat split; [exact Hi|lra].
  - cbv zeta. unfold run, ticks. cbn [map fold_left handle]. rewrite Hi.
    fold (ticks rs). fold (run rnd (tick rnd r s) (ticks rs)).
    cbn [length] in Hk. rewrite Nat2Z.inj_succ in Hk. unfold Z.succ in Hk.
    rewrite inject_Z_plus in Hk. change (inject_Z 1) with 1%Q in Hk.
    pose proof (Cursor.inject_nat_nonneg (length rs)) as Hn.
    assert (Hp100 : (0 <= progress s <= 100)%Q) by lra.
    assert (Hr0 : (0 <= r < 1)%Q) by exact Hr.
    destruct (progress_tick r s Hr0 Hp100) as [Hp' _].
    destruct (progress_tick_between 0 r s (Qle_refl 0) Hr0 Hp100) as [Hup _].
    cbv zeta in *.
    assert (Hlt : (progress (tick rnd r s) < 100)%Q) by lra.
    assert (Ei : Qle_bool 100 (progress (tick rnd r s)) = false).
    { apply Qltb_lt in Hlt. unfold Qltb in Hlt.
      apply negb_true_iff in Hlt. exact Hlt. }
    assert (Hlive : interval (tick rnd r s) = true)
      by (cbn [tick interval progress] in Ei |- *; rewrite Ei; reflexivity).
    destruct (IH (tick rnd r s) Hlive) as (H1 & H2 & H3 & H4); [lra|lra|].
    split; [exact H1|]. split; [|split; [|exact H4]].
    + rewrite H2. cbn [tick finishing progress] in Ei |- *. rewrite Ei.
      reflexivity.
    + rewrite H3. reflexivity.
Qed.

Lemma ticks_complete (rho : Q) (randoms : list Q) (s : preloader) :
  (0 <= rho)%Q ->
  Forall (fun r => (rho <= r < 1)%Q) randoms ->
  interval s = true -> finishing s = 0%nat -> (0 <= progress s <= 100)%Q ->
  (100 - progress s
   < (25 * rho + (49 # 10)) * inject_Z (Z.of_nat (length randoms)))%Q ->
  let s' := run rnd s (ticks randoms) in
  interval s' = false /\ (progress s' == 100)%Q /\ finishing s' = 1%nat
  /\ loaded s' = loaded s /\ fallback s' = fallback s.
Proof.
  intros H0 Hrs. revert s.
  induction Hrs as [|r rs Hr Hrs IH]; intros s Hi Hf Hp Hk.
  - exfalso. cbn [length] in Hk. change (inject_Z (Z.of_nat 0)) with 0%Q in Hk. lra.
  - cbv zeta. unfold run, ticks. cbn [map fold_left handle]. rewrite Hi.
    fold (ticks rs). fold (run rnd (tick rnd r s) (ticks rs)).
    assert (Hr0 : (0 <= r < 1)%Q) by lra.
    destruct (progress_tick r s Hr0 Hp) as [Hp' _].
    destruct (progress_tick_between rho r s H0 Hr Hp) as [_ Hstep].
    cbv zeta in *.
    destruct (interval (tick rnd r s)) eqn:Ei.
    + assert (Hlt : (progress (tick rnd r s) < 100)%Q).
      { cbn [tick interval] in Ei. apply negb_true_iff in Ei.
        apply Qltb_lt. unfold Qltb. cbn [tick progress]. rewrite Ei. reflexivity. }
      destruct (IH (tick rnd r s) Ei) as (H1 & H2 & H3 & H4 & H5);
        [|exact Hp'| |split; [exact H1|]; split; [exact H2|];
                       split; [exact H3|];
                       split; [rewrite H4|rewrite H5]; reflexivity].
      * cbn [tick finishing interval] in Ei |- *.
        apply negb_true_iff in Ei. rewrite Ei. exact Hf.
      * specialize (Hstep Hlt). cbn [length] in Hk.
        rewrite Nat2Z.inj_succ in Hk. unfold Z.succ in Hk.
        rewrite inject_Z_plus in Hk. change (inject_Z 1) with 1%Q in Hk.
        set (N := inject_Z (Z.of_nat (length rs))) in *.
        assert (E : ((25 * rho + (49 # 10)) * (N + 1)
                     == (25 * rho + (49 # 10)) * N + (25 * rho + (49 # 10)))%Q)
          by ring.
        rewrite E in Hk. set (g := ((25 * rho + (49 # 10)) * N)%Q) in *. lra.
    + rewrite run_done by exact Ei. split; [exact Ei|].
      cbn [tick interval finishing loaded fallback] in Ei |- *.
      apply negb_false_iff in Ei. rewrite Ei, Hf.
      split; [|repeat split].
      apply Qle_bool_iff in Ei. cbn [tick progress] in Hp' |- *. lra.
Qed.

(** The interval fires every 200 ms and the fallback is due after 3000 ms:
    12 firings at most come 400 ms or more before it. Within these,
    whatever [Math.random()] returns: the interval never completes before
    its fourth firing (the preloader stays for 1200 ms at least); and when
    every draw is [rho] at least and the number [n] of firings has
    [n (25 rho + 4.9) > 100], the interval has completed by itself:
    [progress] is 100, the interval is cleared, one 400 ms timeout is
    pending with the fallback still to come, and [#preloader] is loaded
    once that timeout fires. Four draws of 0.9 are enough. *)
Theorem preloader_completes (m : markup) (s0 : preloader) (randoms : list Q)
    (rho : Q) :
  runPreloader m = Some s0 ->
  (0 <= rho)%Q -> Forall (fun r => (rho <= r < 1)%Q) randoms ->
  (length randoms <= 12)%nat ->
  let s := run rnd s0 (ticks randoms) in
  ((length randoms <= 3)%nat ->
   interval s = true /\ finishing s = 0%nat /\ loaded s = false
   /\ (progress s < 100)%Q)
  /\ ((100 < (25 * rho + (49 # 10))
             * inject_Z (Z.of_nat (length randoms)))%Q ->
      interval s = false /\ (progress s == 100)%Q /\ finishing s = 1%nat
      /\ loaded s = false /\ fallback s = true
      /\ loaded (handle rnd s FinishFires) = true).
Proof.
  intros Hm H0 Hrs _ s.
  unfold runPreloader in Hm. destruct (preloaderEl m); [|discriminate].
  injection Hm as <-. split.
  - intros Hlen.
    assert (Hrs0 : Forall (fun r => (0 <= r < 1)%Q) randoms).
    { eapply Forall_impl; [exact Hrs|]. cbn. intros r Hr. lra. }
    assert (HK : (inject_Z (Z.of_nat (length randoms)) <= 3)%Q).
    { change 3%Q with (inject_Z 3). rewrite <- Zle_Qle. lia. }
    subst s.
    match goal with
    | |- context [run rnd ?s1 _] =>
        destruct (ticks_early randoms s1 Hrs0) as (H1 & H2 & H3 & H4);
          [reflexivity|cbn; lra|cbn [progress]; lra|]
    end.
    auto.
  - intros Hk.
    subst s.
    match goal with
    | |- context [run rnd ?s1 _] =>
        destruct (ticks_complete rho randoms s1 H0 Hrs) as
          (Hi & Hp & Hf & Hl & Hfb);
          [reflexivity|reflexivity|cbn; lra|cbn [progress]; lra|]
    end.
    split; [exact Hi|]. split; [exact Hp|]. split; [exact Hf|].
    split; [exact Hl|]. split; [exact Hfb|].
    cbn [handle]. rewrite Hf. reflexivity.
Qed.

End Rounded.

Definition all_there : markup :=
  {| preloaderEl := Some tt; progressBarEl := Some tt; statusTextEl := Some tt |}.

Definition started : preloader :=
  {| progress := 0; progressBar := Some None; statusText := Some AsLoaded;
     loaded := false; interval := true; finishing := 0; fallback := true |}.

Lemma preloader_sound_witness :
  statusText (run chop started [IntervalFires (1 # 2); FallbackFires])
  <> Some Undefined.
Proof.
  assert (Hes : Forall random_ok [IntervalFires (1 # 2); FallbackFires]).
  { repeat constructor; cbn; lra. }
  exact (proj1 (proj2 (preloader_sound chop rounds_chop all_there started
                         [IntervalFires (1 # 2); FallbackFires] eq_refl Hes))).
Defined.

(** Four draws of 0.9 and more: the fourth firing, at 800 ms, completes. *)
Lemma preloader_completes_witness :
  interval (run chop started
              (ticks [9 # 10; 19 # 20; 9 # 10; 99 # 100])) = false
  /\ interval (run chop started (ticks [9 # 10; 19 # 20; 9 # 10])) = true.
Proof.
  assert (H0 : (0 <= 9 # 10)%Q) by lra.
  assert (H4 : Forall (fun r => (9 # 10 <= r < 1)%Q)
                 [9 # 10; 19 # 20; 9 # 10; 99 # 100])
    by (repeat constructor; cbn; lra).
  assert (H3 : Forall (fun r => (9 # 10 <= r < 1)%Q) [9 # 10; 19 # 20; 9 # 10])
    by (repeat constructor; cbn; lra).
  split.
  - destruct (preloader_completes chop rounds_chop all_there started
                [9 # 10; 19 # 20; 9 # 10; 99 # 100] (9 # 10) eq_refl H0 H4)
      as [_ H]; [cbn; lia|].
    apply H. vm_compute. reflexivity.
  - destruct (preloader_completes chop rounds_chop all_there started
                [9 # 10; 19 # 20; 9 # 10] (9 # 10) eq_refl H0 H3)
      as [H _]; [cbn; lia|].
    apply H. cbn. lia.
Defined.

End Preloader.

(** ** Project filters: the [click] listener of the filter buttons *)

Module Filters.

(** A [.filter-btn]: its [data-filter] (absent: [None]) and whether it
    holds ['active']. *)
Record filterBtn := {
  filter : option string;
  btnActive : bool
}.

Inductive displayed := Block | Hidden.        (* ['block'], ['none'] *)

(** A [.project-card]: its [data-category], the inline styles the listener
    writes (unset until first written; opacity is ['1'] or ['0'], the
    transform [translateY] of so many pixels), and the callbacks that hold
    the card and have yet to run: animation frames that show it, 300 ms
    timeouts that hide it. *)
Record card := {
  category : option string;
  display : option displayed;
  opacity : option bool;
  translateY : option Z;
  showing : nat;
  hiding : nat
}.

Record page := {
  buttons : list filterBtn;
  cards : list card
}.

(** [filter === 'all' || card.dataset.category === filter] *)
Definition matches (f : option string) (c : card) : bool :=
  bool_decide (f = Some "all") || bool_decide (category c = f).

(** The body of [forEach] over the cards. *)
Definition apply_filter (f : option string) (c : card) : card :=
  if matches f c
  then {| category := category c; display := Some Block;
          opacity := opacity c; translateY := translateY c;
          showing := S (showing c); hiding := hiding c |}
  else {| category := category c; display := display c;
          opacity := Some false; translateY := Some 20;
          showing := showing c; hiding := S (hiding c) |}.

(** A click whose target lies within the button at position [i], if
    within any. *)
Definition click (target : option nat) (p : page) : page :=
  match target with
  | None => p
  | Some i =>
      match buttons p !! i with
      | None => p
      | Some filterBtn =>
          {| buttons := imap (fun j b => {| filter := filter b;
                                            btnActive := bool_decide (j = i) |})
                             (buttons p);
             cards := map (apply_filter (filter filterBtn)) (cards p) |}
      end
  end.

(** The callbacks passed to [requestAnimationFrame], run at the next
    frame. *)
Definition show (c : card) : card :=
  match showing c with
  | O => c
  | S _ => {| category := category c; display := display c;
              opacity := Some true; translateY := Some 0;
              showing := 0; hiding := hiding c |}
  end.

(** One of the 300 ms timeouts of a card. *)
Definition hide (c : card) : card :=
  match hiding c with
  | O => c
  | S k => {| category := category c; display := Some Hidden;
              opacity := opacity c; translateY := translateY c;
              showing := showing c; hiding := k |}
  end.

Inductive event :=
  | Click (target : option nat)
  | AnimationFrame
  | TimeoutFires (k : nat).        (* a timeout of the card at position [k] *)

Definition handle (p : page) (e : event) : page :=
  match e with
  | Click target => click target p
  | AnimationFrame => {| buttons := buttons p; cards := map show (cards p) |}
  | TimeoutFires k => {| buttons := buttons p; cards := alter hide k (cards p) |}
  end.

Definition run (p : page) (es : list event) : page := fold_left handle es p.

(** No callback is pending. *)
Definition quiet (c : card) : Prop := showing c = 0%nat /\ hiding c = 0%nat.

Definition is_click (e : event) : bool :=
  match e with Click _ => true | _ => false end.

(** *** Properties *)

(** Where a card stands under the filter [f] while the callbacks of the
    click are running. *)
Definition filtered (f : option string) (c : card) : Prop :=
  if matches f c
  then display c = Some Block /\ hiding c = 0%nat
       /\ (showing c = 0%nat -> opacity c = Some true /\ translateY c = Some 0)
  else opacity c = Some false /\ translateY c = Some 20 /\ showing c = 0%nat
       /\ (hiding c = 0%nat -> display c = Some Hidden).

Lemma matches_apply_filter (f g : option string) (c : card) :
  matches f (apply_filter g c) = matches f c.
Proof. unfold apply_filter. destruct (matches g c); reflexivity. Qed.

Lemma filtered_apply_filter (f : option string) (c : card) :
  quiet c -> filtered f (apply_filter f c).
Proof.
  intros [Hs Hh]. unfold filtered. rewrite matches_apply_filter.
  unfold apply_filter. destruct (matches f c); cbn.
  - split; [reflexivity|]. split; [exact Hh|]. discriminate.
  - split; [reflexivity|]. split; [reflexivity|]. split; [exact Hs|]. discriminate.
Qed.

Lemma filtered_show (f : option string) (c : card) :
  filtered f c -> filtered f (show c).
Proof.
  unfold filtered, show. destruct (showing c) eqn:E; [rewrite E; auto|].
  unfold matches. cbn. destruct (_ || _).
  - intros (Hd & Hh & _). auto.
  - intros (_ & _ & H & _). discriminate.
Qed.

Lemma filtered_hide (f : option string) (c : card) :
  filtered f c -> filtered f (hide c).
Proof.
  unfold filtered, hide. destruct (hiding c) eqn:E; [rewrite E; auto|].
  unfold matches. cbn. destruct (_ || _).
  - intros (_ & H & _). discriminate.
  - intros (Ho & Ht & Hs & _). auto.
Qed.

Lemma filtered_handle (f : option string) (p : page) (e : event) :
  is_click e = false -> Forall (filtered f) (cards p) ->
  Forall (filtered f) (cards (handle p e)) /\ buttons (handle p e) = buttons p.
Proof.
  intros He Hp. destruct e as [t| |k]; [discriminate| |]; cbn [handle cards buttons].
  - split; [|reflexivity]. apply Forall_map.
    eapply Forall_impl; [exact Hp|]. intros c. apply filtered_show.
  - split; [|reflexivity]. apply Forall_alter; [exact Hp|].
    intros c _. apply filtered_hide.
Qed.

(** On a page where no callback is pending, click the button at position
    [i] and let any callbacks run: the button at [i] is the one active
    button, and once no callback is pending the cards that match its filter
    ([all], or the category of the card) are displayed as blocks, opaque
    and in place, and the others are not displayed. *)
Theorem filter_settles (p : page) (i : nat) (b : filterBtn) (es : list event) :
  Forall quiet (cards p) -> buttons p !! i = Some b ->
  forallb (fun e => negb (is_click e)) es = true ->
  let p' := run (click (Some i) p) es in
  (forall j b', buttons p' !! j = Some b' -> btnActive b' = true <-> j = i)
  /\ (Forall quiet (cards p') ->
      Forall (fun c =>
                if matches (filter b) c
                then display c = Some Block /\ opacity c = Some true
                     /\ translateY c = Some 0
                else display c = Some Hidden /\ opacity c = Some false
                     /\ translateY c = Some 20)
             (cards p')).
Proof.
  intros Hq Hb Hes p'.
  assert (H0 : Forall (filtered (filter b)) (cards (click (Some i) p))
               /\ forall j b', buttons (click (Some i) p) !! j = Some b' ->
                               btnActive b' = true <-> j = i).
  { unfold click. rewrite Hb. cbn [cards buttons]. split.
    - apply Forall_map. eapply Forall_impl; [exact Hq|].
      intros c. apply filtered_apply_filter.
    - intros j b'. rewrite list_lookup_imap.
      destruct (buttons p !! j); cbn; [|discriminate].
      intros [= <-]. cbn. apply bool_decide_eq_true. }
  assert (H : Forall (filtered (filter b)) (cards p')
              /\ buttons p' = buttons (click (Some i) p)).
  { subst p'. unfold run. destruct H0 as [H0 _].
    revert H0 Hes. generalize (click (Some i) p) as q.
    induction es as [|e es IH]; intros q H0 Hes; [split; [exact H0|reflexivity]|].
    cbn in Hes. apply andb_prop in Hes as [He Hes]. cbn [fold_left].
    apply negb_true_iff in He.
    destruct (filtered_handle (filter b) q e He H0) as [H1 Hbq].
    destruct (IH _ H1 Hes) as [H2 Hb2]. split; [exact H2|congruence]. }
  destruct H as [Hf Hbs]. split; [rewrite Hbs; exact (proj2 H0)|].
  intros Hquiet. rewrite List.Forall_forall in Hf, Hquiet |- *.
  intros c Hc. specialize (Hf c Hc). destruct (Hquiet c Hc) as [Hs Hh].
  unfold filtered in Hf. destruct (matches (filter b) c).
  - destruct Hf as (Hd & _ & Ho). destruct (Ho Hs). auto.
  - destruct Hf as (Ho & Ht & _ & Hd). auto.
Qed.

(** Two buttons, for everything and for web projects, and two cards. *)
Definition gallery : page :=
  {| buttons := [ {| filter := Some "all"; btnActive := true |};
                  {| filter := Some "web"; btnActive := false |} ];
     cards := [ {| category := Some "web"; display := None; opacity := None;
                   translateY := None; showing := 0; hiding := 0 |};
                {| category := Some "app"; display := None; opacity := None;
                   translateY := None; showing := 0; hiding := 0 |} ] |}.

Lemma filter_settles_witness :
  cards (run (click (Some 1%nat) gallery) [AnimationFrame; TimeoutFires 1]) =
  [ {| category := Some "web"; display := Some Block; opacity := Some true;
       translateY := Some 0; showing := 0; hiding := 0 |};
    {| category := Some "app"; display := Some Hidden; opacity := Some false;
       translateY := Some 20; showing := 0; hiding := 0 |} ]
  /\ Forall (fun c => if matches (Some "web") c
                      then display c = Some Block /\ opacity c = Some true
                           /\ translateY c = Some 0
                      else display c = Some Hidden /\ opacity c = Some false
                           /\ translateY c = Some 20)
            (cards (run (click (Some 1%nat) gallery)
                      [AnimationFrame; TimeoutFires 1])).
Proof.
  split; [reflexivity|].
  assert (Hq : Forall quiet (cards gallery)) by (repeat constructor).
  apply (proj2 (filter_settles gallery 1 {| filter := Some "web"; btnActive := false |}
                  [AnimationFrame; TimeoutFires 1] Hq eq_refl eq_refl)).
  repeat constructor.
Defined.

Lemma lookup_map (f : card -> card) (cs : list card) (k : nat) :
  map f cs !! k = f <$> cs !! k.
Proof.
  revert k. induction cs as [|c cs IH]; intros [|k]; cbn; auto.
Qed.

(** A timeout outlives its click. A card that the filter clicked first
    leaves out and the filter clicked next takes in is hidden all the same
    when the timeout of the first click fires after the second click: it is
    not displayed, although it matches the filter of the active button and
    no callback is left to display it. *)
Theorem filter_stale_timeout (p : page) (i1 i2 k : nat) (b1 b2 : filterBtn)
    (c : card) :
  buttons p !! i1 = Some b1 -> buttons p !! i2 = Some b2 ->
  cards p !! k = Some c -> quiet c ->
  matches (filter b1) c = false -> matches (filter b2) c = true ->
  let p' := run p [Click (Some i1); Click (Some i2); AnimationFrame;
                   TimeoutFires k] in
  exists c',
    cards p' !! k = Some c'
    /\ matches (filter b2) c' = true
    /\ display c' = Some Hidden
    /\ quiet c'
    /\ (forall j b', buttons p' !! j = Some b' -> btnActive b' = true <-> j = i2).
Proof.
  intros H1 H2 Hc [Hs Hh] Hm1 Hm2. cbv zeta.
  cbn [run fold_left handle].
  assert (E1 : click (Some i1) p =
               {| buttons := imap (fun j b => {| filter := filter b;
                                                 btnActive := bool_decide (j = i1) |})
                                  (buttons p);
                  cards := map (apply_filter (filter b1)) (cards p) |})
    by (unfold click; rewrite H1; reflexivity).
  rewrite E1. unfold click. cbn [buttons cards].
  rewrite list_lookup_imap, H2.
  cbn [fmap option_fmap option_map filter buttons cards].
  rewrite list_lookup_alter_eq, !lookup_map, Hc.
  cbn [fmap option_fmap option_map].
  assert (Hm2' : matches (filter b2)
                   {| category := category c; display := display c;
                      opacity := Some false; translateY := Some 20;
                      showing := showing c; hiding := S (hiding c) |} = true)
    by exact Hm2.
  assert (E : hide (show (apply_filter (filter b2) (apply_filter (filter b1) c)))
              = {| category := category c; display := Some Hidden;
                   opacity := Some true; translateY := Some 0;
                   showing := 0; hiding := 0 |}).
  { unfold apply_filter at 2. rewrite Hm1. unfold apply_filter. rewrite Hm2'.
    unfold show, hide. cbn. rewrite Hh. reflexivity. }
  rewrite E. eexists. split; [reflexivity|].
  split; [exact Hm2|]. split; [reflexivity|]. split; [split; reflexivity|].
  intros j b'. rewrite !list_lookup_imap.
  destruct (buttons p !! j); cbn; [|discriminate].
  intros [= <-]. cbn. apply bool_decide_eq_true.
Qed.

Lemma filter_stale_timeout_witness :
  exists c',
    cards (run gallery [Click (Some 1%nat); Click (Some 0%nat); AnimationFrame;
                        TimeoutFires 1]) !! 1%nat = Some c'
    /\ display c' = Some Hidden.
Proof.
  destruct (filter_stale_timeout gallery 1 0 1
              {| filter := Some "web"; btnActive := false |}
              {| filter := Some "all"; btnActive := true |}
              {| category := Some "app"; display := None; opacity := None;
                 translateY := None; showing := 0; hiding := 0 |}
              eq_refl eq_refl eq_refl (conj eq_refl eq_refl) eq_refl eq_refl)
    as (c' & Hk & _ & Hd & _).
  exists c'. split; [exact Hk|exact Hd].
Defined.

End Filters.

(** ** The counters: what they show on the way, and the fun-fact counters

    [animateFunCounter] is [animateCounter] with 60 steps and a localized
    text. The targets are the integers [parseInt] returns. *)

Module CounterFacts.

Import Counter.

Section Shown.

Variable rnd : Q -> Q.

(** The state when [animateFunCounter] returns. *)
Definition animateFunCounter (target : Z) : funCounter :=
  {| funCurrent := 0; funText := None; funTimer := true |}.

(** [n] periods of the interval of a fun-fact counter. *)
Fixpoint funRun (target : Z) (n : nat) (c : funCounter) : funCounter :=
  match n with
  | O => c
  | S n => if funTimer c then funRun target n (funTick rnd target c) else c
  end.

(** What holds of a counter between two firings: while its timer is live
    [current] is below the target and the text, once written, is its floor. *)
Definition on_the_way (target : Z) (c : counter) : Prop :=
  if timer c
  then (0 <= current c)%Q /\ (current c < inject_Z target)%Q
       /\ (textContent c = None \/ textContent c = Some (Qfloor (current c)))
  else textContent c = Some target.

Lemma run_snoc (target : Z) (n : nat) (c : counter) :
  run rnd target (S n) c =
  (if timer (run rnd target n c)
   then tick rnd target (run rnd target n c)
   else run rnd target n c).
Proof.
  revert c. induction n as [|n IH]; intros c.
  - cbn. destruct (timer c); reflexivity.
  - change (run rnd target (S (S n)) c)
      with (if timer c then run rnd target (S n) (tick rnd target c) else c).
    destruct (timer c) eqn:E.
    + rewrite IH. cbn [run]. rewrite E. reflexivity.
    + cbn [run]. rewrite E, E. reflexivity.
Qed.

Lemma funRun_stopped (target : Z) (n : nat) (c : funCounter) :
  funTimer c = false -> funRun target n c = c.
Proof. intros H. destruct n; cbn; [|rewrite H]; reflexivity. Qed.

Lemma funCurrent_funTick (target : Z) (c : funCounter) :
  funCurrent (funTick rnd target c)
  = rnd (funCurrent c + rnd (inject_Z target / 60)).
Proof. unfold funTick. destruct (Qle_bool _ _); reflexivity. Qed.

Lemma funTimer_funTick (target : Z) (c : funCounter) :
  funTimer (funTick rnd target c)
  = negb (Qle_bool (inject_Z target) (funCurrent (funTick rnd target c))).
Proof. unfold funTick. destruct (Qle_bool _ _) eqn:E; cbn; rewrite E; reflexivity. Qed.

Hypothesis rnd_error : rounds rnd.

Lemma floor_below (x : Q) (target : Z) :
  (0 <= x)%Q -> (x < inject_Z target)%Q -> 0 <= Qfloor x <= target.
Proof.
  intros H0 Hlt. split.
  - change 0 with (Qfloor 0). apply Qfloor_resp_le. exact H0.
  - pose proof (Qfloor_le x) as Hf.
    assert (Hq : (inject_Z (Qfloor x) < inject_Z target)%Q) by lra.
    rewrite <- Zlt_Qlt in Hq. lia.
Qed.

(** A positive target: a firing does not take [current] back. *)
Lemma tick_grows (target : Z) (c : counter) :
  0 < target ->
  (0 <= current c)%Q -> (current c < inject_Z target)%Q ->
  (current c <= current (tick rnd target c))%Q.
Proof.
  intros Ht H0 Hlt.
  pose proof (tick_progress rnd rnd_error target c Ht H0 Hlt) as Hp.
  assert (HT : (0 < inject_Z target)%Q)
    by (change 0%Q with (inject_Z 0); rewrite <- Zlt_Qlt; exact Ht).
  lra.
Qed.

Lemma on_the_way_tick (target : Z) (c : counter) :
  0 < target -> timer c = true -> on_the_way target c ->
  on_the_way target (tick rnd target c)
  /\ (forall v, textContent c = Some v ->
        exists v', textContent (tick rnd target c) = Some v' /\ v <= v').
Proof.
  intros Ht Hc Hw. unfold on_the_way in Hw. rewrite Hc in Hw.
  destruct Hw as (H0 & Hlt & Htext).
  pose proof (tick_grows target c Ht H0 Hlt) as Hg.
  rewrite current_tick in Hg. unfold on_the_way, tick.
  destruct (Qle_bool (inject_Z target) (rnd (current c + increment rnd target)))
    eqn:E; cbn [timer current textContent].
  - split; [reflexivity|]. intros v Hv. exists target. split; [reflexivity|].
    destruct Htext as [Hn|Hf]; [congruence|].
    rewrite Hf in Hv. injection Hv as <-.
    apply (floor_below (current c) target H0 Hlt).
  - assert (Hlt' : (rnd (current c + increment rnd target) < inject_Z target)%Q).
    { apply Qltb_lt. unfold Qltb. rewrite E. reflexivity. }
    split.
    + split; [lra|]. split; [exact Hlt'|]. right. reflexivity.
    + intros v Hv. eexists. split; [reflexivity|].
      destruct Htext as [Hn|Hf]; [congruence|].
      rewrite Hf in Hv. injection Hv as <-.
      apply Qfloor_resp_le. exact Hg.
Qed.

Lemma on_the_way_bounds (target : Z) (c : counter) (v : Z) :
  0 < target -> on_the_way target c -> textContent c = Some v ->
  0 <= v <= target.
Proof.
  intros Ht Hw Hv. unfold on_the_way in Hw. destruct (timer c).
  - destruct Hw as (H0 & Hlt & [Hn|Hf]); [congruence|].
    rewrite Hf in Hv. injection Hv as <-. apply floor_below; assumption.
  - rewrite Hw in Hv. injection Hv as <-. lia.
Qed.

Lemma on_the_way_run (target : Z) (n : nat) :
  0 < target -> on_the_way target (run rnd target n (animateCounter target)).
Proof.
  intros Ht. induction n as [|n IH].
  - cbn. split; [lra|]. split; [|left; reflexivity].
    change 0%Q with (inject_Z 0). rewrite <- Zlt_Qlt. exact Ht.
  - rewrite run_snoc.
    destruct (timer (run rnd target n (animateCounter target))) eqn:E; [|exact IH].
    apply on_the_way_tick; assumption.
Qed.

(** A positive target, however the arithmetic rounds: the number a counter
    shows is never negative and never above the target, and a firing of the
    timer never takes it down. *)
Theorem counter_never_overshoots (target : Z) (n : nat) (v : Z) :
  0 < target ->
  textContent (run rnd target n (animateCounter target)) = Some v ->
  0 <= v <= target
  /\ exists v',
       textContent (run rnd target (S n) (animateCounter target)) = Some v'
       /\ v <= v' <= target.
Proof.
  intros Ht Hv. pose proof (on_the_way_run target n Ht) as Hw.
  pose proof (on_the_way_run target (S n) Ht) as Hw'.
  split; [exact (on_the_way_bounds target _ v Ht Hw Hv)|].
  rewrite run_snoc in Hw' |- *.
  destruct (timer (run rnd target n (animateCounter target))) eqn:E.
  - destruct (on_the_way_tick target _ Ht E Hw) as [_ Hstep].
    destruct (Hstep v Hv) as (v' & Hv' & Hle).
    exists v'. split; [exact Hv'|]. split; [exact Hle|].
    apply (on_the_way_bounds target _ v' Ht Hw' Hv').
  - exists v. split; [exact Hv|].
    pose proof (on_the_way_bounds target _ v Ht Hw Hv). lia.
Qed.

Lemma sixtieth (x : Q) : (60 * (x / 60) == x)%Q.
Proof. field. Qed.

(** A positive target: each firing adds a 63rd of the target at least. *)
Lemma funTick_progress (target : Z) (c : funCounter) :
  0 < target ->
  (0 <= funCurrent c)%Q -> (funCurrent c < inject_Z target)%Q ->
  (funCurrent c + inject_Z target * (1 # 63)
   <= funCurrent (funTick rnd target c))%Q.
Proof.
  intros Ht H0 Hlt. rewrite funCurrent_funTick.
  assert (HT : (0 < inject_Z target)%Q)
    by (change 0%Q with (inject_Z 0); rewrite <- Zlt_Qlt; exact Ht).
  pose proof (sixtieth (inject_Z target)) as H60.
  set (a := (inject_Z target / 60)%Q) in *.
  assert (Ha : (0 <= a)%Q) by lra.
  destruct (rounds_nonneg rnd a rnd_error Ha) as [Hinc _].
  set (inc := rnd a) in *.
  assert (Hsum : (0 <= funCurrent c + inc)%Q) by (unfold u in *; lra).
  destruct (rounds_nonneg rnd _ rnd_error Hsum) as [Hcur _].
  unfold u in *. lra.
Qed.

Lemma funRun_reaches (target : Z) (n : nat) (c : funCounter) :
  0 < target ->
  funTimer c = true ->
  (0 <= funCurrent c)%Q -> (funCurrent c < inject_Z target)%Q ->
  (inject_Z target - funCurrent c
     <= inject_Z (Z.of_nat n) * (inject_Z target * (1 # 63)))%Q ->
  funTimer (funRun target n c) = false
  /\ funText (funRun target n c) = Some {| shown := target; plus := true |}.
Proof.
  intros Ht. revert c. induction n as [|n IH]; intros c Hc H0 Hlt Hn.
  - exfalso. change (inject_Z (Z.of_nat 0)) with 0%Q in Hn. lra.
  - cbn [funRun]. rewrite Hc.
    pose proof (funTick_progress target c Ht H0 Hlt) as Hp.
    rewrite nat_succ_Q in Hn.
    destruct (funTimer (funTick rnd target c)) eqn:E.
    + apply IH; [exact E| lra | | lra].
      rewrite funTimer_funTick in E. apply negb_true_iff in E.
      apply Qltb_lt. unfold Qltb. rewrite E. reflexivity.
    + rewrite funRun_stopped by exact E. split; [exact E|].
      apply funTick_stopped. exact E.
Qed.

(** While its timer is live a fun-fact counter has written no ['+']. *)
Lemma no_plus_while_live (target : Z) (k : nat) (c0 : funCounter) (x : localized) :
  (funText c0 = None \/ exists y, funText c0 = Some y /\ plus y = false) ->
  funTimer (funRun target k c0) = true ->
  funText (funRun target k c0) = Some x -> plus x = false.
Proof.
  revert c0. induction k as [|k IH]; intros c0 H0 Ht Hx.
  - cbn in *. destruct H0 as [H0|(y & Hy & Hp)]; congruence.
  - cbn [funRun] in *. destruct (funTimer c0) eqn:E; [|congruence].
    apply (IH (funTick rnd target c0)); [|exact Ht|exact Hx].
    right. unfold funTick. destruct (Qle_bool _ _) eqn:Eq.
    + exfalso. rewrite funRun_stopped in Ht
        by (unfold funTick; rewrite Eq; reflexivity).
      unfold funTick in Ht. rewrite Eq in Ht. discriminate.
    + eexists. split; reflexivity.
Qed.

(** A target of zero or less: the first firing writes it. *)
Lemma funTick_nonpos (target : Z) :
  target <= 0 ->
  funTimer (funTick rnd target (animateFunCounter target)) = false.
Proof.
  intros Ht. rewrite funTimer_funTick, funCurrent_funTick. apply negb_false_iff.
  apply Qle_bool_iff. unfold animateFunCounter. cbn [funCurrent].
  assert (HT : (inject_Z target <= 0)%Q)
    by (change 0%Q with (inject_Z 0); rewrite <- Zle_Qle; exact Ht).
  pose proof (sixtieth (inject_Z target)) as H60.
  set (a := (inject_Z target / 60)%Q) in *.
  assert (Ha : (a <= 0)%Q) by lra.
  destruct (rounds_nonpos rnd a rnd_error Ha) as [Hinc Hinc'].
  set (inc := rnd a) in *.
  assert (Hsum : (0 + inc <= 0)%Q) by (unfold u in *; lra).
  destruct (rounds_nonpos rnd _ rnd_error Hsum) as [Hcur _].
  unfold u in *. lra.
Qed.

(** Whatever the integer target, and however the arithmetic rounds: a
    fun-fact counter stops within 63 firings of its timer, showing the target
    followed by ['+']; before it stops it shows no ['+']. *)
Theorem fun_counter_final_text (target : Z) (n : nat) :
  (63 <= n)%nat ->
  let c := funRun target n (animateFunCounter target) in
  funTimer c = false
  /\ funText c = Some {| shown := target; plus := true |}
  /\ (forall k x,
        funTimer (funRun target k (animateFunCounter target)) = true ->
        funText (funRun target k (animateFunCounter target)) = Some x ->
        plus x = false).
Proof.
  intros Hn c. subst c.
  assert (Hfinal : funTimer (funRun target n (animateFunCounter target)) = false
                   /\ funText (funRun target n (animateFunCounter target))
                      = Some {| shown := target; plus := true |}).
  { destruct (Z_lt_le_dec 0 target) as [Hpos|Hneg].
    - assert (HT : (0 < inject_Z target)%Q)
        by (change 0%Q with (inject_Z 0); rewrite <- Zlt_Qlt; exact Hpos).
      apply funRun_reaches; [exact Hpos|reflexivity|cbn; lra|cbn; lra|].
      cbn [animateFunCounter funCurrent].
      assert (HK : (63 <= inject_Z (Z.of_nat n))%Q).
      { change 63%Q with (inject_Z 63). rewrite <- Zle_Qle. lia. }
      assert (Hm : (0 <= (inject_Z (Z.of_nat n) - 63) * inject_Z target)%Q).
      { apply Qmult_le_0_compat; lra. }
      lra.
    - destruct n as [|n]; [lia|].
      cbn [funRun animateFunCounter funTimer].
      pose proof (funTick_nonpos target Hneg) as E.
      unfold animateFunCounter in E.
      rewrite funRun_stopped by exact E. split; [exact E|].
      apply funTick_stopped. exact E. }
  destruct Hfinal as [Htimer Htext].
  split; [exact Htimer|]. split; [exact Htext|].
  intros k x. apply (no_plus_while_live target k (animateFunCounter target) x).
  left. reflexivity.
Qed.

End Shown.

(** With exact arithmetic a counter to 7 shows 1 after ten firings. *)
Lemma counter_never_overshoots_witness :
  exists v',
    textContent (run Qred 7 11 (animateCounter 7)) = Some v' /\ 1 <= v' <= 7.
Proof.
  assert (Ht : 0 < 7) by lia.
  assert (Hv : textContent (run Qred 7 10 (animateCounter 7)) = Some 1)
    by (vm_compute; reflexivity).
  destruct (counter_never_overshoots Qred rounds_Qred 7 10 1 Ht Hv)
    as (_ & v' & Hv' & Hle).
  exists v'. split; [exact Hv'|exact Hle].
Defined.

Lemma fun_counter_final_text_witness :
  funText (funRun Qred 1200 63 (animateFunCounter 1200))
  = Some {| shown := 1200; plus := true |}.
Proof.
  assert (Hn : (63 <= 63)%nat) by lia.
  destruct (fun_counter_final_text Qred rounds_Qred 1200 63 Hn) as (_ & Hx & _).
  exact Hx.
Defined.

End CounterFacts.

(** ** The mobile menu: [initNavigation]

    A click runs the listeners on its way up from its target: the one of
    the toggle or the one of a nav link, then the one of the document. A
    nav link is not within the toggle. What the link listener does after it
    has closed the menu (it scrolls to the section) is left out. *)

Module Navigation.

(** [#nav-toggle] and [#nav-menu]: absent, or holding ['active'] or not. *)
Record nav := {
  navToggle : option bool;
  navMenu : option bool
}.

(** The element whose listener a click reaches. *)
Inductive hit := Toggle | Link | Other.

Inductive event :=
  | Click (h : hit) (inMenu inToggle : bool)
      (* whether [closest('.nav-menu')], [closest('.nav-toggle')] find one *)
  | KeyDown (key : string).

(** [classList.remove('active')] on both, each if it is there. *)
Definition remove_active (s : nav) : nav :=
  {| navToggle := (fun _ => false) <$> navToggle s;
     navMenu := (fun _ => false) <$> navMenu s |}.

(** The listener of the toggle; without the toggle it is not added. *)
Definition toggle_click (s : nav) : nav :=
  match navToggle s with
  | None => s
  | Some a => {| navToggle := Some (negb a); navMenu := negb <$> navMenu s |}
  end.

(** [DOM.navMenu?.classList.contains('active')] as a condition. *)
Definition menu_active (s : nav) : bool :=
  match navMenu s with
  | Some true => true
  | _ => false
  end.

(** The click listener of the document. *)
Definition outside_click (inMenu inToggle : bool) (s : nav) : nav :=
  if menu_active s && negb inMenu && negb inToggle then remove_active s else s.

(** The keydown listener of the document. *)
Definition keydown (key : string) (s : nav) : nav :=
  if bool_decide (key = "Escape") && menu_active s then remove_active s else s.

Definition handle (s : nav) (e : event) : nav :=
  match e with
  | Click h inMenu inToggle =>
      outside_click inMenu inToggle
        match h with
        | Toggle => toggle_click s
        | Link => remove_active s
        | Other => s
        end
  | KeyDown key => keydown key s
  end.

Definition run (s : nav) (es : list event) : nav := fold_left handle es s.

(** The events after which the menu is closed whatever it was: a click on
    a nav link, a click outside [.nav-menu] and [.nav-toggle], Escape. *)
Definition closes (e : event) : bool :=
  match e with
  | Click Link _ _ => true
  | Click _ inMenu inToggle => negb inMenu && negb inToggle
  | KeyDown key => bool_decide (key = "Escape")
  end.

(** *** Properties *)

(** Toggle and menu are there and agree on ['active']. *)
Definition in_sync (b : bool) (s : nav) : Prop :=
  navToggle s = Some b /\ navMenu s = Some b.

Lemma in_sync_handle (b : bool) (s : nav) (e : event) :
  in_sync b s ->
  exists b', in_sync b' (handle s e) /\ (closes e = true -> b' = false).
Proof.
  intros [Ht Hm]. destruct s as [t m]. cbn in Ht, Hm. subst t m.
  destruct e as [h inMenu inToggle|key].
  - destruct h, b, inMenu, inToggle; cbn;
      (eexists; split; [split; reflexivity|]); intros; congruence.
  - cbn [handle closes]. unfold keydown.
    destruct (bool_decide (key = "Escape")), b; cbn;
      (eexists; split; [split; reflexivity|]); intros; congruence.
Qed.

(** Toggle and menu both there and agreeing on ['active'] at the start,
    as when neither is open: whatever the clicks and keys, they agree after
    each of them, and the menu is closed after a click on a nav link, after
    a click outside [.nav-menu] and [.nav-toggle] (one on a toggle that
    lacks the class [nav-toggle] is such a click), and after Escape. *)
Theorem menu_follows_toggle (a : bool) (es : list event) :
  let s := run {| navToggle := Some a; navMenu := Some a |} es in
  exists b,
    in_sync b s
    /\ (forall es' e, es = es' ++ [e] -> closes e = true -> b = false).
Proof.
  cbv zeta. unfold run. induction es as [|e es IH] using rev_ind.
  - exists a. split; [split; reflexivity|]. intros [|? ?] e0 H; discriminate.
  - destruct IH as (b & Hb & _). rewrite fold_left_app. cbn [fold_left].
    destruct (in_sync_handle b _ e Hb) as (b' & Hb' & Hc).
    exists b'. split; [exact Hb'|].
    intros es' e' H Hcl. apply app_inj_tail in H as [_ <-]. exact (Hc Hcl).
Qed.

Lemma menu_active_handle (s : nav) (e : event) :
  navToggle s = None ->
  navToggle (handle s e) = None
  /\ (menu_active (handle s e) = true -> menu_active s = true).
Proof.
  destruct s as [t m]. cbn. intros ->.
  destruct e as [[| |] inMenu inToggle|key], m as [[|]|]; cbn;
    unfold outside_click, keydown; cbn;
    repeat match goal with |- context [if ?c then _ else _] => destruct c end;
    cbn; split; congruence.
Qed.

(** Without [#nav-toggle] nothing opens the menu: it is open after some
    events only if the markup had it open. *)
Theorem menu_needs_toggle (s : nav) (es : list event) :
  navToggle s = None ->
  menu_active (run s es) = true -> menu_active s = true.
Proof.
  unfold run. revert s. induction es as [|e es IH]; intros s Ht; [auto|].
  cbn [fold_left]. destruct (menu_active_handle s e Ht) as [Ht' Hm].
  intros H. apply Hm. apply (IH _ Ht'). exact H.
Qed.

Lemma menu_needs_toggle_witness :
  menu_active {| navToggle := None; navMenu := Some true |} = true.
Proof.
  apply (menu_needs_toggle {| navToggle := None; navMenu := Some true |}
           [Click Toggle false true; Click Other true false; KeyDown "Tab"]);
    reflexivity.
Defined.

(** Without [#nav-menu] the listeners of the document remove nothing:
    Escape and the clicks outside leave the toggle as it is, open if it was
    open. *)
Theorem toggle_without_menu (s : nav) (es : list event) :
  navMenu s = None ->
  forallb (fun e => match e with
                    | Click Other _ _ | KeyDown _ => true
                    | _ => false
                    end) es = true ->
  run s es = s.
Proof.
  intros Hm. unfold run. induction es as [|e es IH]; [reflexivity|].
  intros Hes. cbn in Hes. apply andb_prop in Hes as [He Hes].
  cbn [fold_left].
  assert (E : handle s e = s).
  { destruct s as [t m]. cbn in Hm. subst m.
    destruct e as [[| |] inMenu inToggle|key]; try discriminate.
    - reflexivity.
    - cbn. unfold keydown. cbn. rewrite andb_false_r. reflexivity. }
  rewrite E. apply IH. exact Hes.
Qed.

Lemma toggle_without_menu_witness :
  run {| navToggle := Some true; navMenu := None |}
      [KeyDown "Escape"; Click Other false false]
  = {| navToggle := Some true; navMenu := None |}.
Proof.
  apply (toggle_without_menu {| navToggle := Some true; navMenu := None |});
    reflexivity.
Defined.

End Navigation.

(** ** Back to top: [initBackToTop]

    The scroll listener is [Utils.throttle] of a function that sets the
    class ['visible'] of [#back-to-top] from [window.scrollY], with a limit
    of 100 ms. A call of the wrapper is a scroll event; what it carries is
    the position of the window at that event. *)

Module BackToTop.

Import RateLimit.

(** [backToTop.classList.toggle('visible', window.scrollY > 500)] *)
Definition show (scrollY : Q) (visible : bool) : bool := Qltb 500 scrollY.

(** ['visible'] after the calls the throttle has let through, from what
    the markup has. *)
Definition visible (markup : bool) (s : @throttled Q) : bool :=
  fold_right (fun c v => show (snd c) v) markup (t_calls s).

Definition is_timeout (e : @event Q) : bool :=
  match e with
  | TimeoutFires _ _ => true
  | Invoke _ _ => false
  end.

(** *** Properties *)

Lemma t_calls_timeouts (s : @throttled Q) (es : list (@event Q)) :
  forallb is_timeout es = true ->
  t_calls (fold_left (t_handle 100) es s) = t_calls s.
Proof.
  revert s. induction es as [|e es IH]; intros s Hes; [reflexivity|].
  cbn in Hes. apply andb_prop in Hes as [He Hes]. cbn [fold_left].
  rewrite (IH _ Hes). destruct e as [t y|h t]; [discriminate|].
  cbn [t_handle]. unfold t_timeout.
  destruct (t_timeouts s) as [|d rest]; [reflexivity|].
  destruct (d <=? _); reflexivity.
Qed.

(** Two scroll events in a row, the first one let through: the button
    shows or hides by the position of the first. The position of the second
    is never looked at, whenever the timeouts fire afterwards: scrolled back
    to the top by the second event, the page keeps its button. *)
Theorem trailing_scroll_lost (markup : bool) (es ts : list (@event Q))
    (t t' : Z) (y y' : Q) :
  inThrottle (t_run 100 es) = false ->
  forallb is_timeout ts = true ->
  visible markup (t_run 100 (es ++ Invoke t y :: Invoke t' y' :: ts))
  = Qltb 500 y.
Proof.
  intros Hopen Hts. unfold visible, t_run in *. rewrite fold_left_app.
  cbn [fold_left]. rewrite (t_calls_timeouts _ ts Hts).
  cbn [t_handle]. unfold t_invoke at 2. rewrite Hopen. cbn [negb].
  unfold t_invoke. cbn [inThrottle negb t_calls fold_right snd].
  reflexivity.
Qed.

(** At 600 px the button shows; the scroll back to the top 50 ms later
    does not hide it. *)
Lemma trailing_scroll_lost_witness :
  visible false
    (t_run 100 [Invoke 0 600%Q; Invoke 50 0%Q; TimeoutFires 0 100;
                TimeoutFires 0 4000])
  = true.
Proof.
  apply (trailing_scroll_lost false [] [TimeoutFires 0 100; TimeoutFires 0 4000]
           0 50 600%Q 0%Q); reflexivity.
Defined.

End BackToTop.

(** ** Scrolling by frames: the second [initScrollHandler]

    The second copy of the script in the file hands the work of a scroll
    event to [Utils.raf] and lets one callback at most wait. Of what the
    callback does, the writes to the navbar, the nav links and [State] and
    the call of [triggerTextRipple] are kept; the styles of the orbs and of
    the sections, which it writes and never reads, are left out. *)

Module ScrollFrames.

Import NavHighlight.

Inductive direction := Down | Up.

Record state := {
  scrollY : Q;                       (* [window.scrollY] *)
  ticking : bool;
  frames : nat;                      (* callbacks given to [Utils.raf], to run *)
  lastScrollY : Q;                   (* [State.lastScrollY] *)
  scrollDirection : direction;       (* [State.scrollDirection] *)
  navbar : option bool;              (* ['scrolled'] of [.navbar] *)
  navLinks : list navLink;
  ripples : nat                      (* calls of [triggerTextRipple] *)
}.

Section Frames.

Variable rnd : Q -> Q.
Variable sections : list section.

(** The callback given to [Utils.raf]. *)
Definition frame (s : state) : state :=
  let scrollDelta := rnd (scrollY s - lastScrollY s) in
  {| scrollY := scrollY s;
     ticking := false;
     frames := frames s;
     lastScrollY := scrollY s;
     scrollDirection := if Qltb 0 scrollDelta then Down else Up;
     navbar := (fun _ => Qltb 50 (scrollY s)) <$> navbar s;
     navLinks := updateActiveNavLink (scrollY s) sections (navLinks s);
     ripples := if Qltb 30 (Qabs scrollDelta) then S (ripples s) else ripples s |}.

(** [handleScroll] *)
Definition handleScroll (s : state) : state :=
  if negb (ticking s)
  then {| scrollY := scrollY s; ticking := true; frames := S (frames s);
          lastScrollY := lastScrollY s; scrollDirection := scrollDirection s;
          navbar := navbar s; navLinks := navLinks s; ripples := ripples s |}
  else s.

Inductive event :=
  | Scroll (y : Q)        (* the window gets to [y]; the scroll event *)
  | Frame.                (* the browser runs a callback, if one waits *)

Definition taken (s : state) : state :=
  {| scrollY := scrollY s; ticking := ticking s; frames := pred (frames s);
     lastScrollY := lastScrollY s; scrollDirection := scrollDirection s;
     navbar := navbar s; navLinks := navLinks s; ripples := ripples s |}.

Definition handle (s : state) (e : event) : state :=
  match e with
  | Scroll y =>
      handleScroll
        {| scrollY := y; ticking := ticking s; frames := frames s;
           lastScrollY := lastScrollY s; scrollDirection := scrollDirection s;
           navbar := navbar s; navLinks := navLinks s; ripples := ripples s |}
  | Frame =>
      match frames s with
      | O => s
      | S _ => frame (taken s)
      end
  end.

Definition run (s : state) (es : list event) : state := fold_left handle es s.

Definition is_scroll (e : event) : bool :=
  match e with Scroll _ => true | Frame => false end.

(** *** Properties *)

(** With a callback waiting nothing more is asked for; with none waiting,
    and a scroll event behind, the page is as the position of the window
    has it. *)
Definition caught_up (es : list event) (s : state) : Prop :=
  if ticking s
  then frames s = 1%nat
  else frames s = 0%nat
       /\ (existsb is_scroll es = true ->
           lastScrollY s = scrollY s
           /\ (forall b, navbar s = Some b -> b = Qltb 50 (scrollY s))
           /\ updateActiveNavLink (scrollY s) sections (navLinks s) = navLinks s).

Lemma updateActiveNavLink_again (y : Q) (links : list navLink) :
  updateActiveNavLink y sections (updateActiveNavLink y sections links)
  = updateActiveNavLink y sections links.
Proof.
  rewrite ScrollHandler.updateActiveNavLink_twice.
  destruct (ScrollHandler.hits sections y); reflexivity.
Qed.

Lemma caught_up_handle (es : list event) (s : state) (e : event) :
  caught_up es s -> caught_up (es ++ [e]) (handle s e).
Proof.
  unfold caught_up. intros H. rewrite existsb_app. cbn [existsb].
  destruct e as [y|]; cbn [handle is_scroll].
  - unfold handleScroll. cbn [ticking].
    destruct (ticking s); cbn [negb ticking frames]; [exact H|].
    destruct H as [H _]. rewrite H. reflexivity.
  - destruct (ticking s) eqn:Et.
    + rewrite H. cbn. rewrite H. split; [reflexivity|]. intros _.
      split; [reflexivity|]. split.
      * intros b. destruct (navbar s); cbn; congruence.
      * apply updateActiveNavLink_again.
    + destruct H as [H0 H]. rewrite H0, Et. split; [exact H0|].
      rewrite !orb_false_r. exact H.
Qed.

(** From a page with no callback waiting, whatever the scroll events and
    whenever the frames come: one callback at most waits, and it waits
    exactly while [ticking] is set; and when none waits after a scroll event
    or more, [State.lastScrollY] is where the window is, the navbar holds
    ['scrolled'] exactly if that is above 50, and the nav links are those a
    pass at that position leaves. No scroll position is lost to the
    throttling. *)
Theorem frames_catch_up (s0 : state) (es : list event) :
  ticking s0 = false -> frames s0 = 0%nat ->
  let s := run s0 es in
  (frames s <= 1)%nat
  /\ (ticking s = true <-> frames s = 1%nat)
  /\ (ticking s = false -> existsb is_scroll es = true ->
      lastScrollY s = scrollY s
      /\ (forall b, navbar s = Some b -> b = Qltb 50 (scrollY s))
      /\ updateActiveNavLink (scrollY s) sections (navLinks s) = navLinks s).
Proof.
  intros Ht Hf. cbv zeta.
  assert (H : caught_up es (run s0 es)).
  { unfold run. induction es as [|e es IH] using rev_ind.
    - unfold caught_up. cbn. rewrite Ht. split; [exact Hf|discriminate].
    - rewrite fold_left_app. apply caught_up_handle. exact IH. }
  unfold caught_up in H. destruct (ticking (run s0 es)).
  - rewrite H. split; [lia|]. split; [tauto|discriminate].
  - destruct H as [H0 H]. rewrite H0. split; [lia|].
    split; [split; discriminate|]. intros _. exact H.
Qed.

(** The callback sees the way made since the callback before it, not the
    scroll events: the direction is ['down'] exactly if the window is
    further down than [State.lastScrollY], ['up'] also when it has not
    moved, and scroll events that end where they began make no ripple. *)
Theorem frame_sees_net_way (s : state) :
  rounds rnd -> frames s <> 0%nat ->
  let s' := handle s Frame in
  (scrollDirection s' = Down <-> (lastScrollY s < scrollY s)%Q)
  /\ ((scrollY s == lastScrollY s)%Q ->
      scrollDirection s' = Up /\ ripples s' = ripples s).
Proof.
  intros Hr Hf. cbv zeta. cbn [handle].
  destruct (frames s) as [|k] eqn:E; [contradiction|].
  unfold frame, taken. cbn [scrollDirection ripples scrollY lastScrollY].
  set (d := (scrollY s - lastScrollY s)%Q).
  pose proof (Hr d) as Hd. apply Qabs_Qle_condition in Hd.
  assert (Hsign : (0 < rnd d)%Q <-> (0 < d)%Q).
  { destruct (Qlt_le_dec 0 d) as [Hpos|Hneg].
    - rewrite (Qabs_pos d) in Hd by lra. unfold u in Hd. split; intros; lra.
    - rewrite (Qabs_neg d) in Hd by lra. unfold u in Hd. split; intros; lra. }
  split.
  - destruct (Qltb 0 (rnd d)) eqn:Eb.
    + apply Qltb_lt in Eb. apply Hsign in Eb. unfold d in Eb.
      split; [intros _; lra|reflexivity].
    + apply Qltb_ge in Eb. split; [discriminate|].
      intros Hlt. exfalso. assert (Hpos : (0 < d)%Q) by (unfold d; lra).
      apply Hsign in Hpos. lra.
  - intros Heq. assert (Hz : (d == 0)%Q) by (unfold d; lra).
    assert (Hrz : (rnd d == 0)%Q).
    { rewrite (Qabs_pos d) in Hd by lra. unfold u in Hd. lra. }
    split.
    + destruct (Qltb 0 (rnd d)) eqn:Eb; [|reflexivity].
      apply Qltb_lt in Eb. lra.
    + destruct (Qltb 30 (Qabs (rnd d))) eqn:Eb; [|reflexivity].
      apply Qltb_lt in Eb.
      assert (Ha : (Qabs (rnd d) == 0)%Q) by (rewrite Hrz; reflexivity).
      lra.
Qed.

End Frames.

(** A page at the top, scrolled to 40, to 80, and back to 0 before the
    frame comes. *)
Definition at_top : state :=
  {| scrollY := 0; ticking := false; frames := 0; lastScrollY := 0;
     scrollDirection := Down; navbar := Some false; navLinks := demo_links;
     ripples := 0 |}.

Lemma frames_catch_up_witness :
  lastScrollY (run Qred demo_sections at_top [Scroll 40; Scroll 80; Frame])
  = 80%Q
  /\ navbar (run Qred demo_sections at_top [Scroll 40; Scroll 80; Frame])
     = Some true.
Proof.
  destruct (frames_catch_up Qred demo_sections at_top
              [Scroll 40; Scroll 80; Frame] eq_refl eq_refl)
    as (_ & _ & H).
  destruct (H eq_refl eq_refl) as (Hl & Hn & _).
  split; [exact Hl|]. reflexivity.
Defined.

Lemma frame_sees_net_way_witness :
  ripples (run Qred demo_sections at_top [Scroll 40; Scroll 80; Scroll 0; Frame])
  = 0%nat.
Proof.
  assert (Hf : frames (run Qred demo_sections at_top
                         [Scroll 40; Scroll 80; Scroll 0]) <> 0%nat)
    by (vm_compute; discriminate).
  assert (He : (scrollY (run Qred demo_sections at_top
                           [Scroll 40; Scroll 80; Scroll 0])
                == lastScrollY (run Qred demo_sections at_top
                                  [Scroll 40; Scroll 80; Scroll 0]))%Q)
    by (vm_compute; reflexivity).
  destruct (frame_sees_net_way Qred demo_sections _ rounds_Qred Hf)
    as (_ & H).
  destruct (H He) as (_ & Hr). exact Hr.
Defined.

End ScrollFrames.

(** ** Text ripples: [triggerTextRipple], [triggerCharRipple]

    The second copy of the script splits its titles into [.char] spans and
    lets a wave of ['ripple-active'] run over them on a scroll of more than
    30 px. Each timeout is kept with the span it holds. *)

Module TextRipple.

(** What [getBoundingClientRect] gives, of which the test reads two. *)
Record rect := {
  top : Q;
  bottom : Q
}.

(** [Utils.isInViewport(el, offset = 0)]. The script passes no offset, and
    adding 0 rounds nothing. *)
Definition isInViewport (innerHeight : Q) (r : rect) (offset : Q) : bool :=
  Qltb (top r) (innerHeight + offset) && Qltb (- offset) (bottom r).

(** A [.char]: whether it holds ['ripple-active'], and the timeouts that
    hold it and have yet to run, those that add the class and those that
    remove it. *)
Record char := {
  active : bool;
  adds : nat;
  removes : nat
}.

(** A [.ripple-text] element: its [.char] spans. *)
Definition element : Type := list char.

(** [triggerCharRipple(element)]: a timeout for each span. *)
Definition triggerCharRipple (el : element) : element :=
  map (fun c => {| active := active c; adds := S (adds c); removes := removes c |})
      el.

(** [triggerTextRipple()], the element at position [i] being where
    [rects i] has it. *)
Definition triggerTextRipple (innerHeight : Q) (rects : nat -> rect)
    (els : list element) : list element :=
  imap (fun i el => if isInViewport innerHeight (rects i) 0
                    then triggerCharRipple el else el) els.

(** The outer timeout of a span runs. *)
Definition add_fires (c : char) : char :=
  match adds c with
  | O => c
  | S k => {| active := true; adds := k; removes := S (removes c) |}
  end.

(** An inner timeout of a span runs, 800 ms after the outer one. *)
Definition remove_fires (c : char) : char :=
  match removes c with
  | O => c
  | S k => {| active := false; adds := adds c; removes := k |}
  end.

Inductive event :=
  | Trigger (innerHeight : Q) (rects : nat -> rect)
  | AddFires (el i : nat)
  | RemoveFires (el i : nat).

Definition handle (els : list element) (e : event) : list element :=
  match e with
  | Trigger innerHeight rects => triggerTextRipple innerHeight rects els
  | AddFires el i => alter (alter add_fires i) el els
  | RemoveFires el i => alter (alter remove_fires i) el els
  end.

Definition run (els : list element) (es : list event) : list element :=
  fold_left handle es els.

(** *** Properties *)

(** A span that holds the class has a timeout pending that removes it. *)
Definition fading (c : char) : Prop := active c = true -> removes c <> 0%nat.

Definition idle (c : char) : Prop :=
  active c = false /\ adds c = 0%nat /\ removes c = 0%nat.

Lemma fading_add_fires (c : char) : fading c -> fading (add_fires c).
Proof.
  unfold fading, add_fires. destruct (adds c); [auto|]. cbn. discriminate.
Qed.

Lemma fading_remove_fires (c : char) : fading c -> fading (remove_fires c).
Proof.
  unfold fading, remove_fires. destruct (removes c) eqn:E; [rewrite E; auto|].
  cbn. discriminate.
Qed.

Lemma fading_handle (els : list element) (e : event) :
  Forall (Forall fading) els -> Forall (Forall fading) (handle els e).
Proof.
  intros H. destruct e as [h rects|el i|el i]; cbn [handle].
  - unfold triggerTextRipple. apply Forall_lookup_2. intros i el Hel.
    rewrite list_lookup_imap in Hel.
    destruct (els !! i) as [el0|] eqn:E; [|discriminate].
    cbn in Hel. pose proof (Forall_lookup_1 _ _ _ _ H E) as H0.
    assert (Ht : Forall fading (triggerCharRipple el0)).
    { unfold triggerCharRipple. apply Forall_map.
      eapply Forall_impl; [exact H0|]. intros c Hc. exact Hc. }
    destruct (isInViewport h (rects i) 0); congruence.
  - apply Forall_alter; [exact H|]. intros chars _ Hc.
    apply Forall_alter; [exact Hc|]. intros c _. apply fading_add_fires.
  - apply Forall_alter; [exact H|]. intros chars _ Hc.
    apply Forall_alter; [exact Hc|]. intros c _. apply fading_remove_fires.
Qed.

Lemma lengths_imap (f : nat -> element -> element) (els : list element) :
  (forall i el, length (f i el) = length el) ->
  map length (imap f els) = map length els.
Proof.
  revert f. induction els as [|el els IH]; intros f Hf; [reflexivity|].
  cbn. rewrite Hf. f_equal. apply IH. intros i el'. apply Hf.
Qed.

Lemma lengths_alter (f : char -> char) (i el : nat) (els : list element) :
  map length (alter (alter f i) el els) = map length els.
Proof.
  revert el. induction els as [|x els IH]; intros [|el]; cbn; try reflexivity.
  - f_equal. apply length_alter.
  - f_equal. apply IH.
Qed.

Lemma lengths_handle (els : list element) (e : event) :
  map length (handle els e) = map length els.
Proof.
  destruct e as [h rects|el i|el i]; cbn [handle].
  - apply lengths_imap. intros i el.
    destruct (isInViewport h (rects i) 0); [|reflexivity].
    unfold triggerCharRipple. apply length_map.
  - apply lengths_alter.
  - apply lengths_alter.
Qed.

(** From spans at rest, whatever the ripples triggered and whenever their
    timeouts run: a span holds ['ripple-active'] only while a timeout that
    removes it is pending, so that no span is left highlighted once the
    timeouts have run; and the elements keep their spans. *)
Theorem ripple_fades (els : list element) (es : list event) :
  Forall (Forall idle) els ->
  let els' := run els es in
  map length els' = map length els
  /\ Forall (Forall (fun c => active c = true -> removes c <> 0%nat)) els'
  /\ (Forall (Forall (fun c => adds c = 0%nat /\ removes c = 0%nat)) els' ->
      Forall (Forall idle) els').
Proof.
  intros Hidle. cbv zeta.
  assert (H : map length (run els es) = map length els
              /\ Forall (Forall fading) (run els es)).
  { unfold run. induction es as [|e es IH] using rev_ind.
    - split; [reflexivity|]. eapply Forall_impl; [exact Hidle|].
      intros el Hel. eapply Forall_impl; [exact Hel|].
      intros c (Ha & _ & _) Ha'. congruence.
    - rewrite fold_left_app. cbn [fold_left]. destruct IH as [IHl IHf].
      split; [rewrite lengths_handle; exact IHl|].
      apply fading_handle. exact IHf. }
  destruct H as [Hl Hf]. split; [exact Hl|]. split; [exact Hf|].
  intros Hq. apply Forall_lookup_2. intros i el Hel.
  pose proof (Forall_lookup_1 _ _ _ _ Hf Hel) as Hfe.
  pose proof (Forall_lookup_1 _ _ _ _ Hq Hel) as Hqe.
  apply Forall_lookup_2. intros j c Hc.
  pose proof (Forall_lookup_1 _ _ _ _ Hfe Hc) as Hfc.
  destruct (Forall_lookup_1 _ _ _ _ Hqe Hc) as [Ha Hr].
  split; [|split; assumption].
  destruct (active c) eqn:E; [|reflexivity].
  exfalso. apply (Hfc E). exact Hr.
Qed.

(** A title of two spans in view and one out of view; the ripple is
    triggered twice before the timeouts of the first have all run. *)
Definition at_rest : char := {| active := false; adds := 0; removes := 0 |}.

Definition titles : list element := [[at_rest; at_rest]; [at_rest]].

Definition wave : list event :=
  [Trigger 800 (fun i => {| top := 100 + 800 * inject_Z (Z.of_nat i);
                            bottom := 140 + 800 * inject_Z (Z.of_nat i) |});
   AddFires 0 0;
   Trigger 800 (fun i => {| top := 60 + 800 * inject_Z (Z.of_nat i);
                            bottom := 100 + 800 * inject_Z (Z.of_nat i) |});
   AddFires 0 1; AddFires 0 0; RemoveFires 0 0; AddFires 0 1;
   RemoveFires 0 1; RemoveFires 0 0; RemoveFires 0 1].

Lemma ripple_fades_witness :
  run titles wave = titles /\ Forall (Forall idle) (run titles wave).
Proof.
  split; [reflexivity|].
  assert (Hidle : Forall (Forall idle) titles) by (repeat constructor).
  destruct (ripple_fades titles wave Hidle) as (_ & _ & H).
  apply H. repeat constructor.
Defined.

End TextRipple.
